(** * SecureVault security service: encryption and breach detection

    A shallow embedding of [services/encryption.py], [services/breach.py]
    and the two routers that expose them, together with the library
    functions they call (hex and base64 transport encodings, UTF-8,
    AES-256-GCM, SHA-1), followed by the properties of the service.

    Conventions.
    - A Python [bytes] value is a [list byte].
    - A Python [str] is the list of its Unicode code points ([N]).
    - A raised exception is the [Raise] branch of [result]; the order of
      the binds is the order of the statements in the source.
    - What the process reads from outside (the environment variable, the
      random source, the answer of the remote service) is an argument. *)

From Stdlib Require Import String Ascii Strings.Byte.
From Stdlib Require Import List Arith NArith ZArith Lia Bool.
Import ListNotations.
Local Open Scope N_scope.

(** ** Values and exceptions *)

Definition bytes := list byte.
Definition str := list N.

(** The text of a literal of the source, as a [str]. *)
Definition lit (s : string) : str := map N_of_ascii (list_ascii_of_string s).

Definition byte_of_N (n : N) : byte :=
  match Byte.of_N (n mod 256) with
  | Some b => b
  | None => x00
  end.

Definition str_eqb (a b : str) : bool :=
  if list_eq_dec N.eq_dec a b then true else false.

Definition bytes_eqb (a b : bytes) : bool :=
  if list_eq_dec Byte.byte_eq_dec a b then true else false.

(** The exceptions that the modelled code can raise.  [BinasciiError] is
    [binascii.Error]; [InvalidTag] is [cryptography.exceptions.InvalidTag];
    the last three are the [httpx] failures ([TimeoutException],
    [ConnectError], and [HTTPStatusError] with the status received). *)
Inductive exn : Type :=
| RuntimeError (msg : string)
| ValueError
| BinasciiError
| UnicodeEncodeError
| UnicodeDecodeError
| InvalidTag
| TimeoutException
| ConnectError
| HTTPStatusError (status : N).

Inductive result (A : Type) : Type :=
| Ok (a : A)
| Raise (e : exn).
Arguments Ok {A} a.
Arguments Raise {A} e.

Definition bind {A B : Type} (m : result A) (k : A -> result B) : result B :=
  match m with
  | Ok a => k a
  | Raise e => Raise e
  end.

Notation "x <- m ;; k" := (bind m (fun x => k))
  (at level 61, m at next level, right associativity).

Definition emit {A : Type} (a : A) (m : result (list A)) : result (list A) :=
  l <- m ;; Ok (a :: l).

(** ** [bytes.fromhex] *)

Module Hex.

Definition digit_value (c : N) : option N :=
  if (48 <=? c) && (c <=? 57) then Some (c - 48)
  else if (97 <=? c) && (c <=? 102) then Some (c - 87)
  else if (65 <=? c) && (c <=? 70) then Some (c - 55)
  else None.

(** [Py_ISSPACE]: space, and the controls from tab to carriage return. *)
Definition is_space (c : N) : bool :=
  (c =? 32) || ((9 <=? c) && (c <=? 13)).

(** White space is skipped in front of a byte, never between its two
    digits; anything else that is not a pair of digits is an error. *)
Fixpoint fromhex (s : str) : result bytes :=
  match s with
  | [] => Ok []
  | c :: rest =>
      if is_space c then fromhex rest
      else
        match digit_value c, rest with
        | Some top, d :: rest' =>
            match digit_value d with
            | Some bot => emit (byte_of_N (top * 16 + bot)) (fromhex rest')
            | None => Raise ValueError
            end
        | _, _ => Raise ValueError
        end
  end.

End Hex.

(** ** [base64.b64encode] and [base64.b64decode] *)

Module Base64.

Definition table_b2a : list N :=
  Eval cbv in
    lit "ABCDEFGHIJKLMNOPQRSTUVWXYZabcdefghijklmnopqrstuvwxyz0123456789+/".

Definition PAD : N := 61.

Definition b2a (v : N) : byte := byte_of_N (nth (N.to_nat v) table_b2a 0).

(** [binascii.b2a_base64] without the trailing newline. *)
Fixpoint b64encode (data : bytes) : bytes :=
  match data with
  | [] => []
  | [a] =>
      let x := Byte.to_N a in
      [b2a (x / 4); b2a (x mod 4 * 16); byte_of_N PAD; byte_of_N PAD]
  | [a; b] =>
      let x := Byte.to_N a in
      let y := Byte.to_N b in
      [b2a (x / 4); b2a (x mod 4 * 16 + y / 16); b2a (y mod 16 * 4);
       byte_of_N PAD]
  | a :: b :: c :: rest =>
      let x := Byte.to_N a in
      let y := Byte.to_N b in
      let z := Byte.to_N c in
      b2a (x / 4) :: b2a (x mod 4 * 16 + y / 16)
        :: b2a (y mod 16 * 4 + z / 64) :: b2a (z mod 64) :: b64encode rest
  end.

(** [table_a2b_base64]: the value of an alphabet character. *)
Definition a2b (c : N) : option N :=
  if (65 <=? c) && (c <=? 90) then Some (c - 65)
  else if (97 <=? c) && (c <=? 122) then Some (c - 71)
  else if (48 <=? c) && (c <=? 57) then Some (c + 4)
  else if c =? 43 then Some 62
  else if c =? 47 then Some 63
  else None.

(** The loop of [binascii.a2b_base64] in its default, lenient mode:
    characters outside the alphabet are dropped, a pad sequence that
    completes a quad ends the input, an incomplete quad at the end is
    an error. *)
Fixpoint a2b_loop (data : list N) (quad_pos leftchar pads : N)
  : result bytes :=
  match data with
  | [] => if quad_pos =? 0 then Ok [] else Raise BinasciiError
  | this_ch :: rest =>
      if this_ch =? PAD then
        if 2 <=? quad_pos then
          if 4 <=? quad_pos + (pads + 1) then Ok []
          else a2b_loop rest quad_pos leftchar (pads + 1)
        else a2b_loop rest quad_pos leftchar pads
      else
        match a2b this_ch with
        | None => a2b_loop rest quad_pos leftchar pads
        | Some v =>
            if quad_pos =? 0 then a2b_loop rest 1 v 0
            else if quad_pos =? 1 then
              emit (byte_of_N (leftchar * 4 + v / 16))
                   (a2b_loop rest 2 (v mod 16) 0)
            else if quad_pos =? 2 then
              emit (byte_of_N (leftchar * 16 + v / 4))
                   (a2b_loop rest 3 (v mod 4) 0)
            else
              emit (byte_of_N (leftchar * 64 + v))
                   (a2b_loop rest 0 0 0)
        end
  end.

(** [base64.b64decode] of a [str]: the text must be ASCII. *)
Definition b64decode (s : str) : result bytes :=
  if forallb (fun c => c <? 128) s then a2b_loop s 0 0 0
  else Raise ValueError.

End Base64.

(** The text of an envelope field that holds [data]: the characters of
    its base64 encoding. *)
Abbreviation b64text data := (map Byte.to_N (Base64.b64encode data)).

(** ** UTF-8: [str.encode('utf-8')] and [bytes.decode('utf-8')] *)

Module Utf8.

Definition is_surrogate (c : N) : bool := (0xD800 <=? c) && (c <=? 0xDFFF).

Definition encode_char (c : N) : option (list N) :=
  if c <? 0x80 then Some [c]
  else if c <? 0x800 then Some [0xC0 + c / 64; 0x80 + c mod 64]
  else if c <? 0x10000 then
    if is_surrogate c then None
    else Some [0xE0 + c / 4096; 0x80 + c / 64 mod 64; 0x80 + c mod 64]
  else if c <? 0x110000 then
    Some [0xF0 + c / 262144; 0x80 + c / 4096 mod 64;
          0x80 + c / 64 mod 64; 0x80 + c mod 64]
  else None.

Fixpoint encode (s : str) : result bytes :=
  match s with
  | [] => Ok []
  | c :: rest =>
      match encode_char c with
      | Some bs => tl <- encode rest ;; Ok (map byte_of_N bs ++ tl)
      | None => Raise UnicodeEncodeError
      end
  end.

Definition is_cont (b : N) : bool := (0x80 <=? b) && (b <? 0xC0).

(** Strict decoding: shortest form only, no surrogates, nothing above
    U+10FFFF. *)
Fixpoint decode_N (bs : list N) : result str :=
  match bs with
  | [] => Ok []
  | b0 :: r0 =>
      if b0 <? 0x80 then emit b0 (decode_N r0)
      else if b0 <? 0xC0 then Raise UnicodeDecodeError
      else
        match r0 with
        | [] => Raise UnicodeDecodeError
        | b1 :: r1 =>
            if negb (is_cont b1) then Raise UnicodeDecodeError
            else if b0 <? 0xE0 then
              let c := (b0 - 0xC0) * 64 + (b1 - 0x80) in
              if 0x80 <=? c then emit c (decode_N r1)
              else Raise UnicodeDecodeError
            else
              match r1 with
              | [] => Raise UnicodeDecodeError
              | b2 :: r2 =>
                  if negb (is_cont b2) then Raise UnicodeDecodeError
                  else if b0 <? 0xF0 then
                    let c := (b0 - 0xE0) * 4096 + (b1 - 0x80) * 64
                             + (b2 - 0x80) in
                    if (0x800 <=? c) && negb (is_surrogate c)
                    then emit c (decode_N r2)
                    else Raise UnicodeDecodeError
                  else
                    match r2 with
                    | [] => Raise UnicodeDecodeError
                    | b3 :: r3 =>
                        if negb (is_cont b3) then Raise UnicodeDecodeError
                        else if b0 <? 0xF8 then
                          let c := (b0 - 0xF0) * 262144
                                   + (b1 - 0x80) * 4096
                                   + (b2 - 0x80) * 64 + (b3 - 0x80) in
                          if (0x10000 <=? c) && (c <? 0x110000)
                          then emit c (decode_N r3)
                          else Raise UnicodeDecodeError
                        else Raise UnicodeDecodeError
                    end
              end
        end
  end.

Definition decode (bs : bytes) : result str := decode_N (map Byte.to_N bs).

(** A Unicode scalar value: a code point that is not a surrogate. *)
Definition scalar (c : N) : Prop := c < 0x110000 /\ is_surrogate c = false.

End Utf8.

(** ** AES-256, the block cipher under [AESGCM] (FIPS 197)

    Bytes are numbers below 256; a block is the sixteen bytes of the
    state in input order (column by column). *)

Module AES.

Definition xor_list (a b : list N) : list N :=
  map (fun p => N.lxor (fst p) (snd p)) (combine a b).

Definition xtime (b : N) : N :=
  if b <? 128 then 2 * b else N.lxor (2 * b - 256) 0x1B.

Fixpoint gmul_aux (n : nat) (a b acc : N) : N :=
  match n with
  | O => acc
  | S n' =>
      gmul_aux n' (xtime a) (b / 2) (if N.odd b then N.lxor acc a else acc)
  end.

(** Product in GF(2^8) modulo x^8 + x^4 + x^3 + x + 1. *)
Definition gmul (a b : N) : N := gmul_aux 8 a b 0.

Fixpoint gpow (a : N) (n : nat) : N :=
  match n with
  | O => 1
  | S n' => gmul a (gpow a n')
  end.

Definition rotl8 (x k : N) : N :=
  (x * 2 ^ k) mod 256 + x / 2 ^ (8 - k).

(** The S-box: the inverse in the field, then the affine map. *)
Definition sbox_calc (x : N) : N :=
  let i := gpow x 254 in
  N.lxor i (N.lxor (rotl8 i 1) (N.lxor (rotl8 i 2)
    (N.lxor (rotl8 i 3) (N.lxor (rotl8 i 4) 0x63)))).

Definition sbox_table : list N :=
  Eval vm_compute in map (fun n => sbox_calc (N.of_nat n)) (seq 0 256).

Definition sbox (x : N) : N := nth (N.to_nat x) sbox_table 0.

Definition sub_bytes (s : list N) : list N := map sbox s.

Definition shift_rows (s : list N) : list N :=
  map (fun i : nat => nth (4 * ((i / 4 + i mod 4) mod 4) + i mod 4)%nat s 0)
      (seq 0 16).

Definition mix_column (col : list N) : list N :=
  match col with
  | [a; b; c; d] =>
      [N.lxor (gmul 2 a) (N.lxor (gmul 3 b) (N.lxor c d));
       N.lxor a (N.lxor (gmul 2 b) (N.lxor (gmul 3 c) d));
       N.lxor a (N.lxor b (N.lxor (gmul 2 c) (gmul 3 d)));
       N.lxor (gmul 3 a) (N.lxor b (N.lxor c (gmul 2 d)))]
  | _ => col
  end.

Definition mix_columns (s : list N) : list N :=
  mix_column (firstn 4 s) ++ mix_column (firstn 4 (skipn 4 s))
    ++ mix_column (firstn 4 (skipn 8 s)) ++ mix_column (skipn 12 s).

Definition rot_word (w : list N) : list N :=
  match w with
  | a :: r => r ++ [a]
  | [] => []
  end.

Definition rcon (i : nat) : N := Nat.iter (i - 1) xtime 1.

(** [expand n i rev_w]: the words w[i], w[i+1], ... are pushed in front
    of [rev_w], which holds w[i-1], w[i-2], ... (Nk = 8). *)
Fixpoint expand (n i : nat) (rev_w : list (list N)) : list (list N) :=
  match n with
  | O => rev_w
  | S n' =>
      let temp := nth 0 rev_w [] in
      let temp' :=
        if Nat.eqb (i mod 8) 0
        then xor_list (sub_bytes (rot_word temp)) [rcon (i / 8); 0; 0; 0]
        else if Nat.eqb (i mod 8) 4 then sub_bytes temp
        else temp in
      expand n' (S i) (xor_list (nth 7 rev_w []) temp' :: rev_w)
  end.

Fixpoint words (n : nat) (key : list N) : list (list N) :=
  match n with
  | O => []
  | S n' => firstn 4 key :: words n' (skipn 4 key)
  end.

Definition key_expansion (key : list N) : list (list N) :=
  rev (expand 52 8 (rev (words 8 key))).

Definition round_key (w : list (list N)) (r : nat) : list N :=
  concat (firstn 4 (skipn (4 * r) w)).

Definition round (w : list (list N)) (s : list N) (r : nat) : list N :=
  xor_list (mix_columns (shift_rows (sub_bytes s))) (round_key w r).

Definition cipher (w : list (list N)) (block : list N) : list N :=
  let s := fold_left (round w) (seq 1 13) (xor_list block (round_key w 0)) in
  xor_list (shift_rows (sub_bytes s)) (round_key w 14).

Fixpoint index_of (y : N) (l : list N) (i : N) : N :=
  match l with
  | [] => i
  | x :: rest => if x =? y then i else index_of y rest (i + 1)
  end.

(** The inverse S-box. *)
Definition inv_sbox_table : list N :=
  Eval vm_compute in
    map (fun n => index_of (N.of_nat n) sbox_table 0) (seq 0 256).

Definition inv_sbox (y : N) : N := nth (N.to_nat y) inv_sbox_table 0.

(** InvMixColumns on one column, by which [mix_column] is undone. *)
Definition inv_mix_column (col : list N) : list N :=
  match col with
  | [a; b; c; d] =>
      [N.lxor (gmul 14 a) (N.lxor (gmul 11 b) (N.lxor (gmul 13 c) (gmul 9 d)));
       N.lxor (gmul 9 a) (N.lxor (gmul 14 b) (N.lxor (gmul 11 c) (gmul 13 d)));
       N.lxor (gmul 13 a) (N.lxor (gmul 9 b) (N.lxor (gmul 14 c) (gmul 11 d)));
       N.lxor (gmul 11 a) (N.lxor (gmul 13 b) (N.lxor (gmul 9 c) (gmul 14 d)))]
  | _ => col
  end.

(** [n] numbers below 256. *)
Definition byte_list (n : nat) (l : list N) : Prop :=
  length l = n /\ Forall (fun b => b < 256) l.

End AES.

(** ** Blocks as numbers *)

Definition be_N (bs : list N) : N := fold_left (fun acc b => acc * 256 + b) bs 0.

(** The [k] low bytes of [x], most significant first. *)
Fixpoint N_be (k : nat) (x : N) : list N :=
  match k with
  | O => []
  | S k' => x / 256 ^ N.of_nat k' mod 256 :: N_be k' x
  end.

Definition xor_byte (a b : byte) : byte :=
  byte_of_N (N.lxor (Byte.to_N a) (Byte.to_N b)).

Definition xor_bytes (a b : bytes) : bytes :=
  map (fun p => xor_byte (fst p) (snd p)) (combine a b).

(** AES-256 under [key] as a function on 128-bit numbers. *)
Definition aes256 (key : bytes) : N -> N :=
  let w := AES.key_expansion (map Byte.to_N key) in
  fun x => be_N (AES.cipher w (N_be 16 x)).

(** ** Galois/Counter Mode over a block cipher (NIST SP 800-38D),
       without associated data and with a 128-bit tag *)

Module GCM.
Section WithCipher.

Variable E : N -> N.

Definition R : N := 0xE1 * 2 ^ 120.

(** The product of two blocks: bit [127 - i] of the number is bit [i]
of the block. *)
Fixpoint gf_mul_aux (k : nat) (X V Z : N) : N :=
match k with
| O => Z
| S k' =>
  gf_mul_aux k' X
    (if N.odd V then N.lxor (V / 2) R else V / 2)
    (if N.testbit X (N.of_nat k') then N.lxor Z V else Z)
end.

Definition gf_mul (X Y : N) : N := gf_mul_aux 128 X Y 0.

Definition ghash (H : N) (xs : list N) : N :=
fold_left (fun y x => gf_mul (N.lxor y x) H) xs 0.

(** A chunk of at most sixteen bytes, padded with zeros on the right. *)
Definition block_of (chunk : bytes) : N :=
be_N (map Byte.to_N chunk) * 256 ^ N.of_nat (16 - length chunk).

Fixpoint blocks (n : nat) (data : bytes) : list N :=
match n with
| O => []
| S n' => block_of (firstn 16 data) :: blocks n' (skipn 16 data)
end.

Definition nblocks (data : bytes) : nat := Nat.div (length data + 15) 16.

Definition bitlen (data : bytes) : N := (8 * N.of_nat (length data)) mod 2 ^ 64.

Definition H : N := E 0.

Definition J0 (iv : bytes) : N :=
if Nat.eqb (length iv) 12 then be_N (map Byte.to_N iv) * 2 ^ 32 + 1
else ghash H (blocks (nblocks iv) iv ++ [bitlen iv]).

Definition inc32 (x : N) : N :=
x / 2 ^ 32 * 2 ^ 32 + (x mod 2 ^ 32 + 1) mod 2 ^ 32.

(** GCTR: the data is xored with E(cb), E(inc32 cb), ...; the last
block of key stream is cut to the data that is left. *)
Fixpoint gctr (n : nat) (cb : N) (data : bytes) : bytes :=
match n with
| O => []
| S n' =>
  xor_bytes (firstn 16 data) (map byte_of_N (N_be 16 (E cb)))
    ++ gctr n' (inc32 cb) (skipn 16 data)
end.

Definition crypt (iv data : bytes) : bytes :=
gctr (nblocks data) (inc32 (J0 iv)) data.

Definition tag (iv c : bytes) : bytes :=
let S := ghash H (blocks (nblocks c) c ++ [bitlen c]) in
map byte_of_N (N_be 16 (N.lxor S (E (J0 iv)))).

(** Authenticated encryption: the ciphertext followed by the tag. *)
Definition seal (iv p : bytes) : bytes :=
let c := crypt iv p in c ++ tag iv c.

(** Authenticated decryption of ciphertext [c] with tag [t]: [None]
when the tag does not verify. *)
Definition open (iv c t : bytes) : option bytes :=
if bytes_eqb (tag iv c) t then Some (crypt iv c) else None.

End WithCipher.
End GCM.

(** ** [cryptography.hazmat.primitives.ciphers.aead.AESGCM]

    Only 256-bit keys are modelled: [_load_key] yields no other.  The
    library's limit on the size of the data (2^31 - 1 bytes) is left out. *)

Module AESGCM.

Definition new (key : bytes) : result bytes :=
  if Nat.eqb (length key) 32 then Ok key else Raise ValueError.

Definition check_nonce (nonce : bytes) : result unit :=
  if Nat.ltb (length nonce) 8 || Nat.ltb 128 (length nonce)
  then Raise ValueError else Ok tt.

Definition encrypt (key nonce data : bytes) : result bytes :=
  _ <- check_nonce nonce ;;
  Ok (GCM.seal (aes256 key) nonce data).

(** The last sixteen bytes of [data] are the tag. *)
Definition decrypt (key nonce data : bytes) : result bytes :=
  _ <- check_nonce nonce ;;
  if Nat.ltb (length data) 16 then Raise InvalidTag
  else
    let n := (length data - 16)%nat in
    match GCM.open (aes256 key) nonce (firstn n data) (skipn n data) with
    | Some p => Ok p
    | None => Raise InvalidTag
    end.

End AESGCM.

(** ** SHA-1 (FIPS 180-4), the digest of [hashlib.sha1] as a 160-bit number *)

Module SHA1.

Definition add (a b : N) : N := (a + b) mod 2 ^ 32.

Definition rotl (n x : N) : N := (x * 2 ^ n) mod 2 ^ 32 + x / 2 ^ (32 - n).

Definition not32 (x : N) : N := N.lxor x 0xFFFFFFFF.

Definition pad (msg : list N) : list N :=
  let l := length msg in
  msg ++ [0x80] ++ repeat 0 ((64 - (l + 9) mod 64) mod 64)%nat
      ++ N_be 8 (8 * N.of_nat l).

Definition f (t : nat) (b c d : N) : N :=
  if Nat.ltb t 20 then N.lxor (N.land b c) (N.land (not32 b) d)
  else if Nat.ltb t 40 then N.lxor b (N.lxor c d)
  else if Nat.ltb t 60 then
    N.lxor (N.land b c) (N.lxor (N.land b d) (N.land c d))
  else N.lxor b (N.lxor c d).

Definition K (t : nat) : N :=
  if Nat.ltb t 20 then 0x5A827999
  else if Nat.ltb t 40 then 0x6ED9EBA1
  else if Nat.ltb t 60 then 0x8F1BBCDC
  else 0xCA62C1D6.

(** The sixteen words of a block, most significant byte first. *)
Fixpoint block_words (n : nat) (block : list N) : list N :=
  match n with
  | O => []
  | S n' => be_N (firstn 4 block) :: block_words n' (skipn 4 block)
  end.

(** [schedule n rev_w] pushes W[t], W[t+1], ... in front of [rev_w],
    which holds W[t-1], W[t-2], ... *)
Fixpoint schedule (n : nat) (rev_w : list N) : list N :=
  match n with
  | O => rev_w
  | S n' =>
      let w := rotl 1 (N.lxor (nth 2 rev_w 0) (N.lxor (nth 7 rev_w 0)
                 (N.lxor (nth 13 rev_w 0) (nth 15 rev_w 0)))) in
      schedule n' (w :: rev_w)
  end.

Definition state : Type := N * N * N * N * N.

Definition step (s : state) (tw : nat * N) : state :=
  let '(a, b, c, d, e) := s in
  let '(t, w) := tw in
  (add (add (add (add (rotl 5 a) (f t b c d)) e) (K t)) w,
   a, rotl 30 b, c, d).

Definition compress (h : state) (block : list N) : state :=
  let w := rev (schedule 64 (rev (block_words 16 block))) in
  let '(a, b, c, d, e) := fold_left step (combine (seq 0 80) w) h in
  let '(h0, h1, h2, h3, h4) := h in
  (add h0 a, add h1 b, add h2 c, add h3 d, add h4 e).

Fixpoint process (n : nat) (h : state) (msg : list N) : state :=
  match n with
  | O => h
  | S n' => process n' (compress h (firstn 64 msg)) (skipn 64 msg)
  end.

Definition init : state :=
  (0x67452301, 0xEFCDAB89, 0x98BADCFE, 0x10325476, 0xC3D2E1F0).

Definition sha1 (data : bytes) : N :=
  let m := pad (map Byte.to_N data) in
  let '(h0, h1, h2, h3, h4) := process (length m / 64) init m in
  be_N (N_be 4 h0 ++ N_be 4 h1 ++ N_be 4 h2 ++ N_be 4 h3 ++ N_be 4 h4).

End SHA1.

(** ** The built-ins of [str] that the breach check uses *)

(** What the Unicode character database says of the code points outside
    ASCII: the full upper-case mapping, which ones are white space, and
    the value of the decimal digits.  The service is modelled for any
    such tables. *)
Record unicode : Type := {
  to_upper : N -> list N;
  is_space : N -> bool;
  to_decimal : N -> option N
}.

(** Tables that know nothing outside ASCII. *)
Definition ascii_only : unicode :=
  {| to_upper := fun c => [c];
     is_space := fun _ => false;
     to_decimal := fun _ => None |}.

Module Py.
Section WithUnicode.

Variable U : unicode.

Definition upper_char (c : N) : list N :=
if c <? 128 then [if (97 <=? c) && (c <=? 122) then c - 32 else c]
else to_upper U c.

(** [str.upper]: character by character. *)
Definition upper (s : str) : str := flat_map upper_char s.

Definition is_linebreak (c : N) : bool :=
(c =? 10) || (c =? 11) || (c =? 12) || (c =? 13) || (c =? 0x1C)
|| (c =? 0x1D) || (c =? 0x1E) || (c =? 0x85) || (c =? 0x2028)
|| (c =? 0x2029).

(** [str.splitlines]: [cur] is the line being read, last character
first; a carriage return and the line feed after it are one break;
no empty line is added after a final break. *)
Fixpoint splitlines_from (cur : str) (s : str) : list str :=
match s with
| [] => match cur with [] => [] | _ => [rev cur] end
| c :: rest =>
  if c =? 13 then
    match rest with
    | 10 :: rest' => rev cur :: splitlines_from [] rest'
    | _ => rev cur :: splitlines_from [] rest
    end
  else if is_linebreak c then rev cur :: splitlines_from [] rest
  else splitlines_from (c :: cur) rest
end.

Definition splitlines (s : str) : list str := splitlines_from [] s.

(** [str.split(sep)] for a separator of one character: one field more
than there are separators. *)
Fixpoint split_from (sep : N) (cur : str) (s : str) : list str :=
match s with
| [] => [rev cur]
| c :: rest =>
  if c =? sep then rev cur :: split_from sep [] rest
  else split_from sep (c :: cur) rest
end.

Definition split (sep : N) (s : str) : list str := split_from sep [] s.

Definition ascii_space (c : N) : bool :=
(c =? 32) || ((9 <=? c) && (c <=? 13)).

Definition ascii_digit (c : N) : bool := (48 <=? c) && (c <=? 57).

(** What [int] reads in place of a character: ASCII as it is, other
white space as a space, other decimal digits as ASCII digits,
anything else as a question mark. *)
Definition to_ascii (c : N) : N :=
if c <? 127 then c
else if is_space U c then 32
else match to_decimal U c with
   | Some d => 48 + d
   | None => 63
   end.

(** The digits of a literal, with single underscores between them:
the value, the number of digits and what follows. *)
Fixpoint scan_digits (s : list N) (prev_underscore : bool) (acc n : N)
: option (N * N * list N) :=
match s with
| [] => if prev_underscore then None else Some (acc, n, [])
| c :: rest =>
  if ascii_digit c then scan_digits rest false (acc * 10 + (c - 48)) (n + 1)
  else if c =? 95 then
    if prev_underscore then None else scan_digits rest true acc n
  else if prev_underscore then None else Some (acc, n, s)
end.

Fixpoint skip_spaces (s : list N) : list N :=
match s with
| c :: rest => if ascii_space c then skip_spaces rest else s
| [] => []
end.

Definition max_str_digits : N := 4300.

(** [int(s)] in base ten. *)
Definition int (s : str) : result Z :=
let s1 := skip_spaces (map to_ascii s) in
let '(negative, s2) :=
match s1 with
| 45 :: r => (true, r)
| 43 :: r => (false, r)
| _ => (false, s1)
end in
match s2 with
| 95 :: _ => Raise ValueError
| _ =>
  match scan_digits s2 false 0 0 with
  | Some (v, n, rest) =>
      if (n =? 0) || (max_str_digits <? n) then Raise ValueError
      else
        match skip_spaces rest with
        | [] => Ok (if negative then (- Z.of_N v)%Z else Z.of_N v)
        | _ => Raise ValueError
        end
  | None => Raise ValueError
  end
end.

End WithUnicode.
End Py.

Definition hex_char (v : N) : N := if v <? 10 then 48 + v else 87 + v.

(** The [k] low hexadecimal digits of [x], in lower case. *)
Fixpoint hex_digits (k : nat) (x : N) : str :=
  match k with
  | O => []
  | S k' => hex_char (x / 16 ^ N.of_nat k' mod 16) :: hex_digits k' x
  end.

(** [hexdigest] of a 160-bit digest. *)
Definition hexdigest (d : N) : str := hex_digits 40 d.

(** ** [services/encryption.py] *)

(** The dict that [encrypt] returns: three base64 texts. *)
Record envelope : Type := {
  ciphertext : str;
  iv : str;
  tag : str
}.

(** The operating system's random bytes, as the tape of what is still
    to be drawn. *)
Definition random : Type := nat -> byte.

(** [secrets.token_bytes(n)]: the next [n] bytes of the tape. *)
Definition token_bytes (n : nat) (rnd : random) : bytes * random :=
  (map rnd (seq 0 n), fun i => rnd (n + i)%nat).

(** [environ] is [os.environ.get("VAULT_ENCRYPTION_KEY")]. *)
Definition _load_key (environ : option str) : result bytes :=
  match environ with
  | None | Some [] =>
      Raise (RuntimeError "VAULT_ENCRYPTION_KEY environment variable not set")
  | Some key_hex =>
      key_bytes <- Hex.fromhex key_hex ;;
      if negb (Nat.eqb (length key_bytes) 32) then
        Raise (RuntimeError
                 "VAULT_ENCRYPTION_KEY must be exactly 32 bytes (64 hex chars)")
      else Ok key_bytes
  end.

(** [encrypt]: the envelope or the exception, and the tape after the
    call.  Nothing is drawn when the key cannot be loaded. *)
Definition encrypt (environ : option str) (plaintext : str) (rnd : random)
  : result envelope * random :=
  match (key <- _load_key environ ;; AESGCM.new key) with
  | Raise e => (Raise e, rnd)
  | Ok aesgcm =>
      let (iv, rnd') := token_bytes 12 rnd in
      (plaintext_bytes <- Utf8.encode plaintext ;;
       ciphertext_with_tag <- AESGCM.encrypt aesgcm iv plaintext_bytes ;;
       let n := (length ciphertext_with_tag - 16)%nat in
       let ciphertext := firstn n ciphertext_with_tag in
       let tag := skipn n ciphertext_with_tag in
       c <- Utf8.decode (Base64.b64encode ciphertext) ;;
       i <- Utf8.decode (Base64.b64encode iv) ;;
       t <- Utf8.decode (Base64.b64encode tag) ;;
       Ok {| ciphertext := c; iv := i; tag := t |},
       rnd')
  end.

Definition decrypt (environ : option str) (ciphertext_b64 iv_b64 tag_b64 : str)
  : result str :=
  key <- _load_key environ ;;
  aesgcm <- AESGCM.new key ;;
  ciphertext <- Base64.b64decode ciphertext_b64 ;;
  iv <- Base64.b64decode iv_b64 ;;
  tag <- Base64.b64decode tag_b64 ;;
  let ciphertext_with_tag := ciphertext ++ tag in
  plaintext_bytes <- AESGCM.decrypt aesgcm iv ciphertext_with_tag ;;
  Utf8.decode plaintext_bytes.

(** ** [routers/encrypt.py] and the start of the process *)

(** What the framework sends back: the value returned by the handler,
    the [HTTPException] it raised, or the exception that escaped it
    (answered with status 500). *)
Inductive http (A : Type) : Type :=
| Reply (body : A)
| HTTPException (status_code : N)
| Unhandled (e : exn).
Arguments Reply {A} body.
Arguments HTTPException {A} status_code.
Arguments Unhandled {A} e.

Definition encrypt_endpoint (environ : option str) (plaintext : str)
  (rnd : random) : http envelope * random :=
  match plaintext with
  | [] => (HTTPException 400, rnd)
  | _ =>
      match encrypt environ plaintext rnd with
      | (Ok e, rnd') => (Reply e, rnd')
      | (Raise e, rnd') => (Unhandled e, rnd')
      end
  end.

Definition decrypt_endpoint (environ : option str) (req : envelope)
  : http str :=
  match decrypt environ (ciphertext req) (iv req) (tag req) with
  | Ok plaintext => Reply plaintext
  | Raise InvalidTag => HTTPException 422
  | Raise _ => HTTPException 400
  end.

(** [lifespan] in [main.py]: the start of the service writes a log line
    and reads no configuration. *)
Definition lifespan_startup (environ : option str) : result unit := Ok tt.

(** ** [services/breach.py] *)

(** A GET request of the [httpx] client: address, the headers set by the
    caller, and the timeout of the client in seconds. *)
Record request : Type := {
  url : str;
  headers : list (str * str);
  timeout : N
}.

(** What comes of sending a request. *)
Inductive outcome : Type :=
| TimedOut
| ConnectFailed
| Response (status_code : N) (text : str).

Definition HIBP_API_URL : str := lit "https://api.pwnedpasswords.com/range".

Definition range_request (prefix : str) : request :=
  {| url := HIBP_API_URL ++ lit "/" ++ prefix;
     headers := [(lit "Add-Padding", lit "true");
                 (lit "User-Agent", lit "SecureVault/1.0")];
     timeout := 5 |}.

Definition client_get (net : request -> outcome) (r : request)
  : result (N * str) :=
  match net r with
  | TimedOut => Raise TimeoutException
  | ConnectFailed => Raise ConnectError
  | Response status_code text => Ok (status_code, text)
  end.

(** [Response.raise_for_status]: any status outside 2xx is an error. *)
Definition raise_for_status (response : N * str) : result unit :=
  let status_code := fst response in
  if (200 <=? status_code) && (status_code <? 300) then Ok tt
  else Raise (HTTPStatusError status_code).

Module Breach.
Section WithLibraries.

Variable U : unicode.
(** [hashlib.sha1(data).digest()] as a number. *)
Variable sha1 : bytes -> N.

(** Steps 1 and 2: the digest in upper case, cut after five characters. *)
Definition digest (password : str) : result str :=
data <- Utf8.encode password ;;
Ok (Py.upper U (hexdigest (sha1 data))).

Definition prefix_of (sha1_hash : str) : str := firstn 5 sha1_hash.
Definition suffix_of (sha1_hash : str) : str := skipn 5 sha1_hash.

(** The request of step 3. *)
Definition outbound_request (password : str) : result request :=
sha1_hash <- digest password ;;
Ok (range_request (prefix_of sha1_hash)).

(** Step 4, the loop over the lines. *)
Fixpoint search (suffix : str) (lines : list str) : result (bool * Z) :=
match lines with
| [] => Ok (false, 0%Z)
| line :: rest =>
  match Py.split 58 line with
  | [returned_suffix; count] =>
      if str_eqb (Py.upper U returned_suffix) suffix then
        n <- Py.int U count ;; Ok (true, n)
      else search suffix rest
  | _ => Raise ValueError
  end
end.

Definition check_password_breach (net : request -> outcome) (password : str)
: result (bool * Z) :=
sha1_hash <- digest password ;;
let prefix := prefix_of sha1_hash in
let suffix := suffix_of sha1_hash in
response <- client_get net (range_request prefix) ;;
_ <- raise_for_status response ;;
let lines := Py.splitlines (snd response) in
search suffix lines.

(** ** [routers/breach.py] *)

(** [BreachResponse] without its message. *)
Record BreachResponse : Type := {
breached : bool;
count : Z
}.

Definition breach_check (net : request -> outcome) (password : str)
: http BreachResponse :=
match check_password_breach net password with
| Ok (true, n) => Reply {| breached := true; count := n |}
| Ok (false, _) => Reply {| breached := false; count := 0 |}
| Raise _ => HTTPException 503
end.

End WithLibraries.
End Breach.

(** ** The three defects of a configured key *)

Definition key_absent (environ : option str) : Prop :=
  environ = None \/ environ = Some [].

Definition key_not_hex (environ : option str) : Prop :=
  exists s e, environ = Some s /\ s <> [] /\ Hex.fromhex s = Raise e.

Definition key_wrong_length (environ : option str) : Prop :=
  exists s kb,
    environ = Some s /\ s <> [] /\ Hex.fromhex s = Ok kb
    /\ length kb <> 32%nat.

Definition not_set : exn :=
  RuntimeError "VAULT_ENCRYPTION_KEY environment variable not set".

Definition not_32_bytes : exn :=
  RuntimeError "VAULT_ENCRYPTION_KEY must be exactly 32 bytes (64 hex chars)".

(** The first field that does not decode, in the order in which
    [decrypt] decodes them, and the exception of its decoding. *)
Definition undecodable (c_b64 i_b64 t_b64 : str) (e : exn) : Prop :=
  Base64.b64decode c_b64 = Raise e
  \/ (exists c, Base64.b64decode c_b64 = Ok c /\ Base64.b64decode i_b64 = Raise e)
  \/ (exists c n,
        Base64.b64decode c_b64 = Ok c /\ Base64.b64decode i_b64 = Ok n
        /\ Base64.b64decode t_b64 = Raise e).

(** ** Tampering with an envelope *)

(** Bit [i] of [data] flipped, counting from the low bit of the first
    byte. *)
Fixpoint flip_bit (data : bytes) (i : nat) : bytes :=
  match data with
  | [] => []
  | b :: rest =>
      if Nat.ltb i 8 then xor_byte b (byte_of_N (2 ^ N.of_nat i)) :: rest
      else b :: flip_bit rest (i - 8)
  end.

(** Two lists that differ in one place and nowhere else. *)
Inductive one_change {A : Type} : list A -> list A -> Prop :=
| change_here (a a' : A) (l : list A) :
    a <> a' -> one_change (a :: l) (a' :: l)
| change_later (a : A) (l l' : list A) :
    one_change l l' -> one_change (a :: l) (a :: l').

(** Bit [bit] of the character at [pos] of a text flipped. *)
Definition flip_text_bit (s : str) (pos bit : nat) : str :=
  firstn pos s
    ++ match skipn pos s with
       | c :: rest => N.lxor c (2 ^ N.of_nat bit) :: rest
       | [] => []
       end.

(** The hash subkey of [key] has an inverse for the product of blocks:
    multiplying by the subkey and then by the inverse gives back each of
    the 128 one-bit blocks. *)
Definition subkey_invertible (key : bytes) : Prop :=
  exists Hinv,
    forall j, (j < 128)%nat ->
      GCM.gf_mul (GCM.gf_mul (2 ^ N.of_nat j) (GCM.H (aes256 key))) Hinv
      = 2 ^ N.of_nat j.

(** ** What a request shows, and the lines of a response *)

(** [needle] occurs in [hay]. *)
Definition contains (needle hay : str) : Prop :=
  exists before after, hay = before ++ needle ++ after.

(** The texts that make up a request. *)
Definition request_texts (r : request) : list str :=
  url r :: flat_map (fun h => [fst h; snd h]) (headers r).

(** A digit or one of the letters A to F. *)
Definition is_upper_hex (c : N) : Prop :=
  48 <= c <= 57 \/ 65 <= c <= 70.

(** A line with a suffix and a count whose suffix is not the one looked
    for. *)
Definition passed_over (U : unicode) (suffix line : str) : Prop :=
  exists s c, Py.split 58 line = [s; c] /\ Py.upper U s <> suffix.

(** A status that [raise_for_status] lets through. *)
Definition is_success (status_code : N) : Prop := 200 <= status_code < 300.

(** ** Sample inputs *)

Module Sample.

(** A configured key: sixty-four zeros. *)
Definition environ : option str :=
  Some (lit "0000000000000000000000000000000000000000000000000000000000000000").

Definition key : bytes := repeat x00 32.

(** A tape of random bytes that counts up from zero. *)
Definition counting : random := fun i => byte_of_N (N.of_nat i).

(** A tape that starts with the given bytes. *)
Definition tape (l : bytes) : random := fun i => nth i l x00.

Definition nonce_3 : bytes := repeat x00 11 ++ [x03].
Definition nonce_f : bytes := repeat x00 11 ++ [x0f].

(** The envelope of the text "hi" under [environ] and [counting]. *)
Definition envelope_hi : envelope :=
  {| ciphertext := lit "4KI=";
     iv := lit "AAECAwQFBgcICQoL";
     tag := lit "5VyUdW6uAOeNWe5clzaOUQ==" |}.

(** The inverse of the hash subkey of [key]. *)
Definition subkey_inverse : N := 0x4ceac0a75cffbf6c9ab06e3c887c52ba.

(** A stand-in for the digest function under which every digest is
    forty times the letter A. *)
Definition digest_all_A : bytes -> N :=
  fun _ => 0xAAAAAAAAAAAAAAAAAAAAAAAAAAAAAAAAAAAAAAAA.

(** A range response of two records. *)
Definition two_records : str :=
  lit "AAAAAAAAAAAAAAAAAAAAAAAAAAAAAAAAAAA:3" ++ [10]
    ++ lit "BBBBBBBBBBBBBBBBBBBBBBBBBBBBBBBBBBB:10".

(** A remote service that answers every request alike. *)
Definition always (o : outcome) : request -> outcome := fun _ => o.

(** The SHA-1 suffix of "password", after a line without a separator. *)
Definition garbage_then_match : str :=
  lit "garbage" ++ [10] ++ lit "1E4C9B93F3F0682250B6CF8331B7EE68FD8:3".

(** The SHA-1 suffix of "password" with a count that is no number. *)
Definition match_without_count : str :=
  lit "1E4C9B93F3F0682250B6CF8331B7EE68FD8:many".

End Sample.

(** ** The methods of [str] that the audit uses *)

(** [s.replace(old, new)] for an [old] of one character. *)
Definition replace_char (old : N) (new s : str) : str :=
  flat_map (fun c => if c =? old then new else [c]) s.

(** [sep.join(items)]. *)
Fixpoint join (sep : str) (items : list str) : str :=
  match items with
  | [] => []
  | [item] => item
  | item :: rest => item ++ sep ++ join sep rest
  end.

(** The digits of a number in base ten, as [%d] writes them. *)
Fixpoint uint_digits (u : Decimal.uint) : str :=
  match u with
  | Decimal.Nil => []
  | Decimal.D0 u' => 48 :: uint_digits u'
  | Decimal.D1 u' => 49 :: uint_digits u'
  | Decimal.D2 u' => 50 :: uint_digits u'
  | Decimal.D3 u' => 51 :: uint_digits u'
  | Decimal.D4 u' => 52 :: uint_digits u'
  | Decimal.D5 u' => 53 :: uint_digits u'
  | Decimal.D6 u' => 54 :: uint_digits u'
  | Decimal.D7 u' => 55 :: uint_digits u'
  | Decimal.D8 u' => 56 :: uint_digits u'
  | Decimal.D9 u' => 57 :: uint_digits u'
  end.

(** [%0kd] of a number that is not negative: at least [k] digits. *)
Definition zero_padded (k : nat) (n : N) : str :=
  let digits := uint_digits (N.to_uint n) in
  repeat 48 (k - length digits) ++ digits.

(** ** [datetime] and [timedelta] *)

Module Datetime.

(** A [timedelta] in its normal form: the seconds are below a day and
    the microseconds below a second. *)
Record timedelta : Type := {
  days : Z;
  seconds : Z;
  microseconds : Z
}.

(** [timedelta(days, seconds, microseconds)] on integers: the carries
    of the constructor, and [None] for its [OverflowError]. *)
Definition timedelta_new (days seconds microseconds : Z) : option timedelta :=
  let d := days in
  let days1 := (seconds / 86400)%Z in
  let seconds1 := (seconds mod 86400)%Z in
  let d := (d + days1)%Z in
  let s := seconds1 in
  let seconds2 := (microseconds / 1000000)%Z in
  let microseconds1 := (microseconds mod 1000000)%Z in
  let days2 := (seconds2 / 86400)%Z in
  let seconds3 := (seconds2 mod 86400)%Z in
  let d := (d + days2)%Z in
  let s := (s + seconds3)%Z in
  let seconds4 := (microseconds1 / 1000000)%Z in
  let us := (microseconds1 mod 1000000)%Z in
  let s := (s + seconds4)%Z in
  let days3 := (s / 86400)%Z in
  let s := (s mod 86400)%Z in
  let d := (d + days3)%Z in
  if (999999999 <? Z.abs d)%Z then None
  else Some {| days := d; seconds := s; microseconds := us |}.

Definition add (a b : timedelta) : option timedelta :=
  timedelta_new (days a + days b) (seconds a + seconds b)
    (microseconds a + microseconds b).

Definition neg (a : timedelta) : option timedelta :=
  timedelta_new (- days a) (- seconds a) (- microseconds a).

Definition eqb (a b : timedelta) : bool :=
  (days a =? days b)%Z && (seconds a =? seconds b)%Z
  && (microseconds a =? microseconds b)%Z.

Definition to_microseconds (a : timedelta) : Z :=
  ((days a * 86400 + seconds a) * 1000000 + microseconds a)%Z.

(** A [datetime]; [tzinfo] is the offset from UTC of its time zone, if
    it has one. *)
Record datetime : Type := {
  year : N;
  month : N;
  day : N;
  hour : N;
  minute : N;
  second : N;
  microsecond : N;
  tzinfo : option timedelta
}.

Definition _is_leap (year : N) : bool :=
  (year mod 4 =? 0) && (negb (year mod 100 =? 0) || (year mod 400 =? 0)).

Definition _days_before_year (year : N) : Z :=
  let y := (Z.of_N year - 1)%Z in
  (y * 365 + y / 4 - y / 100 + y / 400)%Z.

Definition _DAYS_IN_MONTH : list Z :=
  [-1; 31; 28; 31; 30; 31; 30; 31; 31; 30; 31; 30; 31]%Z.

Definition _DAYS_BEFORE_MONTH : list Z :=
  [-1; 0; 31; 59; 90; 120; 151; 181; 212; 243; 273; 304; 334]%Z.

Definition _days_in_month (year month : N) : Z :=
  if (month =? 2) && _is_leap year then 29%Z
  else nth (N.to_nat month) _DAYS_IN_MONTH 0%Z.

Definition _days_before_month (year month : N) : Z :=
  (nth (N.to_nat month) _DAYS_BEFORE_MONTH 0
   + (if (2 <? month)%N && _is_leap year then 1 else 0))%Z.

(** The day's number, the first of January of the year 1 being day 1. *)
Definition _ymd2ord (year month day : N) : Z :=
  (_days_before_year year + _days_before_month year month + Z.of_N day)%Z.

Definition toordinal (d : datetime) : Z := _ymd2ord (year d) (month d) (day d).

(** What the constructor checks of its arguments. *)
Definition valid (d : datetime) : Prop :=
  1 <= year d <= 9999 /\ 1 <= month d <= 12
  /\ (1 <= Z.of_N (day d) <= _days_in_month (year d) (month d))%Z
  /\ hour d < 24 /\ minute d < 60 /\ second d < 60
  /\ microsecond d < 1000000.

(** [d.replace(tzinfo=tz)]. *)
Definition replace_tzinfo (d : datetime) (tz : option timedelta) : datetime :=
  {| year := year d; month := month d; day := day d; hour := hour d;
     minute := minute d; second := second d; microsecond := microsecond d;
     tzinfo := tz |}.

(** [a - b]: [None] stands for the [TypeError] of mixing a value that
    has a time zone with one that has none, and for [OverflowError]. *)
Definition sub (a b : datetime) : option timedelta :=
  let days1 := toordinal a in
  let days2 := toordinal b in
  let secs1 := Z.of_N (second a + minute a * 60 + hour a * 3600) in
  let secs2 := Z.of_N (second b + minute b * 60 + hour b * 3600) in
  match timedelta_new (days1 - days2) (secs1 - secs2)
          (Z.of_N (microsecond a) - Z.of_N (microsecond b)) with
  | None => None
  | Some base =>
      match tzinfo a, tzinfo b with
      | None, None => Some base
      | Some myoff, Some otoff =>
          if eqb myoff otoff then Some base
          else
            match add base otoff, neg myoff with
            | Some shifted, Some back => add shifted back
            | _, _ => None
            end
      | _, _ => None
      end
  end.

Definition _format_time (hh mm ss us : N) : str :=
  zero_padded 2 hh ++ lit ":" ++ zero_padded 2 mm ++ lit ":"
    ++ zero_padded 2 ss
    ++ (if us =? 0 then [] else lit "." ++ zero_padded 6 us).

(** The offset as [+HH:MM], with seconds and microseconds when it has
    some; the quotients of the source's [divmod] are taken on the
    microseconds of the offset. *)
Definition _format_offset (off : option timedelta) : str :=
  match off with
  | None => []
  | Some off =>
      let sign := if (days off <? 0)%Z then lit "-" else lit "+" in
      let t := Z.to_N (Z.abs (to_microseconds off)) in
      let hh := t / 3600000000 in
      let mm := t mod 3600000000 / 60000000 in
      let ss := t mod 60000000 in
      sign ++ zero_padded 2 hh ++ lit ":" ++ zero_padded 2 mm
        ++ (if ss =? 0 then []
            else lit ":" ++ zero_padded 2 (ss / 1000000)
                   ++ (if ss mod 1000000 =? 0 then []
                       else lit "." ++ zero_padded 6 (ss mod 1000000)))
  end.

(** [d.isoformat()]. *)
Definition isoformat (d : datetime) : str :=
  zero_padded 4 (year d) ++ lit "-" ++ zero_padded 2 (month d) ++ lit "-"
    ++ zero_padded 2 (day d) ++ lit "T"
    ++ _format_time (hour d) (minute d) (second d) (microsecond d)
    ++ _format_offset (tzinfo d).

End Datetime.

(** ** [routers/audit.py] *)

Module Audit.

Record AuditEntry : Type := {
  id : str;
  title : str;
  type : str;
  last_updated : str
}.

Record AuditRequest : Type := {
  user_id : str;
  entries : list AuditEntry
}.

Module Report.

Record AuditReport : Type := {
  user_id : str;
  generated_at : str;
  total_entries : nat;
  recommendations : list str;
  risk_score : str
}.

End Report.

(** The texts of the recommendations. *)
Definition stale_text : str :=
  [0x1F504] ++ lit " Update these credentials " ++ [0x2014]
    ++ lit " not changed in 90+ days: ".

Definition empty_vault_text : str :=
  [0x1F4DD]
    ++ lit " Your vault is empty. Start adding your credentials to keep them secure.".

Definition add_notes_text : str :=
  [0x1F4CB]
    ++ lit " Consider adding secure notes for recovery codes and other sensitive info.".

Definition general_texts : list str :=
  [[0x1F511] ++ lit " Use unique passwords for every account " ++ [0x2014]
     ++ lit " never reuse credentials.";
   [0x1F6E1; 0xFE0F]
     ++ lit " Enable two-factor authentication on all critical accounts.";
   [0x1F50D] ++ lit " Run breach checks on your stored passwords regularly."].

Section WithParser.

(** [datetime.fromisoformat], whose accepted formats depend on the
    version of Python; [None] when it raises. *)
Variable fromisoformat : str -> option Datetime.datetime.

(** The two lines under [try]: the age in days of the FIRST entry of
    the request, or [None] for an exception ([except Exception] makes
    no difference between them). *)
Definition days_old (now : Datetime.datetime) (req_entries : list AuditEntry)
: option Z :=
match req_entries with
| [] => None
| first :: _ =>
  match fromisoformat (replace_char 90 (lit "+00:00") (last_updated first)) with
  | None => None
  | Some updated =>
    match Datetime.sub now (Datetime.replace_tzinfo updated None) with
    | None => None
    | Some delta => Some (Datetime.days delta)
    end
  end
end.

(** One turn of the loop over the entries, on [stale_entries] and
    [risk_factors]. *)
Definition visit (now : Datetime.datetime) (req_entries : list AuditEntry)
(state : list str * N) (entry : AuditEntry) : list str * N :=
let (stale_entries, risk_factors) := state in
match days_old now req_entries with
| Some d =>
  if (90 <? d)%Z && str_eqb (type entry) (lit "credential")
  then (stale_entries ++ [title entry], risk_factors + 1)
  else state
| None => state
end.

(** [generate_audit]; [now] is what [datetime.now()] returns. *)
Definition generate_audit (now : Datetime.datetime) (req : AuditRequest)
: Report.AuditReport :=
let (stale_entries, risk_factors) :=
  fold_left (visit now (entries req)) (entries req) ([], 0) in
let recommendations :=
  (match stale_entries with
   | [] => []
   | _ => [stale_text ++ join (lit ", ") (firstn 3 stale_entries)]
   end)
  ++ (if Nat.eqb (length (entries req)) 0 then [empty_vault_text] else [])
  ++ (if Nat.ltb 0 (length (entries req))
         && negb (existsb (fun e => str_eqb (type e) (lit "note"))
                    (entries req))
      then [add_notes_text] else [])
  ++ general_texts in
let risk_score :=
  if risk_factors =? 0 then lit "LOW"
  else if risk_factors <=? 2 then lit "MEDIUM" else lit "HIGH" in
{| Report.user_id := user_id req;
   Report.generated_at := Datetime.isoformat now;
   Report.total_entries := length (entries req);
   Report.recommendations := recommendations;
   Report.risk_score := risk_score |}.

End WithParser.
End Audit.

(** ** What the other properties speak of *)

(** The key stream of [GCM.gctr]: E(cb), E(inc32 cb), ... for [n]
    blocks. *)
Fixpoint keystream (E : N -> N) (n : nat) (cb : N) : bytes :=
  match n with
  | O => []
  | S n' => map byte_of_N (N_be 16 (E cb)) ++ keystream E n' (GCM.inc32 cb)
  end.

(** The characters of a key text that are not white space. *)
Definition key_digits (key_hex : str) : str :=
  filter (fun c => negb (Hex.is_space c)) key_hex.

(** A text without line breaks. *)
Definition one_line (s : str) : Prop :=
  Forall (fun c => Py.is_linebreak c = false) s.

(** The body made of [lines], each followed by [eol], and of a last
    line [rest] that nothing follows. *)
Definition body_of (eol : str) (lines : list str) (rest : str) : str :=
  flat_map (fun line => line ++ eol) lines ++ rest.

(** ** What the audit looks at *)

Definition is_credential (e : Audit.AuditEntry) : bool :=
  str_eqb (Audit.type e) (lit "credential").

Definition is_note (e : Audit.AuditEntry) : bool :=
  str_eqb (Audit.type e) (lit "note").

(** The first entry of the request is more than ninety days old. *)
Definition first_is_old (fromisoformat : str -> option Datetime.datetime)
  (now : Datetime.datetime) (req_entries : list Audit.AuditEntry) : bool :=
  match Audit.days_old fromisoformat now req_entries with
  | Some d => (90 <? d)%Z
  | None => false
  end.

(** The microseconds from the start of the day before day 1 to the
    fields of a [datetime], its time zone left aside. *)
Definition elapsed (d : Datetime.datetime) : Z :=
  ((Datetime.toordinal d * 86400
    + Z.of_N (Datetime.hour d * 3600 + Datetime.minute d * 60
              + Datetime.second d)) * 1000000
   + Z.of_N (Datetime.microsecond d))%Z.

Definition one_day : Z := 86400000000.

(** Sample requests for the audit. *)
Module AuditSample.

Definition digit (c : N) : option N :=
  if (48 <=? c) && (c <=? 57) then Some (c - 48) else None.

Fixpoint number (acc : N) (s : str) : option N :=
  match s with
  | [] => Some acc
  | c :: rest =>
      match digit c with
      | Some v => number (acc * 10 + v) rest
      | None => None
      end
  end.

(** A stand-in for the parser, which reads a date written YYYY-MM-DD
    as the start of that day and nothing else. *)
Definition parse_date (s : str) : option Datetime.datetime :=
  if negb (Nat.eqb (length s) 10) then None
  else if negb (str_eqb (firstn 1 (skipn 4 s)) (lit "-")
                && str_eqb (firstn 1 (skipn 7 s)) (lit "-")) then None
  else
    match number 0 (firstn 4 s), number 0 (firstn 2 (skipn 5 s)),
          number 0 (skipn 8 s) with
    | Some y, Some m, Some d =>
        Some {| Datetime.year := y; Datetime.month := m; Datetime.day := d;
                Datetime.hour := 0; Datetime.minute := 0;
                Datetime.second := 0; Datetime.microsecond := 0;
                Datetime.tzinfo := None |}
    | _, _, _ => None
    end.

(** Noon of the first of June 2024. *)
Definition now : Datetime.datetime :=
  {| Datetime.year := 2024; Datetime.month := 6; Datetime.day := 1;
     Datetime.hour := 12; Datetime.minute := 0; Datetime.second := 0;
     Datetime.microsecond := 0; Datetime.tzinfo := None |}.

Definition entry (title type last_updated : string) : Audit.AuditEntry :=
  {| Audit.id := lit "1"; Audit.title := lit title; Audit.type := lit type;
     Audit.last_updated := lit last_updated |}.

(** An old credential in front of three that were updated the day
    before [now]. *)
Definition vault : list Audit.AuditEntry :=
  [entry "mail" "credential" "2024-01-01";
   entry "bank" "credential" "2024-05-31";
   entry "shop" "credential" "2024-05-31";
   entry "wifi" "credential" "2024-05-31"].

(** The same entries with the dates of all but the first changed. *)
Definition vault_redated : list Audit.AuditEntry :=
  [entry "mail" "credential" "2024-01-01";
   entry "bank" "credential" "2020-01-01";
   entry "shop" "credential" "never";
   entry "wifi" "credential" "2024-06-01"].

End AuditSample.

(** * Properties *)

(** Linear arithmetic with division and remainder by constants. *)
Ltac divlia := zify; Z.to_euclidean_division_equations; lia.

(** ** Bytes and numbers *)

Lemma byte_of_to_N (b : byte) : byte_of_N (Byte.to_N b) = b.
Proof.
  unfold byte_of_N.
  pose proof (Byte.to_N_bounded b).
  rewrite N.mod_small by lia.
  now rewrite Byte.of_to_N.
Qed.

Lemma to_N_byte_of_N (n : N) : Byte.to_N (byte_of_N n) = n mod 256.
Proof.
  unfold byte_of_N.
  pose proof (N.mod_upper_bound n 256 ltac:(lia)) as Hlt.
  destruct (Byte.of_N (n mod 256)) eqn:E.
  - now apply Byte.to_of_N.
  - apply Byte.of_N_None_iff in E. lia.
Qed.

Lemma to_N_byte_of_N_small (n : N) : n < 256 -> Byte.to_N (byte_of_N n) = n.
Proof. intro. rewrite to_N_byte_of_N. now apply N.mod_small. Qed.

Lemma byte_of_N_eq (n : N) (b : byte) : n = Byte.to_N b -> byte_of_N n = b.
Proof. intros ->. apply byte_of_to_N. Qed.

Lemma to_N_lt (b : byte) : Byte.to_N b < 256.
Proof. pose proof (Byte.to_N_bounded b). lia. Qed.

Lemma map_byte_of_to_N (bs : bytes) : map byte_of_N (map Byte.to_N bs) = bs.
Proof.
  induction bs as [|b bs IH]; simpl; [reflexivity|].
  now rewrite byte_of_to_N, IH.
Qed.

(** A property checked on every number below [k] holds below [k]. *)
Lemma forall_below (P : N -> bool) (k : nat) :
  forallb (fun n => P (N.of_nat n)) (seq 0 k) = true ->
  forall v, v < N.of_nat k -> P v = true.
Proof.
  intros Hall v Hv.
  rewrite forallb_forall in Hall.
  rewrite <- (N2Nat.id v).
  apply Hall. apply in_seq. lia.
Qed.

Lemma Ok_inj {A : Type} (a b : A) : Ok a = Ok b -> a = b.
Proof. congruence. Qed.

Lemma bytes_eqb_refl (a : bytes) : bytes_eqb a a = true.
Proof. unfold bytes_eqb. now destruct (list_eq_dec _ a a). Qed.

Lemma bytes_eqb_eq (a b : bytes) : bytes_eqb a b = true <-> a = b.
Proof.
  unfold bytes_eqb. destruct (list_eq_dec _ a b); split; congruence.
Qed.

Lemma str_eqb_eq (a b : str) : str_eqb a b = true <-> a = b.
Proof.
  unfold str_eqb. destruct (list_eq_dec _ a b); split; congruence.
Qed.

Lemma list_ind3 {A : Type} (P : list A -> Prop) :
  P [] -> (forall a, P [a]) -> (forall a b, P [a; b]) ->
  (forall a b c l, P l -> P (a :: b :: c :: l)) ->
  forall l, P l.
Proof.
  intros H0 H1 H2 H3 l.
  assert (P l /\ (forall a, P (a :: l)) /\ (forall a b, P (a :: b :: l)))
    as [H _]; [|exact H].
  induction l as [|x l (IHa & IHb & IHc)]; auto.
Qed.

Lemma firstn_length_app {A : Type} (l r : list A) :
  firstn (length l) (l ++ r) = l.
Proof. induction l; simpl; congruence. Qed.

Lemma skipn_length_app {A : Type} (l r : list A) :
  skipn (length l) (l ++ r) = r.
Proof. induction l; simpl; congruence. Qed.

(** ** Base64: decoding an encoding gives the bytes back *)

Module Base64Facts.
Import Base64.

Lemma b2a_ascii (v : N) : Byte.to_N (b2a v) < 128.
Proof.
  unfold b2a. generalize (N.to_nat v). intro n.
  do 64 (destruct n as [|n]; [vm_compute; reflexivity|]).
  destruct n; vm_compute; reflexivity.
Qed.

Lemma a2b_b2a (v : N) :
  v < 64 ->
  a2b (Byte.to_N (b2a v)) = Some v /\ (Byte.to_N (b2a v) =? PAD) = false.
Proof.
  intro Hv.
  pose (P := fun v =>
    match a2b (Byte.to_N (b2a v)) with
    | Some w => (w =? v) && negb (Byte.to_N (b2a v) =? PAD)
    | None => false
    end).
  assert (HP : P v = true).
  { apply (forall_below P 64); [vm_compute; reflexivity | exact Hv]. }
  unfold P in HP.
  destruct (a2b (Byte.to_N (b2a v))); [|discriminate].
  apply andb_true_iff in HP. destruct HP as [H1 H2].
  apply N.eqb_eq in H1. apply negb_true_iff in H2.
  now subst.
Qed.

(** One step of the decoder on an alphabet character. *)
Lemma a2b_loop_data (v : N) (rest : list N) (q l p : N) :
  v < 64 ->
  a2b_loop (Byte.to_N (b2a v) :: rest) q l p =
    if q =? 0 then a2b_loop rest 1 v 0
    else if q =? 1 then
      emit (byte_of_N (l * 4 + v / 16)) (a2b_loop rest 2 (v mod 16) 0)
    else if q =? 2 then
      emit (byte_of_N (l * 16 + v / 4)) (a2b_loop rest 3 (v mod 4) 0)
    else emit (byte_of_N (l * 64 + v)) (a2b_loop rest 0 0 0).
Proof.
  intro Hv. destruct (a2b_b2a v Hv) as [Ha Hp].
  cbn [a2b_loop]. now rewrite Hp, Ha.
Qed.

Lemma to_N_pad : Byte.to_N (byte_of_N PAD) = PAD.
Proof. reflexivity. Qed.

Lemma a2b_loop_b64encode (data : bytes) :
  a2b_loop (map Byte.to_N (b64encode data)) 0 0 0 = Ok data.
Proof.
  induction data as [|a|a b|a b c rest IH] using list_ind3.
  - reflexivity.
  - pose proof (to_N_lt a) as Ha.
    cbn [b64encode map].
    rewrite !a2b_loop_data by divlia. cbn [N.eqb Pos.eqb].
    rewrite to_N_pad. cbn.
    repeat (f_equal; try (apply byte_of_N_eq; divlia)).
  - pose proof (to_N_lt a) as Ha. pose proof (to_N_lt b) as Hb.
    cbn [b64encode map].
    rewrite !a2b_loop_data by divlia. cbn [N.eqb Pos.eqb].
    rewrite to_N_pad. cbn.
    repeat (f_equal; try (apply byte_of_N_eq; divlia)).
  - pose proof (to_N_lt a) as Ha. pose proof (to_N_lt b) as Hb.
    pose proof (to_N_lt c) as Hc.
    cbn [b64encode map].
    rewrite !a2b_loop_data by divlia. cbn [N.eqb Pos.eqb].
    rewrite IH. cbn [emit bind].
    repeat (f_equal; try (apply byte_of_N_eq; divlia)).
Qed.

End Base64Facts.

(** ** UTF-8 *)

Module Utf8Facts.
Import Utf8.

Ltac decide_tests :=
  repeat match goal with
  | |- context [?a <? ?b] =>
      first [ rewrite (proj2 (N.ltb_lt a b)) by divlia
            | rewrite (proj2 (N.ltb_ge a b)) by divlia ]
  | |- context [?a <=? ?b] =>
      first [ rewrite (proj2 (N.leb_le a b)) by divlia
            | rewrite (proj2 (N.leb_gt a b)) by divlia ]
  end.

Ltac name_bytes :=
  repeat match goal with
  | |- context [(?k + ?e) :: _] =>
      let b := fresh "b" in remember (k + e) as b
  end.

Lemma Some_inj {A : Type} (a b : A) : Some a = Some b -> a = b.
Proof. congruence. Qed.

Ltac take_bytes :=
  let Hl := fresh in intro Hl; apply Some_inj in Hl; subst.

Lemma decode_N_encode_char (c : N) (l r : list N) :
  encode_char c = Some l -> decode_N (l ++ r) = emit c (decode_N r).
Proof.
  unfold encode_char, is_surrogate.
  destruct (N.ltb_spec c 0x80); [take_bytes|].
  { cbn [app decode_N]. decide_tests. reflexivity. }
  destruct (N.ltb_spec c 0x800); [take_bytes|].
  { name_bytes. cbn [app decode_N]. unfold is_cont.
    decide_tests. cbn [negb andb]. f_equal. divlia. }
  destruct (N.ltb_spec c 0x10000).
  { destruct (N.leb_spec 0xD800 c); destruct (N.leb_spec c 0xDFFF);
      cbn [andb]; try discriminate; take_bytes;
      name_bytes; cbn [app decode_N]; unfold is_cont, is_surrogate;
      decide_tests; cbn [negb andb]; f_equal; divlia. }
  destruct (N.ltb_spec c 0x110000); [take_bytes|discriminate].
  name_bytes. cbn [app decode_N]. unfold is_cont.
  decide_tests. cbn [negb andb]. f_equal. divlia.
Qed.

Lemma encode_char_bytes (c : N) (l : list N) :
  encode_char c = Some l -> Forall (fun b => b < 256) l.
Proof.
  unfold encode_char.
  repeat match goal with
  | |- context [if ?a <? ?b then _ else _] => destruct (N.ltb_spec a b)
  | |- context [if is_surrogate ?c then _ else _] => destruct (is_surrogate c)
  end; try discriminate; take_bytes;
    repeat constructor; divlia.
Qed.

Lemma map_to_N_byte_of_N (l : list N) :
  Forall (fun b => b < 256) l -> map Byte.to_N (map byte_of_N l) = l.
Proof.
  induction 1 as [|b l Hb _ IH]; simpl; [reflexivity|].
  now rewrite to_N_byte_of_N_small, IH.
Qed.

(** Decoding what [encode] produced gives the text back. *)
Lemma decode_encode (s : str) (data : bytes) :
  encode s = Ok data -> decode data = Ok s.
Proof.
  revert data. induction s as [|c s IH]; intros data; cbn [encode].
  - now intros [= <-].
  - destruct (encode_char c) as [l|] eqn:Ec; [|discriminate].
    destruct (encode s) as [tl|] eqn:Es; cbn [bind]; [|discriminate].
    intros [= <-]. unfold decode.
    rewrite map_app, map_to_N_byte_of_N by eauto using encode_char_bytes.
    rewrite (decode_N_encode_char _ _ _ Ec).
    specialize (IH tl eq_refl). unfold decode in IH. now rewrite IH.
Qed.

(** Text made of Unicode scalar values can be encoded. *)
Lemma encode_total (s : str) :
  Forall scalar s -> exists data, encode s = Ok data.
Proof.
  induction 1 as [|c s [Hc Hs] _ [tl IH]]; cbn [encode].
  - now eexists.
  - unfold encode_char. rewrite Hs, IH.
    repeat match goal with
    | |- context [if ?a <? ?b then _ else _] => destruct (N.ltb_spec a b)
    end; try lia; cbn [bind]; now eexists.
Qed.

Lemma decode_N_ascii (l : list N) :
  Forall (fun b => b < 128) l -> decode_N l = Ok l.
Proof.
  induction 1 as [|b l Hb _ IH]; cbn [decode_N]; [reflexivity|].
  apply N.ltb_lt in Hb. now rewrite Hb, IH.
Qed.

End Utf8Facts.

(** ** The base64 text of the envelope *)

Module TransportFacts.
Import Base64 Base64Facts Utf8Facts.

Lemma b64encode_ascii (data : bytes) :
  Forall (fun b => b < 128) (map Byte.to_N (b64encode data)).
Proof.
  induction data as [|a|a b|a b c rest IH] using list_ind3;
    cbn [b64encode map];
    repeat (constructor; [first [apply b2a_ascii | vm_compute; reflexivity]|]);
    first [constructor | exact IH].
Qed.

(** The encoding read back as text is the list of its characters. *)
Lemma decode_b64encode (data : bytes) :
  Utf8.decode (b64encode data) = Ok (map Byte.to_N (b64encode data)).
Proof. apply decode_N_ascii, b64encode_ascii. Qed.

Lemma b64decode_b64encode (data : bytes) :
  b64decode (map Byte.to_N (b64encode data)) = Ok data.
Proof.
  unfold b64decode.
  replace (forallb _ _) with true.
  - apply a2b_loop_b64encode.
  - symmetry. apply forallb_forall. intros c Hc.
    pose proof (b64encode_ascii data) as Hall.
    rewrite Forall_forall in Hall. apply N.ltb_lt. now apply Hall.
Qed.

Lemma b64text_inj (a b : bytes) : b64text a = b64text b -> a = b.
Proof.
  intro Heq.
  pose proof (b64decode_b64encode a) as Ha.
  rewrite Heq, b64decode_b64encode in Ha. congruence.
Qed.

End TransportFacts.

(** ** Counter mode and the tag *)

Module GCMFacts.
Import GCM.

Lemma N_be_length (k : nat) (x : N) : length (N_be k x) = k.
Proof. induction k; simpl; congruence. Qed.

Lemma xor_byte_involutive (a k : byte) : xor_byte (xor_byte a k) k = a.
Proof.
  pose (P := fun x => forallb (fun y =>
    Byte.eqb (xor_byte (xor_byte (byte_of_N x) (byte_of_N (N.of_nat y)))
                       (byte_of_N (N.of_nat y)))
             (byte_of_N x)) (seq 0 256)).
  assert (HP : P (Byte.to_N a) = true).
  { apply (forall_below P 256); [vm_compute; reflexivity | apply to_N_lt]. }
  unfold P in HP. rewrite forallb_forall in HP.
  specialize (HP (N.to_nat (Byte.to_N k))).
  rewrite N2Nat.id, !byte_of_to_N in HP.
  apply Byte.byte_dec_bl, HP, in_seq.
  pose proof (to_N_lt k). lia.
Qed.

Lemma xor_bytes_length (a k : bytes) :
  length (xor_bytes a k) = Nat.min (length a) (length k).
Proof. unfold xor_bytes. now rewrite length_map, length_combine. Qed.

Lemma xor_bytes_cons (x y : byte) (a k : bytes) :
  xor_bytes (x :: a) (y :: k) = xor_byte x y :: xor_bytes a k.
Proof. reflexivity. Qed.

Lemma xor_bytes_involutive (a k : bytes) :
  (length a <= length k)%nat -> xor_bytes (xor_bytes a k) k = a.
Proof.
  revert k. induction a as [|x a IH]; intros [|y k] Hlen;
    try reflexivity; cbn [length] in Hlen; try lia.
  rewrite !xor_bytes_cons, xor_byte_involutive, IH by lia. reflexivity.
Qed.

Section WithCipher.
Variable E : N -> N.

Lemma stream_length (cb : N) : length (map byte_of_N (N_be 16 (E cb))) = 16%nat.
Proof. now rewrite length_map, N_be_length. Qed.

Lemma gctr_nil (n : nat) (cb : N) : gctr E n cb [] = [].
Proof.
  revert cb. induction n as [|n IH]; intro cb; [reflexivity|].
  cbn [gctr firstn skipn]. now rewrite IH.
Qed.

Lemma gctr_length (n : nat) (cb : N) (data : bytes) :
  (length data <= 16 * n)%nat -> length (gctr E n cb data) = length data.
Proof.
  revert cb data. induction n as [|n IH]; intros cb data Hlen.
  - destruct data; simpl in *; [reflexivity | lia].
  - cbn [gctr]. rewrite length_app, xor_bytes_length, stream_length.
    rewrite IH by (rewrite length_skipn; lia).
    rewrite length_firstn, length_skipn. lia.
Qed.

Lemma gctr_involutive (n : nat) (cb : N) (data : bytes) :
  (length data <= 16 * n)%nat -> gctr E n cb (gctr E n cb data) = data.
Proof.
  revert cb data. induction n as [|n IH]; intros cb data Hlen.
  - destruct data; simpl in *; [reflexivity | lia].
  - cbn [gctr].
    set (ks := map byte_of_N (N_be 16 (E cb))).
    assert (Hks : length ks = 16%nat) by apply stream_length.
    set (head := xor_bytes (firstn 16 data) ks).
    assert (Hhead : length head = length (firstn 16 data)).
    { unfold head. rewrite xor_bytes_length, Hks, length_firstn. lia. }
    destruct (Nat.le_gt_cases 16 (length data)) as [Hbig|Hsmall].
    + assert (H16 : length head = 16%nat).
      { rewrite Hhead, length_firstn. lia. }
      rewrite <- H16 at 1 3.
      rewrite firstn_length_app, skipn_length_app.
      unfold head. rewrite xor_bytes_involutive
        by (rewrite Hks, length_firstn; lia).
      rewrite IH by (rewrite length_skipn; lia).
      apply firstn_skipn.
    + rewrite (skipn_all2 data) by lia.
      rewrite gctr_nil, app_nil_r.
      rewrite (firstn_all2 head) by (rewrite Hhead, length_firstn; lia).
      rewrite (skipn_all2 head) by (rewrite Hhead, length_firstn; lia).
      rewrite gctr_nil, app_nil_r.
      unfold head. rewrite xor_bytes_involutive
        by (rewrite Hks, length_firstn; lia).
      apply firstn_all2. lia.
Qed.

Lemma nblocks_bound (data : bytes) : (length data <= 16 * nblocks data)%nat.
Proof.
  unfold nblocks.
  pose proof (Nat.div_mod (length data + 15) 16 ltac:(lia)).
  pose proof (Nat.mod_upper_bound (length data + 15) 16 ltac:(lia)).
  lia.
Qed.

Lemma crypt_length (iv data : bytes) :
  length (crypt E iv data) = length data.
Proof. apply gctr_length, nblocks_bound. Qed.

(** Counter mode is its own inverse. *)
Lemma crypt_involutive (iv data : bytes) :
  crypt E iv (crypt E iv data) = data.
Proof.
  unfold crypt at 1. unfold nblocks. rewrite crypt_length.
  apply gctr_involutive, nblocks_bound.
Qed.

Lemma tag_length (iv c : bytes) : length (tag E iv c) = 16%nat.
Proof. unfold tag. now rewrite length_map, N_be_length. Qed.

Lemma seal_length (iv p : bytes) :
  length (seal E iv p) = (length p + 16)%nat.
Proof. unfold seal. now rewrite length_app, tag_length, crypt_length. Qed.

Lemma seal_split (iv p : bytes) :
  let n := (length (seal E iv p) - 16)%nat in
  firstn n (seal E iv p) = crypt E iv p
  /\ skipn n (seal E iv p) = tag E iv (crypt E iv p).
Proof.
  cbn zeta. rewrite seal_length, Nat.add_sub.
  rewrite <- (crypt_length iv p). unfold seal.
  now rewrite firstn_length_app, skipn_length_app.
Qed.

(** A sealed message opens to the message. *)
Lemma open_seal (iv p : bytes) :
  open E iv (crypt E iv p) (tag E iv (crypt E iv p)) = Some p.
Proof.
  unfold open. now rewrite bytes_eqb_refl, crypt_involutive.
Qed.

End WithCipher.
End GCMFacts.

(** ** The encryption service *)

Module EncryptionFacts.
Import Base64 TransportFacts GCMFacts.

Lemma load_key_length (environ : option str) (key : bytes) :
  _load_key environ = Ok key -> length key = 32%nat.
Proof.
  unfold _load_key. destruct environ as [[|c s]|]; try discriminate.
  destruct (Hex.fromhex (c :: s)) as [kb|]; cbn [bind]; [|discriminate].
  destruct (Nat.eqb (length kb) 32) eqn:E; cbn [negb]; [|discriminate].
  intros [= <-]. now apply Nat.eqb_eq.
Qed.

Lemma new_ok (key : bytes) : length key = 32%nat -> AESGCM.new key = Ok key.
Proof. intro H. unfold AESGCM.new. now rewrite H. Qed.

Lemma token_bytes_length (n : nat) (rnd : random) :
  length (fst (token_bytes n rnd)) = n.
Proof. cbn. now rewrite length_map, length_seq. Qed.

Lemma check_nonce_ok (nonce : bytes) :
  (8 <= length nonce <= 128)%nat -> AESGCM.check_nonce nonce = Ok tt.
Proof.
  intros [H1 H2]. unfold AESGCM.check_nonce.
  destruct (Nat.ltb_spec (length nonce) 8); [lia|].
  destruct (Nat.ltb_spec 128 (length nonce)); [lia|]. reflexivity.
Qed.

(** What [encrypt] returns when the key loads and the text encodes. *)
Lemma encrypt_ok (environ : option str) (key : bytes) (plaintext : str)
  (data : bytes) (rnd : random) :
  _load_key environ = Ok key ->
  Utf8.encode plaintext = Ok data ->
  let nonce := map rnd (seq 0 12) in
  let c := GCM.crypt (aes256 key) nonce data in
  encrypt environ plaintext rnd =
    (Ok {| ciphertext := b64text c;
           iv := b64text nonce;
           tag := b64text (GCM.tag (aes256 key) nonce c) |},
     fun i => rnd (12 + i)%nat).
Proof.
  intros Hkey Hdata nonce c. unfold encrypt.
  rewrite Hkey. cbn [bind].
  rewrite (new_ok key (load_key_length _ _ Hkey)).
  unfold token_bytes. fold nonce. rewrite Hdata. cbn [bind].
  unfold AESGCM.encrypt.
  rewrite check_nonce_ok
    by (unfold nonce; rewrite length_map, length_seq; lia).
  cbn [bind].
  destruct (seal_split (aes256 key) nonce data) as [Hc Ht].
  cbn zeta in Hc, Ht. rewrite Hc, Ht. fold c.
  rewrite !decode_b64encode. reflexivity.
Qed.

(** What [decrypt] does once the key has loaded and the three fields
    have decoded. *)
Lemma decrypt_decoded (environ : option str) (key : bytes)
  (c_b64 i_b64 t_b64 : str) (c nonce t : bytes) :
  _load_key environ = Ok key ->
  b64decode c_b64 = Ok c -> b64decode i_b64 = Ok nonce ->
  b64decode t_b64 = Ok t ->
  decrypt environ c_b64 i_b64 t_b64 =
    (plaintext_bytes <- AESGCM.decrypt key nonce (c ++ t) ;;
     Utf8.decode plaintext_bytes).
Proof.
  intros Hkey Hc Hi Ht. unfold decrypt.
  rewrite Hkey. cbn [bind].
  rewrite (new_ok key (load_key_length _ _ Hkey)). cbn [bind].
  now rewrite Hc, Hi, Ht.
Qed.

(** [AESGCM.decrypt] on a ciphertext followed by sixteen bytes. *)
Lemma aesgcm_decrypt_split (key nonce c t : bytes) :
  (8 <= length nonce <= 128)%nat -> length t = 16%nat ->
  AESGCM.decrypt key nonce (c ++ t) =
    match GCM.open (aes256 key) nonce c t with
    | Some p => Ok p
    | None => Raise InvalidTag
    end.
Proof.
  intros Hn Ht. unfold AESGCM.decrypt.
  rewrite check_nonce_ok by exact Hn. cbn [bind].
  rewrite length_app, Ht.
  destruct (Nat.ltb_spec (length c + 16) 16); [lia|].
  rewrite Nat.add_sub.
  now rewrite firstn_length_app, skipn_length_app.
Qed.

End EncryptionFacts.

(** ** Claims on encryption *)

Module EncryptionClaims.
Import Base64 TransportFacts GCMFacts EncryptionFacts Utf8Facts.

(** C1 (round trip).  With a valid key configured, [encrypt] turns any
    text of Unicode scalar values, the empty text included and
    whatever its length, into an envelope, and [decrypt] of the three
    fields of that envelope returns exactly that text. *)
Theorem C1_round_trip (environ : option str) (key : bytes)
  (plaintext : str) (rnd : random) :
  _load_key environ = Ok key ->
  Forall Utf8.scalar plaintext ->
  exists env,
    fst (encrypt environ plaintext rnd) = Ok env
    /\ decrypt environ (ciphertext env) (iv env) (tag env) = Ok plaintext.
Proof.
  intros Hkey Hs.
  destruct (encode_total plaintext Hs) as [data Hdata].
  rewrite (encrypt_ok _ _ _ _ rnd Hkey Hdata). cbn [fst].
  eexists. split; [reflexivity|]. cbn [ciphertext iv tag].
  rewrite (decrypt_decoded environ key _ _ _ _ _ _ Hkey
             (b64decode_b64encode _) (b64decode_b64encode _)
             (b64decode_b64encode _)).
  rewrite aesgcm_decrypt_split.
  - rewrite open_seal. cbn [bind]. now apply decode_encode.
  - rewrite length_map, length_seq. lia.
  - apply tag_length.
Qed.

Lemma C1_round_trip_witness :
  exists env,
    fst (encrypt Sample.environ (lit "hi") Sample.counting) = Ok env
    /\ decrypt Sample.environ (ciphertext env) (iv env) (tag env)
       = Ok (lit "hi").
Proof.
  apply (C1_round_trip Sample.environ Sample.key).
  - vm_compute. reflexivity.
  - repeat constructor.
Defined.

(** C10 (shape of the envelope).  The ciphertext field decodes to as
    many bytes as the UTF-8 encoding of the text has, the nonce field
    to twelve bytes and the tag field to sixteen: nothing is padded. *)
Theorem C10_envelope_lengths (environ : option str) (key : bytes)
  (plaintext : str) (data : bytes) (rnd : random) :
  _load_key environ = Ok key ->
  Utf8.encode plaintext = Ok data ->
  exists env c n t,
    fst (encrypt environ plaintext rnd) = Ok env
    /\ b64decode (ciphertext env) = Ok c /\ length c = length data
    /\ b64decode (iv env) = Ok n /\ length n = 12%nat
    /\ b64decode (tag env) = Ok t /\ length t = 16%nat.
Proof.
  intros Hkey Hdata.
  rewrite (encrypt_ok _ _ _ _ rnd Hkey Hdata). cbn [fst].
  do 4 eexists. split; [reflexivity|]. cbn [ciphertext iv tag].
  rewrite !b64decode_b64encode.
  repeat split. apply crypt_length.
Qed.

Lemma C10_envelope_lengths_witness :
  exists env c n t,
    fst (encrypt Sample.environ [104; 233; 8364] Sample.counting) = Ok env
    /\ b64decode (ciphertext env) = Ok c /\ length c = 6%nat
    /\ b64decode (iv env) = Ok n /\ length n = 12%nat
    /\ b64decode (tag env) = Ok t /\ length t = 16%nat.
Proof.
  apply (C10_envelope_lengths Sample.environ Sample.key [104; 233; 8364]
           (map byte_of_N [104; 195; 169; 226; 130; 172])).
  - vm_compute. reflexivity.
  - vm_compute. reflexivity.
Defined.

End EncryptionClaims.


(** ** Claims on the key and on the envelope received *)

Module KeyClaims.
Import EncryptionFacts.

Lemma emit_raises {A : Type} (a : A) (m : result (list A)) (e : exn) :
  emit a m = Raise e -> m = Raise e.
Proof. destruct m; cbn; congruence. Qed.

Lemma fromhex_raises (s : str) (e : exn) :
  Hex.fromhex s = Raise e -> e = ValueError.
Proof.
  assert (H : (forall e, Hex.fromhex s = Raise e -> e = ValueError)
              /\ (forall a e, Hex.fromhex (a :: s) = Raise e -> e = ValueError));
    [|now apply H].
  clear e. induction s as [|b s [IH1 IH2]].
  - split; [discriminate|]. intros a e. cbn [Hex.fromhex].
    destruct (Hex.is_space a); [discriminate|].
    destruct (Hex.digit_value a); congruence.
  - split; [apply IH2|]. intros a e. cbn [Hex.fromhex].
    destruct (Hex.is_space a); [apply IH2|].
    destruct (Hex.digit_value a); [|congruence].
    destruct (Hex.digit_value b); [|congruence].
    intro H. apply emit_raises in H. now apply IH1.
Qed.

(** The failure of [_load_key] is the outcome of both operations, ahead
    of anything else they do. *)
Lemma load_key_first (environ : option str) (e : exn) :
  _load_key environ = Raise e ->
  (forall plaintext rnd, encrypt environ plaintext rnd = (Raise e, rnd))
  /\ (forall c i t, decrypt environ c i t = Raise e).
Proof.
  intro H. split; intros; [unfold encrypt | unfold decrypt];
    now rewrite H.
Qed.

(** C5, as amended (key validation).  A key that is absent or empty, or
    whose decoded length is not 32 bytes, raises [RuntimeError]; one that
    is not valid hex raises [ValueError].  Either way the exception is
    the outcome of every call of [encrypt] and [decrypt], before any
    random byte is drawn, any field is decoded or the cipher is used:
    [decrypt_endpoint] answers 400 and [encrypt_endpoint] lets the
    exception escape, call after call. *)
Theorem C5_key_validation (environ : option str) :
  key_absent environ \/ key_not_hex environ \/ key_wrong_length environ ->
  exists e,
    _load_key environ = Raise e
    /\ (key_absent environ -> e = not_set)
    /\ (key_not_hex environ -> e = ValueError)
    /\ (key_wrong_length environ -> e = not_32_bytes)
    /\ (forall plaintext rnd, encrypt environ plaintext rnd = (Raise e, rnd))
    /\ (forall c i t, decrypt environ c i t = Raise e)
    /\ (forall req, decrypt_endpoint environ req = HTTPException 400)
    /\ (forall plaintext rnd, plaintext <> [] ->
          encrypt_endpoint environ plaintext rnd = (Unhandled e, rnd)).
Proof.
  intro Hdefect.
  assert (Hload : exists e, _load_key environ = Raise e
            /\ (key_absent environ -> e = not_set)
            /\ (key_not_hex environ -> e = ValueError)
            /\ (key_wrong_length environ -> e = not_32_bytes)
            /\ e <> InvalidTag).
  { destruct Hdefect as [[-> | ->] | [(s & e & -> & Hs & He)
                                    | (s & kb & -> & Hs & Hkb & Hlen)]].
    - exists not_set. repeat split; try reflexivity; try discriminate.
      + now intros (s & e & [=] & _).
      + now intros (s & kb & [=] & _).
    - exists not_set. repeat split; try reflexivity; try discriminate.
      + intros (s & e & [= <-] & Hs & _). now elim Hs.
      + intros (s & kb & [= <-] & Hs & _). now elim Hs.
    - exists ValueError.
      assert (_load_key (Some s) = Raise ValueError) as Hraise.
      { unfold _load_key. destruct s; [now elim Hs|].
        rewrite He, (fromhex_raises _ _ He). reflexivity. }
      repeat split; try reflexivity; try discriminate; try exact Hraise.
      + intros [[=] | [= ->]]. now elim Hs.
      + intros (s' & kb & [= <-] & _ & Hkb & _). congruence.
    - exists not_32_bytes.
      assert (_load_key (Some s) = Raise not_32_bytes) as Hraise.
      { unfold _load_key. destruct s; [now elim Hs|].
        rewrite Hkb. cbn [bind].
        destruct (Nat.eqb_spec (length kb) 32); [contradiction|].
        reflexivity. }
      repeat split; try reflexivity; try discriminate; try exact Hraise.
      + intros [[=] | [= ->]]. now elim Hs.
      + intros (s' & e & [= <-] & _ & He). congruence. }
  destruct Hload as (e & Hraise & Ha & Hh & Hl & Htag).
  destruct (load_key_first environ e Hraise) as [Henc Hdec].
  exists e. repeat split; try assumption.
  - intro req. unfold decrypt_endpoint. rewrite Hdec.
    destruct e; try reflexivity. now elim Htag.
  - intros plaintext rnd Hne. unfold encrypt_endpoint.
    destruct plaintext; [now elim Hne|]. now rewrite Henc.
Qed.

Lemma C5_key_validation_witness :
  exists e,
    _load_key (Some (lit "zz")) = Raise e
    /\ (key_absent (Some (lit "zz")) -> e = not_set)
    /\ (key_not_hex (Some (lit "zz")) -> e = ValueError)
    /\ (key_wrong_length (Some (lit "zz")) -> e = not_32_bytes)
    /\ (forall plaintext rnd,
          encrypt (Some (lit "zz")) plaintext rnd = (Raise e, rnd))
    /\ (forall c i t, decrypt (Some (lit "zz")) c i t = Raise e)
    /\ (forall req, decrypt_endpoint (Some (lit "zz")) req = HTTPException 400)
    /\ (forall plaintext rnd, plaintext <> [] ->
          encrypt_endpoint (Some (lit "zz")) plaintext rnd = (Unhandled e, rnd)).
Proof.
  apply (C5_key_validation (Some (lit "zz"))).
  right. left. exists (lit "zz"), ValueError.
  split; [reflexivity | split; [discriminate | reflexivity]].
Defined.

(** A key that is not hex raises [ValueError] where an absent one raises
    [RuntimeError]; and with no key at all the service starts, and the
    failure is the answer to a request. *)
Lemma C5_counterexample :
  _load_key (Some (lit "zz")) = Raise ValueError
  /\ _load_key None = Raise not_set
  /\ lifespan_startup None = Ok tt
  /\ decrypt_endpoint None
       {| ciphertext := lit "4KI="; iv := lit "AAECAwQFBgcICQoL";
          tag := lit "5VyUdW6uAOeNWe5clzaOUQ==" |} = HTTPException 400.
Proof. repeat split. Qed.

End KeyClaims.

Module EnvelopeClaims.
Import Base64 EncryptionFacts KeyClaims.

Lemma a2b_loop_raises (data : list N) (q l p : N) (e : exn) :
  a2b_loop data q l p = Raise e -> e = BinasciiError.
Proof.
  revert q l p. induction data as [|c data IH]; intros q l p; cbn [a2b_loop].
  - destruct (q =? 0); congruence.
  - repeat match goal with
    | |- context [if ?b then _ else _] => destruct b
    | |- context [match a2b ?c with _ => _ end] => destruct (a2b c)
    end; try discriminate; try apply IH;
      intro H; apply emit_raises in H; revert H; apply IH.
Qed.

Lemma b64decode_raises (s : str) (e : exn) :
  b64decode s = Raise e -> e = BinasciiError \/ e = ValueError.
Proof.
  unfold b64decode. destruct (forallb _ s).
  - intro H. left. eapply a2b_loop_raises, H.
  - intros [= <-]. now right.
Qed.

Lemma decrypt_undecodable (environ : option str) (key : bytes)
  (c_b64 i_b64 t_b64 : str) (e : exn) :
  _load_key environ = Ok key ->
  undecodable c_b64 i_b64 t_b64 e ->
  (e = BinasciiError \/ e = ValueError)
  /\ decrypt environ c_b64 i_b64 t_b64 = Raise e.
Proof.
  intros Hkey Hbad. unfold decrypt. rewrite Hkey. cbn [bind].
  rewrite (new_ok key (load_key_length _ _ Hkey)). cbn [bind].
  destruct Hbad as [Hc | [(c & Hc & Hi) | (c & n & Hc & Hi & Ht)]].
  - rewrite Hc. split; [eapply b64decode_raises, Hc | reflexivity].
  - rewrite Hc, Hi. split; [eapply b64decode_raises, Hi | reflexivity].
  - rewrite Hc, Hi, Ht. split; [eapply b64decode_raises, Ht | reflexivity].
Qed.

(** C9, as amended (what [decrypt] checks of the envelope).  With a
    valid key: a field that is not valid base64 makes [decrypt] fail
    with the decoding error ([binascii.Error] or [ValueError], answered
    400 and not the 422 of [InvalidTag]) and no text is returned; a
    nonce of fewer than 8 or more than 128 bytes fails with
    [ValueError], answered 400; no length of tag or ciphertext is
    checked on its own: fewer than sixteen bytes in all fail with
    [InvalidTag], and otherwise the outcome depends on the two fields
    only through the ciphertext followed by the tag. *)
Theorem C9_envelope_checks (environ : option str) (key : bytes)
  (c_b64 i_b64 t_b64 : str) :
  _load_key environ = Ok key ->
  let req := {| ciphertext := c_b64; iv := i_b64; tag := t_b64 |} in
  (forall e, undecodable c_b64 i_b64 t_b64 e ->
     (e = BinasciiError \/ e = ValueError)
     /\ decrypt environ c_b64 i_b64 t_b64 = Raise e
     /\ decrypt_endpoint environ req = HTTPException 400)
  /\ (forall c n t,
        b64decode c_b64 = Ok c -> b64decode i_b64 = Ok n ->
        b64decode t_b64 = Ok t ->
        ((length n < 8 \/ 128 < length n)%nat ->
           decrypt environ c_b64 i_b64 t_b64 = Raise ValueError
           /\ decrypt_endpoint environ req = HTTPException 400)
        /\ ((8 <= length n <= 128)%nat ->
            (length c + length t < 16)%nat ->
              decrypt environ c_b64 i_b64 t_b64 = Raise InvalidTag
              /\ decrypt_endpoint environ req = HTTPException 422)
        /\ (forall c_b64' t_b64' c' t',
              b64decode c_b64' = Ok c' -> b64decode t_b64' = Ok t' ->
              c' ++ t' = c ++ t ->
              decrypt environ c_b64' i_b64 t_b64'
              = decrypt environ c_b64 i_b64 t_b64)).
Proof.
  intros Hkey req. split.
  - intros e Hbad.
    destruct (decrypt_undecodable _ _ _ _ _ _ Hkey Hbad) as [Hkind Hdec].
    repeat split; try assumption.
    unfold decrypt_endpoint, req. cbn [ciphertext iv tag]. rewrite Hdec.
    now destruct Hkind as [-> | ->].
  - intros c n t Hc Hi Ht.
    pose proof (decrypt_decoded _ _ _ _ _ _ _ _ Hkey Hc Hi Ht) as Hdec.
    repeat split.
    + rewrite Hdec. unfold AESGCM.decrypt, AESGCM.check_nonce.
      destruct (Nat.ltb_spec (length n) 8);
        destruct (Nat.ltb_spec 128 (length n)); try lia; reflexivity.
    + unfold decrypt_endpoint, req. cbn [ciphertext iv tag].
      rewrite Hdec. unfold AESGCM.decrypt, AESGCM.check_nonce.
      destruct (Nat.ltb_spec (length n) 8);
        destruct (Nat.ltb_spec 128 (length n)); try lia; reflexivity.
    + rewrite Hdec. unfold AESGCM.decrypt.
      rewrite check_nonce_ok by assumption. cbn [bind].
      rewrite length_app.
      destruct (Nat.ltb_spec (length c + length t) 16); [reflexivity | lia].
    + unfold decrypt_endpoint, req. cbn [ciphertext iv tag].
      rewrite Hdec. unfold AESGCM.decrypt.
      rewrite check_nonce_ok by assumption. cbn [bind].
      rewrite length_app.
      destruct (Nat.ltb_spec (length c + length t) 16); [reflexivity | lia].
    + intros c_b64' t_b64' c' t' Hc' Ht' Heq.
      rewrite Hdec.
      rewrite (decrypt_decoded _ _ _ _ _ _ _ _ Hkey Hc' Hi Ht').
      now rewrite Heq.
Qed.

Lemma C9_envelope_checks_witness :
  let environ := Sample.environ in
  let c_b64 := lit "4KI=" in
  let i_b64 := lit "AAECAwQFBgcICQoL" in
  let t_b64 := lit "5VyUdW6uAOeNWe5clzaOUQ==" in
  let req := {| ciphertext := c_b64; iv := i_b64; tag := t_b64 |} in
  (forall e, undecodable c_b64 i_b64 t_b64 e ->
     (e = BinasciiError \/ e = ValueError)
     /\ decrypt environ c_b64 i_b64 t_b64 = Raise e
     /\ decrypt_endpoint environ req = HTTPException 400)
  /\ (forall c n t,
        b64decode c_b64 = Ok c -> b64decode i_b64 = Ok n ->
        b64decode t_b64 = Ok t ->
        ((length n < 8 \/ 128 < length n)%nat ->
           decrypt environ c_b64 i_b64 t_b64 = Raise ValueError
           /\ decrypt_endpoint environ req = HTTPException 400)
        /\ ((8 <= length n <= 128)%nat ->
            (length c + length t < 16)%nat ->
              decrypt environ c_b64 i_b64 t_b64 = Raise InvalidTag
              /\ decrypt_endpoint environ req = HTTPException 422)
        /\ (forall c_b64' t_b64' c' t',
              b64decode c_b64' = Ok c' -> b64decode t_b64' = Ok t' ->
              c' ++ t' = c ++ t ->
              decrypt environ c_b64' i_b64 t_b64'
              = decrypt environ c_b64 i_b64 t_b64)).
Proof.
  apply (C9_envelope_checks Sample.environ Sample.key).
  vm_compute. reflexivity.
Defined.

(** One byte of the ciphertext moved in front of the tag: the tag
    field decodes to seventeen bytes and [decrypt] returns the text.
    And a nonce of eight bytes is answered 422, as a tag that does not
    verify. *)
Lemma C9_counterexample :
  option_map (@length byte)
    (match b64decode (lit "ouVclHVurgDnjVnuXJc2jlE=") with
     | Ok t => Some t
     | Raise _ => None
     end) = Some 17%nat
  /\ decrypt Sample.environ (lit "4A==") (lit "AAECAwQFBgcICQoL")
       (lit "ouVclHVurgDnjVnuXJc2jlE=") = Ok (lit "hi")
  /\ decrypt_endpoint Sample.environ
       {| ciphertext := lit "4KI="; iv := lit "AAECAwQFBgc=";
          tag := lit "5VyUdW6uAOeNWe5clzaOUQ==" |} = HTTPException 422.
Proof. repeat split; vm_compute; reflexivity. Qed.

End EnvelopeClaims.

(** ** The breach check *)

Module BreachFacts.
Import Breach.

Section WithLibraries.
Variable U : unicode.
Variable sha1 : bytes -> N.

Lemma hex_char_lower (v : N) :
  v < 16 -> 48 <= hex_char v <= 57 \/ 97 <= hex_char v <= 102.
Proof.
  intro Hv. unfold hex_char. destruct (N.ltb_spec v 10); lia.
Qed.

Lemma upper_char_hex (v : N) :
  v < 16 ->
  exists c, Py.upper_char U (hex_char v) = [c] /\ is_upper_hex c.
Proof.
  intro Hv. unfold Py.upper_char, is_upper_hex.
  destruct (hex_char_lower v Hv) as [H | H].
  - exists (hex_char v).
    destruct (N.ltb_spec (hex_char v) 128); [|lia].
    destruct (N.leb_spec 97 (hex_char v)); [lia|]. cbn [andb].
    split; [reflexivity | lia].
  - exists (hex_char v - 32).
    destruct (N.ltb_spec (hex_char v) 128); [|lia].
    destruct (N.leb_spec 97 (hex_char v)); [|lia].
    destruct (N.leb_spec (hex_char v) 122); [|lia]. cbn [andb].
    split; [reflexivity | lia].
Qed.

Lemma upper_hex_digits (k : nat) (x : N) :
  length (Py.upper U (hex_digits k x)) = k
  /\ Forall is_upper_hex (Py.upper U (hex_digits k x)).
Proof.
  induction k as [|k [IHlen IHall]]; [split; [reflexivity | constructor]|].
  cbn [hex_digits]. unfold Py.upper in *. cbn [flat_map].
  destruct (upper_char_hex (x / 16 ^ N.of_nat k mod 16)) as (c & -> & Hc).
  { apply N.mod_upper_bound. lia. }
  cbn [app length]. split; [now rewrite IHlen | now constructor].
Qed.

(** The digest is forty characters, digits and the letters A to F. *)
Lemma digest_shape (password sha1_hash : str) :
  digest U sha1 password = Ok sha1_hash ->
  length sha1_hash = 40%nat /\ Forall is_upper_hex sha1_hash.
Proof.
  unfold digest. destruct (Utf8.encode password); cbn [bind]; [|discriminate].
  intro H. apply Ok_inj in H. subst sha1_hash. apply upper_hex_digits.
Qed.

(** [check_password_breach] after the digest: one request, the status,
    the scan. *)
Lemma check_steps (net : request -> outcome) (password sha1_hash : str) :
  digest U sha1 password = Ok sha1_hash ->
  check_password_breach U sha1 net password =
    (response <- client_get net (range_request (prefix_of sha1_hash)) ;;
     _ <- raise_for_status response ;;
     search U (suffix_of sha1_hash) (Py.splitlines (snd response))).
Proof. intro H. unfold check_password_breach. now rewrite H. Qed.

Lemma check_scans (net : request -> outcome) (password sha1_hash : str)
  (status_code : N) (text : str) :
  digest U sha1 password = Ok sha1_hash ->
  net (range_request (prefix_of sha1_hash)) = Response status_code text ->
  is_success status_code ->
  check_password_breach U sha1 net password =
    search U (suffix_of sha1_hash) (Py.splitlines text).
Proof.
  intros Hd Hnet [Hlo Hhi]. rewrite (check_steps _ _ _ Hd).
  unfold client_get. rewrite Hnet. cbn [bind].
  unfold raise_for_status. cbn [fst snd].
  apply N.leb_le in Hlo. apply N.ltb_lt in Hhi. now rewrite Hlo, Hhi.
Qed.

Lemma search_passed_over (suffix line : str) (rest : list str) :
  passed_over U suffix line ->
  search U suffix (line :: rest) = search U suffix rest.
Proof.
  intros (s & c & Hsplit & Hne). cbn [search]. rewrite Hsplit.
  destruct (str_eqb (Py.upper U s) suffix) eqn:E; [|reflexivity].
  apply str_eqb_eq in E. contradiction.
Qed.

Lemma search_match (suffix line s c : str) (rest : list str) :
  Py.split 58 line = [s; c] -> Py.upper U s = suffix ->
  search U suffix (line :: rest) = (n <- Py.int U c ;; Ok (true, n)).
Proof.
  intros Hsplit Heq. cbn [search]. rewrite Hsplit.
  apply str_eqb_eq in Heq. now rewrite Heq.
Qed.

Lemma search_malformed (suffix line : str) (rest : list str) :
  (forall s c, Py.split 58 line <> [s; c]) ->
  search U suffix (line :: rest) = Raise ValueError.
Proof.
  intro H. cbn [search].
  destruct (Py.split 58 line) as [|s [|c [|x l]]]; try reflexivity.
  now elim (H s c).
Qed.

Lemma search_first_match (suffix : str) (before : list str) (line s c : str)
  (after : list str) :
  Forall (passed_over U suffix) before ->
  Py.split 58 line = [s; c] -> Py.upper U s = suffix ->
  search U suffix (before ++ line :: after) = (n <- Py.int U c ;; Ok (true, n)).
Proof.
  intros Hbefore Hsplit Heq.
  induction Hbefore as [|l before Hl _ IH]; cbn [app].
  - now apply (search_match suffix line s c).
  - now rewrite search_passed_over.
Qed.

Lemma search_no_match (suffix : str) (lines : list str) :
  Forall (passed_over U suffix) lines ->
  search U suffix lines = Ok (false, 0%Z).
Proof.
  induction 1 as [|l lines Hl _ IH]; [reflexivity|].
  now rewrite search_passed_over.
Qed.

End WithLibraries.

(** A text that is all digits and letters A to F cannot lie across a
    place of [hay] that holds another character. *)
Lemma hex_not_across (needle hay : str) (k : nat) :
  contains needle hay -> Forall is_upper_hex needle ->
  ~ is_upper_hex (nth k hay 0) ->
  (length hay - length needle <= k < length needle)%nat ->
  False.
Proof.
  intros (before & after & ->) Hhex Hk Hrange.
  rewrite !length_app in Hrange.
  apply Hk. rewrite app_nth2 by lia. rewrite app_nth1 by lia.
  rewrite Forall_forall in Hhex. apply Hhex, nth_In. lia.
Qed.

Lemma contains_length (needle hay : str) :
  contains needle hay -> (length needle <= length hay)%nat.
Proof. intros (b & a & ->). rewrite !length_app. lia. Qed.

End BreachFacts.

(** ** Claims on the breach check *)

Module BreachClaims.
Import Breach BreachFacts.

Lemma outbound_request_inv (U : unicode) (sha1 : bytes -> N)
  (password : str) (req : request) :
  outbound_request U sha1 password = Ok req ->
  exists sha1_hash,
    digest U sha1 password = Ok sha1_hash
    /\ req = range_request (prefix_of sha1_hash).
Proof.
  unfold outbound_request.
  destruct (digest U sha1 password) as [h|]; cbn [bind]; [|discriminate].
  intro H. apply Ok_inj in H. now exists h.
Qed.

Lemma request_texts_range (p : str) :
  request_texts (range_request p) =
    [HIBP_API_URL ++ lit "/" ++ p; lit "Add-Padding"; lit "true";
     lit "User-Agent"; lit "SecureVault/1.0"].
Proof. reflexivity. Qed.

(** A long text of digits and letters A to F occurs nowhere in a range
    request: the address is too short to hold it after its seventh
    character, a slash, and the headers are shorter than it. *)
Lemma hex_not_in_request (needle p t : str) :
  Forall is_upper_hex needle ->
  (30 + length p <= length needle)%nat ->
  In t (request_texts (range_request p)) ->
  ~ contains needle t.
Proof.
  intros Hhex Hlen Hin Hc.
  pose proof (contains_length _ _ Hc) as Hle.
  rewrite request_texts_range in Hin. cbn [In] in Hin.
  destruct Hin as [<- | [<- | [<- | [<- | [<- | []]]]]];
    try (cbn in Hle; lia).
  apply (hex_not_across _ _ 7 Hc Hhex).
  - change (nth 7 (HIBP_API_URL ++ lit "/" ++ p) 0) with 47.
    unfold is_upper_hex. lia.
  - rewrite !length_app. change (length HIBP_API_URL) with 36%nat.
    change (length (lit "/")) with 1%nat. lia.
Qed.

(** C3 (anonymity).  The request that [check] sends is the fixed address
    followed by the first five characters of the digest, with two fixed
    headers; neither the digest nor its last thirty-five characters occur
    in any text of the request; the remote service is asked nothing
    else; and two passwords whose digests start with the same five
    characters give the same request. *)
Theorem C3_anonymity (U : unicode) (sha1 : bytes -> N) (password : str)
  (req : request) :
  outbound_request U sha1 password = Ok req ->
  exists sha1_hash,
    digest U sha1 password = Ok sha1_hash
    /\ length sha1_hash = 40%nat
    /\ req = range_request (firstn 5 sha1_hash)
    /\ (forall t, In t (request_texts req) ->
          ~ contains sha1_hash t /\ ~ contains (skipn 5 sha1_hash) t)
    /\ (forall net net', net req = net' req ->
          check_password_breach U sha1 net password
          = check_password_breach U sha1 net' password)
    /\ (forall password' sha1_hash',
          digest U sha1 password' = Ok sha1_hash' ->
          firstn 5 sha1_hash' = firstn 5 sha1_hash ->
          outbound_request U sha1 password' = Ok req).
Proof.
  intro Hreq.
  destruct (outbound_request_inv _ _ _ _ Hreq) as (h & Hd & ->).
  destruct (digest_shape _ _ _ _ Hd) as [Hlen Hhex].
  assert (Hplen : length (prefix_of h) = 5%nat)
    by (unfold prefix_of; rewrite length_firstn; lia).
  exists h. split; [assumption|]. split; [assumption|].
  split; [reflexivity|]. split; [|split].
  - intros t Hin. split.
    + apply (hex_not_in_request h (prefix_of h)); try assumption. lia.
    + apply (hex_not_in_request (skipn 5 h) (prefix_of h)); try assumption.
      * rewrite <- (firstn_skipn 5 h) in Hhex.
        now apply Forall_app in Hhex.
      * rewrite length_skipn. lia.
  - intros net net' Hnet. rewrite !(check_steps _ _ _ _ _ Hd).
    unfold client_get. now rewrite Hnet.
  - intros password' h' Hd' Hprefix. unfold outbound_request.
    rewrite Hd'. cbn [bind]. unfold prefix_of. now rewrite Hprefix.
Qed.

Lemma C3_anonymity_witness :
  exists sha1_hash,
    digest ascii_only SHA1.sha1 (lit "password") = Ok sha1_hash
    /\ length sha1_hash = 40%nat
    /\ range_request (lit "5BAA6") = range_request (firstn 5 sha1_hash)
    /\ (forall t, In t (request_texts (range_request (lit "5BAA6"))) ->
          ~ contains sha1_hash t /\ ~ contains (skipn 5 sha1_hash) t)
    /\ (forall net net',
          net (range_request (lit "5BAA6")) = net' (range_request (lit "5BAA6")) ->
          check_password_breach ascii_only SHA1.sha1 net (lit "password")
          = check_password_breach ascii_only SHA1.sha1 net' (lit "password"))
    /\ (forall password' sha1_hash',
          digest ascii_only SHA1.sha1 password' = Ok sha1_hash' ->
          firstn 5 sha1_hash' = firstn 5 sha1_hash ->
          outbound_request ascii_only SHA1.sha1 password'
          = Ok (range_request (lit "5BAA6"))).
Proof.
  apply (C3_anonymity ascii_only SHA1.sha1 (lit "password")
           (range_request (lit "5BAA6"))).
  vm_compute. reflexivity.
Defined.

(** C4 (unavailability).  When the request times out, cannot connect or
    is answered with a status outside 2xx, [check] raises the matching
    exception and returns no result, and the endpoint answers 503. *)
Theorem C4_unavailable (U : unicode) (sha1 : bytes -> N)
  (net : request -> outcome) (password : str) (req : request) :
  outbound_request U sha1 password = Ok req ->
  net req = TimedOut \/ net req = ConnectFailed
  \/ (exists status_code text,
        net req = Response status_code text /\ ~ is_success status_code) ->
  exists e,
    check_password_breach U sha1 net password = Raise e
    /\ (net req = TimedOut -> e = TimeoutException)
    /\ (net req = ConnectFailed -> e = ConnectError)
    /\ (forall status_code text,
          net req = Response status_code text -> e = HTTPStatusError status_code)
    /\ breach_check U sha1 net password = HTTPException 503.
Proof.
  intros Hreq Hfail.
  destruct (outbound_request_inv _ _ _ _ Hreq) as (h & Hd & ->).
  unfold breach_check. rewrite (check_steps _ _ _ _ _ Hd). unfold client_get.
  destruct Hfail as [Hnet | [Hnet | (s & t & Hnet & Hs)]]; rewrite Hnet;
    cbn [bind].
  - exists TimeoutException. repeat split; congruence.
  - exists ConnectError. repeat split; congruence.
  - exists (HTTPStatusError s). unfold raise_for_status. cbn [fst].
    destruct (N.leb_spec 200 s); destruct (N.ltb_spec s 300);
      cbn [andb bind]; try (elim Hs; split; assumption);
      repeat split; congruence.
Qed.

Lemma C4_unavailable_witness :
  exists e,
    check_password_breach ascii_only SHA1.sha1
      (Sample.always (Response 404 [])) (lit "password") = Raise e
    /\ (Sample.always (Response 404 []) (range_request (lit "5BAA6")) = TimedOut
        -> e = TimeoutException)
    /\ (Sample.always (Response 404 []) (range_request (lit "5BAA6"))
        = ConnectFailed -> e = ConnectError)
    /\ (forall status_code text,
          Sample.always (Response 404 []) (range_request (lit "5BAA6"))
          = Response status_code text -> e = HTTPStatusError status_code)
    /\ breach_check ascii_only SHA1.sha1
         (Sample.always (Response 404 [])) (lit "password")
       = HTTPException 503.
Proof.
  apply (C4_unavailable ascii_only SHA1.sha1 (Sample.always (Response 404 []))
           (lit "password") (range_request (lit "5BAA6"))).
  - vm_compute. reflexivity.
  - right. right. exists 404, []. split; [reflexivity|].
    unfold is_success. lia.
Defined.

(** C6, as amended (lines that are not SUFFIX:COUNT).  With a 2xx
    answer, [check] is the scan of the lines of the body, in order.  A
    line that [split(":")] does not cut in exactly two makes the scan,
    and so [check], fail with [ValueError] when it is reached; a line of
    two fields whose suffix is not the one looked for is passed over
    whatever its count is; the count is read on the matching line only,
    and what [int] raises there is raised by [check]; the endpoint
    answers 503 to any failure. *)
Theorem C6_malformed_lines (U : unicode) (sha1 : bytes -> N)
  (net : request -> outcome) (password sha1_hash : str)
  (status_code : N) (text : str) :
  digest U sha1 password = Ok sha1_hash ->
  net (range_request (prefix_of sha1_hash)) = Response status_code text ->
  is_success status_code ->
  let suffix := suffix_of sha1_hash in
  check_password_breach U sha1 net password
  = search U suffix (Py.splitlines text)
  /\ (forall line rest,
        (forall s c, Py.split 58 line <> [s; c]) ->
        search U suffix (line :: rest) = Raise ValueError)
  /\ (forall line rest s c,
        Py.split 58 line = [s; c] -> Py.upper U s <> suffix ->
        search U suffix (line :: rest) = search U suffix rest)
  /\ (forall line rest s c,
        Py.split 58 line = [s; c] -> Py.upper U s = suffix ->
        search U suffix (line :: rest) = (n <- Py.int U c ;; Ok (true, n)))
  /\ (forall e, check_password_breach U sha1 net password = Raise e ->
        breach_check U sha1 net password = HTTPException 503).
Proof.
  intros Hd Hnet Hs suffix. split; [now apply (check_scans _ _ _ _ _ status_code)|].
  split; [intros; now apply search_malformed|].
  split; [intros line rest s c Hsp Hne; apply search_passed_over; now exists s, c|].
  split; [intros line rest s c Hsp Heq; now apply (search_match _ _ _ s c)|].
  intros e He. unfold breach_check. now rewrite He.
Qed.

Lemma C6_malformed_lines_witness :
  let U := ascii_only in
  let net := Sample.always (Response 200 Sample.garbage_then_match) in
  let suffix := suffix_of (lit "5BAA61E4C9B93F3F0682250B6CF8331B7EE68FD8") in
  check_password_breach U SHA1.sha1 net (lit "password")
  = search U suffix (Py.splitlines Sample.garbage_then_match)
  /\ (forall line rest,
        (forall s c, Py.split 58 line <> [s; c]) ->
        search U suffix (line :: rest) = Raise ValueError)
  /\ (forall line rest s c,
        Py.split 58 line = [s; c] -> Py.upper U s <> suffix ->
        search U suffix (line :: rest) = search U suffix rest)
  /\ (forall line rest s c,
        Py.split 58 line = [s; c] -> Py.upper U s = suffix ->
        search U suffix (line :: rest) = (n <- Py.int U c ;; Ok (true, n)))
  /\ (forall e, check_password_breach U SHA1.sha1 net (lit "password") = Raise e ->
        breach_check U SHA1.sha1 net (lit "password") = HTTPException 503).
Proof.
  apply (C6_malformed_lines ascii_only SHA1.sha1
           (Sample.always (Response 200 Sample.garbage_then_match))
           (lit "password") (lit "5BAA61E4C9B93F3F0682250B6CF8331B7EE68FD8")
           200 Sample.garbage_then_match).
  - vm_compute. reflexivity.
  - reflexivity.
  - unfold is_success. lia.
Defined.

(** The password "password": a line without separator ahead of the
    matching line, and a matching line whose count is no number, each
    make [check] fail, and the endpoint answer 503. *)
Lemma C6_counterexample :
  check_password_breach ascii_only SHA1.sha1
    (Sample.always (Response 200 Sample.garbage_then_match)) (lit "password")
  = Raise ValueError
  /\ breach_check ascii_only SHA1.sha1
       (Sample.always (Response 200 Sample.garbage_then_match)) (lit "password")
     = HTTPException 503
  /\ check_password_breach ascii_only SHA1.sha1
       (Sample.always (Response 200 Sample.match_without_count)) (lit "password")
     = Raise ValueError.
Proof. repeat split; vm_compute; reflexivity. Qed.

(** C7 (breach matching).  With a 2xx answer: when the lines before the
    first line whose suffix, in upper case, is the suffix of the digest
    are SUFFIX:COUNT lines with other suffixes, [check] returns
    [(true, n)], [n] being the count of that line; when every line is a
    SUFFIX:COUNT line with another suffix, it returns [(false, 0)].  For
    the two records of the specification, a password whose suffix is the
    first record gets [(true, 3)], and one whose suffix is neither gets
    [(false, 0)]. *)
Theorem C7_breach_matching (U : unicode) (sha1 : bytes -> N)
  (net : request -> outcome) (password sha1_hash : str)
  (status_code : N) (text : str) :
  digest U sha1 password = Ok sha1_hash ->
  net (range_request (prefix_of sha1_hash)) = Response status_code text ->
  is_success status_code ->
  let suffix := suffix_of sha1_hash in
  (forall before line after s c n,
     Py.splitlines text = before ++ line :: after ->
     Forall (passed_over U suffix) before ->
     Py.split 58 line = [s; c] -> Py.upper U s = suffix ->
     Py.int U c = Ok n ->
     check_password_breach U sha1 net password = Ok (true, n)
     /\ breach_check U sha1 net password
        = Reply {| breached := true; count := n |})
  /\ (Forall (passed_over U suffix) (Py.splitlines text) ->
      check_password_breach U sha1 net password = Ok (false, 0%Z)
      /\ breach_check U sha1 net password
         = Reply {| breached := false; count := 0 |})
  /\ (text = Sample.two_records ->
      (suffix = lit "AAAAAAAAAAAAAAAAAAAAAAAAAAAAAAAAAAA" ->
         check_password_breach U sha1 net password = Ok (true, 3%Z))
      /\ (suffix <> lit "AAAAAAAAAAAAAAAAAAAAAAAAAAAAAAAAAAA" ->
          suffix <> lit "BBBBBBBBBBBBBBBBBBBBBBBBBBBBBBBBBBB" ->
          check_password_breach U sha1 net password = Ok (false, 0%Z))).
Proof.
  intros Hd Hnet Hs suffix.
  pose proof (check_scans U sha1 net _ _ _ _ Hd Hnet Hs) as Hcheck.
  fold suffix in Hcheck.
  split; [|split].
  - intros before line after s c n Hlines Hbefore Hsplit Heq Hint.
    assert (check_password_breach U sha1 net password = Ok (true, n)) as H.
    { rewrite Hcheck, Hlines.
      rewrite (search_first_match U suffix before line s c after)
        by assumption.
      now rewrite Hint. }
    split; [exact H|]. unfold breach_check. now rewrite H.
  - intro Hall.
    assert (check_password_breach U sha1 net password = Ok (false, 0%Z)) as H.
    { rewrite Hcheck. now apply search_no_match. }
    split; [exact H|]. unfold breach_check. now rewrite H.
  - intros ->. rewrite Hcheck.
    change (Py.splitlines Sample.two_records)
      with [lit "AAAAAAAAAAAAAAAAAAAAAAAAAAAAAAAAAAA:3";
            lit "BBBBBBBBBBBBBBBBBBBBBBBBBBBBBBBBBBB:10"].
    split.
    + intros ->. reflexivity.
    + intros HA HB.
      apply search_no_match. repeat constructor.
      * exists (lit "AAAAAAAAAAAAAAAAAAAAAAAAAAAAAAAAAAA"), (lit "3").
        split; [reflexivity|].
        intro Heq. apply HA. rewrite <- Heq. reflexivity.
      * exists (lit "BBBBBBBBBBBBBBBBBBBBBBBBBBBBBBBBBBB"), (lit "10").
        split; [reflexivity|].
        intro Heq. apply HB. rewrite <- Heq. reflexivity.
Qed.

Lemma C7_breach_matching_witness :
  let U := ascii_only in
  let sha1 := Sample.digest_all_A in
  let net := Sample.always (Response 200 Sample.two_records) in
  let password := lit "x" in
  let text := Sample.two_records in
  let suffix := suffix_of (lit "AAAAAAAAAAAAAAAAAAAAAAAAAAAAAAAAAAAAAAAA") in
  (forall before line after s c n,
     Py.splitlines text = before ++ line :: after ->
     Forall (passed_over U suffix) before ->
     Py.split 58 line = [s; c] -> Py.upper U s = suffix ->
     Py.int U c = Ok n ->
     check_password_breach U sha1 net password = Ok (true, n)
     /\ breach_check U sha1 net password
        = Reply {| breached := true; count := n |})
  /\ (Forall (passed_over U suffix) (Py.splitlines text) ->
      check_password_breach U sha1 net password = Ok (false, 0%Z)
      /\ breach_check U sha1 net password
         = Reply {| breached := false; count := 0 |})
  /\ (text = Sample.two_records ->
      (suffix = lit "AAAAAAAAAAAAAAAAAAAAAAAAAAAAAAAAAAA" ->
         check_password_breach U sha1 net password = Ok (true, 3%Z))
      /\ (suffix <> lit "AAAAAAAAAAAAAAAAAAAAAAAAAAAAAAAAAAA" ->
          suffix <> lit "BBBBBBBBBBBBBBBBBBBBBBBBBBBBBBBBBBB" ->
          check_password_breach U sha1 net password = Ok (false, 0%Z))).
Proof.
  apply (C7_breach_matching ascii_only Sample.digest_all_A
           (Sample.always (Response 200 Sample.two_records)) (lit "x")
           (lit "AAAAAAAAAAAAAAAAAAAAAAAAAAAAAAAAAAAAAAAA") 200
           Sample.two_records).
  - vm_compute. reflexivity.
  - reflexivity.
  - unfold is_success. lia.
Defined.

End BreachClaims.

(** ** AES-256 is a permutation of the blocks *)

Module AESFacts.
Import AES.

Lemma lxor_lt_pow2 (a b n : N) : a < 2 ^ n -> b < 2 ^ n -> N.lxor a b < 2 ^ n.
Proof.
  intros Ha Hb.
  destruct (N.eq_dec n 0) as [-> | Hn].
  { cbn in *. assert (a = 0) by lia. assert (b = 0) by lia. now subst. }
  assert (Hlog : forall x, x < 2 ^ n -> N.log2 x < n).
  { intros x Hx. destruct (N.eq_dec x 0) as [-> | Hx0]; [cbn; lia|].
    apply N.log2_lt_pow2; [lia | exact Hx]. }
  destruct (N.eq_dec (N.lxor a b) 0) as [-> | H0].
  - apply N.neq_0_lt_0. now apply N.pow_nonzero.
  - apply N.log2_lt_pow2; [lia|].
    pose proof (N.log2_lxor a b). pose proof (Hlog a Ha). pose proof (Hlog b Hb).
    lia.
Qed.

Lemma lxor_byte (a b : N) : a < 256 -> b < 256 -> N.lxor a b < 256.
Proof. apply (lxor_lt_pow2 a b 8). Qed.

Lemma lxor_cancel_r (a b k : N) : N.lxor a k = N.lxor b k -> a = b.
Proof.
  intro H. apply (f_equal (fun x => N.lxor x k)) in H.
  now rewrite !N.lxor_assoc, N.lxor_nilpotent, !N.lxor_0_r in H.
Qed.

Lemma nth_Forall {A : Type} (P : A -> Prop) (l : list A) (d : A) (n : nat) :
  Forall P l -> P d -> P (nth n l d).
Proof.
  intros Hl Hd. revert n. induction Hl; intros [|n]; cbn; auto.
Qed.

Lemma sbox_byte (x : N) : sbox x < 256.
Proof.
  unfold sbox. apply nth_Forall; [|reflexivity].
  apply Forall_forall. intros y Hy. apply N.ltb_lt. revert y Hy.
  apply forallb_forall. vm_compute. reflexivity.
Qed.

Lemma inv_sbox_sbox (x : N) : x < 256 -> inv_sbox (sbox x) = x.
Proof.
  intro Hx. apply N.eqb_eq.
  apply (forall_below (fun x => inv_sbox (sbox x) =? x) 256);
    [vm_compute; reflexivity | exact Hx].
Qed.

Lemma sbox_inj (a b : N) : a < 256 -> b < 256 -> sbox a = sbox b -> a = b.
Proof.
  intros Ha Hb Heq.
  rewrite <- (inv_sbox_sbox a Ha), <- (inv_sbox_sbox b Hb). now rewrite Heq.
Qed.

Lemma xtime_byte (b : N) : b < 256 -> xtime b < 256.
Proof.
  intro Hb. unfold xtime. destruct (N.ltb_spec b 128); [lia|].
  apply lxor_byte; [lia | reflexivity].
Qed.

Lemma gmul_aux_byte (n : nat) (a b acc : N) :
  a < 256 -> acc < 256 -> gmul_aux n a b acc < 256.
Proof.
  revert a b acc. induction n as [|n IH]; intros a b acc Ha Hacc; cbn [gmul_aux].
  - exact Hacc.
  - apply IH; [now apply xtime_byte|].
    destruct (N.odd b); [now apply lxor_byte | exact Hacc].
Qed.

Lemma gmul_byte (a b : N) : a < 256 -> gmul a b < 256.
Proof. intro Ha. now apply gmul_aux_byte. Qed.

Lemma odd_lxor (x y : N) : N.odd (N.lxor x y) = xorb (N.odd x) (N.odd y).
Proof. now rewrite <- !N.bit0_odd, N.lxor_spec. Qed.

Lemma half_lxor (x y : N) : N.lxor x y / 2 = N.lxor (x / 2) (y / 2).
Proof.
  rewrite <- !N.div2_div, !N.div2_spec. apply N.shiftr_lxor.
Qed.

Lemma gmul_aux_linear (n : nat) (a x y acc acc' : N) :
  gmul_aux n a (N.lxor x y) (N.lxor acc acc')
  = N.lxor (gmul_aux n a x acc) (gmul_aux n a y acc').
Proof.
  revert a x y acc acc'.
  induction n as [|n IH]; intros a x y acc acc'; cbn [gmul_aux]; [reflexivity|].
  rewrite half_lxor, odd_lxor, <- IH. f_equal.
  destruct (N.odd x), (N.odd y); cbn [xorb].
  - rewrite (N.lxor_comm acc' a), N.lxor_assoc, <- (N.lxor_assoc a a).
    now rewrite N.lxor_nilpotent, N.lxor_0_l.
  - rewrite !N.lxor_assoc. f_equal. apply N.lxor_comm.
  - now rewrite N.lxor_assoc.
  - reflexivity.
Qed.

(** Multiplying in the field distributes over its sum. *)
Lemma gmul_linear (k x y : N) :
  gmul k (N.lxor x y) = N.lxor (gmul k x) (gmul k y).
Proof.
  unfold gmul. rewrite <- gmul_aux_linear. now rewrite N.lxor_0_l.
Qed.

Lemma gmul_linear4 (k p q r s : N) :
  gmul k (N.lxor p (N.lxor q (N.lxor r s)))
  = N.lxor (gmul k p) (N.lxor (gmul k q) (N.lxor (gmul k r) (gmul k s))).
Proof. now rewrite !gmul_linear. Qed.

(** The products of a row of the inverse matrix with a column of the
    matrix, in the four arrangements that occur. *)
Lemma inverse_rows (x : N) :
  x < 256 ->
  N.lxor (gmul 14 (gmul 2 x)) (N.lxor (gmul 11 x)
    (N.lxor (gmul 13 x) (gmul 9 (gmul 3 x)))) = x
  /\ N.lxor (gmul 14 (gmul 3 x)) (N.lxor (gmul 11 (gmul 2 x))
       (N.lxor (gmul 13 x) (gmul 9 x))) = 0
  /\ N.lxor (gmul 14 x) (N.lxor (gmul 11 (gmul 3 x))
       (N.lxor (gmul 13 (gmul 2 x)) (gmul 9 x))) = 0
  /\ N.lxor (gmul 14 x) (N.lxor (gmul 11 x)
       (N.lxor (gmul 13 (gmul 3 x)) (gmul 9 (gmul 2 x)))) = 0.
Proof.
  intro Hx.
  pose (P := fun x =>
    (N.lxor (gmul 14 (gmul 2 x)) (N.lxor (gmul 11 x)
       (N.lxor (gmul 13 x) (gmul 9 (gmul 3 x)))) =? x)
    && (N.lxor (gmul 14 (gmul 3 x)) (N.lxor (gmul 11 (gmul 2 x))
          (N.lxor (gmul 13 x) (gmul 9 x))) =? 0)
    && (N.lxor (gmul 14 x) (N.lxor (gmul 11 (gmul 3 x))
          (N.lxor (gmul 13 (gmul 2 x)) (gmul 9 x))) =? 0)
    && (N.lxor (gmul 14 x) (N.lxor (gmul 11 x)
          (N.lxor (gmul 13 (gmul 3 x)) (gmul 9 (gmul 2 x)))) =? 0)).
  assert (HP : P x = true)
    by (apply (forall_below P 256); [vm_compute; reflexivity | exact Hx]).
  unfold P in HP. rewrite !andb_true_iff, !N.eqb_eq in HP. tauto.
Qed.

Lemma lxor_interchange (a b c d : N) :
  N.lxor (N.lxor a b) (N.lxor c d) = N.lxor (N.lxor a c) (N.lxor b d).
Proof.
  rewrite !N.lxor_assoc. f_equal.
  rewrite <- !N.lxor_assoc. f_equal. apply N.lxor_comm.
Qed.

Lemma lxor_split4 (a1 t1 a2 t2 a3 t3 a4 t4 : N) :
  N.lxor (N.lxor a1 t1) (N.lxor (N.lxor a2 t2)
    (N.lxor (N.lxor a3 t3) (N.lxor a4 t4)))
  = N.lxor (N.lxor a1 (N.lxor a2 (N.lxor a3 a4)))
           (N.lxor t1 (N.lxor t2 (N.lxor t3 t4))).
Proof.
  rewrite (lxor_interchange a3 t3 a4 t4).
  rewrite (lxor_interchange a2 t2 (N.lxor a3 a4) (N.lxor t3 t4)).
  apply lxor_interchange.
Qed.

(** The sum of four rows of four, column by column. *)
Lemma lxor_transpose (a1 b1 c1 d1 a2 b2 c2 d2 a3 b3 c3 d3 a4 b4 c4 d4 : N) :
  N.lxor (N.lxor a1 (N.lxor b1 (N.lxor c1 d1)))
    (N.lxor (N.lxor a2 (N.lxor b2 (N.lxor c2 d2)))
       (N.lxor (N.lxor a3 (N.lxor b3 (N.lxor c3 d3)))
               (N.lxor a4 (N.lxor b4 (N.lxor c4 d4)))))
  = N.lxor (N.lxor a1 (N.lxor a2 (N.lxor a3 a4)))
      (N.lxor (N.lxor b1 (N.lxor b2 (N.lxor b3 b4)))
         (N.lxor (N.lxor c1 (N.lxor c2 (N.lxor c3 c4)))
                 (N.lxor d1 (N.lxor d2 (N.lxor d3 d4))))).
Proof.
  rewrite (lxor_split4 a1 _ a2 _ a3 _ a4 _). f_equal.
  rewrite (lxor_split4 b1 _ b2 _ b3 _ b4 _). f_equal.
  apply lxor_split4.
Qed.

Lemma lxor_rotate (u1 u2 u3 u4 : N) :
  N.lxor u4 (N.lxor u1 (N.lxor u2 u3)) = N.lxor u1 (N.lxor u2 (N.lxor u3 u4)).
Proof.
  rewrite N.lxor_comm, !N.lxor_assoc. reflexivity.
Qed.

(** A sum of four known in one order, known with its last term first. *)
Ltac rotate H :=
  match type of H with
  | N.lxor ?u1 (N.lxor ?u2 (N.lxor ?u3 ?u4)) = ?r =>
      let H' := fresh in
      pose proof (eq_trans (lxor_rotate u1 u2 u3 u4) H) as H';
      clear H; rename H' into H
  end.

Ltac by_rows H1 H2 H3 H4 :=
  rewrite lxor_transpose, H1, H2, H3, H4;
  now rewrite ?N.lxor_0_r, ?N.lxor_0_l.

Lemma inv_mix_mix (a b c d : N) :
  a < 256 -> b < 256 -> c < 256 -> d < 256 ->
  inv_mix_column (mix_column [a; b; c; d]) = [a; b; c; d].
Proof.
  intros Ha Hb Hc Hd. cbn [mix_column inv_mix_column].
  rewrite !gmul_linear4.
  destruct (inverse_rows a Ha) as (Da & Za1 & Za2 & Za3).
  destruct (inverse_rows b Hb) as (Db & Zb1 & Zb2 & Zb3).
  destruct (inverse_rows c Hc) as (Dc & Zc1 & Zc2 & Zc3).
  destruct (inverse_rows d Hd) as (Dd & Zd1 & Zd2 & Zd3).
  f_equal; [|f_equal; [|f_equal; [|f_equal]]].
  - by_rows Da Zb1 Zc2 Zd3.
  - rotate Za3; rotate Db; rotate Zc1; rotate Zd2.
    by_rows Za3 Db Zc1 Zd2.
  - do 2 rotate Za2; do 2 rotate Zb3; do 2 rotate Dc; do 2 rotate Zd1.
    by_rows Za2 Zb3 Dc Zd1.
  - do 3 rotate Za1; do 3 rotate Zb2; do 3 rotate Zc3; do 3 rotate Dd.
    by_rows Za1 Zb2 Zc3 Dd.
Qed.

(** *** The steps of a round on sixteen bytes *)

Lemma app_inj_length {A : Type} (l l' r r' : list A) :
  length l = length l' -> l ++ r = l' ++ r' -> l = l' /\ r = r'.
Proof.
  revert l'. induction l as [|x l IH]; intros [|x' l'] Hlen Heq;
    try discriminate; [now split|].
  cbn in Heq. injection Heq as -> Heq. injection Hlen as Hlen.
  destruct (IH l' Hlen Heq) as [-> ->]. now split.
Qed.

Lemma xor_list_cons (x y : N) (a k : list N) :
  xor_list (x :: a) (y :: k) = N.lxor x y :: xor_list a k.
Proof. reflexivity. Qed.

Lemma xor_list_byte_list (n : nat) (a k : list N) :
  byte_list n a -> byte_list n k -> byte_list n (xor_list a k).
Proof.
  intros [Hla Ha] [Hlk Hk]. split.
  - unfold xor_list. rewrite length_map, length_combine. lia.
  - clear Hla Hlk. revert k Hk.
    induction Ha as [|x a Hx _ IH]; intros k Hk; [constructor|].
    destruct Hk as [|y k Hy Hk]; [constructor|].
    rewrite xor_list_cons. constructor; [now apply lxor_byte | now apply IH].
Qed.

Lemma xor_list_inj (a a' k : list N) :
  length a = length k -> length a' = length k ->
  xor_list a k = xor_list a' k -> a = a'.
Proof.
  revert a a'. induction k as [|y k IH]; intros [|x a] [|x' a'] Hl Hl' Heq;
    try discriminate; [reflexivity|].
  rewrite !xor_list_cons in Heq. injection Heq as Hx Heq.
  apply lxor_cancel_r in Hx. subst x'.
  f_equal. apply IH; [now injection Hl | now injection Hl' | exact Heq].
Qed.

Lemma sub_bytes_byte_list (n : nat) (s : list N) :
  length s = n -> byte_list n (sub_bytes s).
Proof.
  intro Hl. split; [unfold sub_bytes; now rewrite length_map|].
  unfold sub_bytes. apply Forall_map, Forall_forall. intros. apply sbox_byte.
Qed.

Lemma sub_bytes_inj (n : nat) (s s' : list N) :
  byte_list n s -> byte_list n s' -> sub_bytes s = sub_bytes s' -> s = s'.
Proof.
  intros [Hl Hs] [Hl' Hs']. subst n. revert s' Hl' Hs'.
  induction Hs as [|x s Hx _ IH]; intros [|x' s'] Hl' Hs' Heq;
    try discriminate; [reflexivity|].
  cbn in Heq. injection Heq as Hx' Heq.
  apply Forall_cons_iff in Hs'. destruct Hs' as [Hx'' Hs'].
  f_equal; [now apply sbox_inj | apply IH; auto].
Qed.

(** Take a list of sixteen bytes apart. *)
Ltac explode H :=
  let Hlen := fresh "Hlen" in
  let Hall := fresh "Hall" in
  destruct H as [Hlen Hall];
  match type of Hlen with
  | length ?s = _ =>
      do 16 (destruct s as [|? s]; [discriminate Hlen|]);
      destruct s; [|discriminate Hlen]
  end;
  clear Hlen;
  repeat match goal with
  | H : Forall _ (_ :: _) |- _ =>
      apply Forall_cons_iff in H; destruct H as [? H]
  end;
  clear Hall.

Lemma shift_rows_byte_list (s : list N) :
  byte_list 16 s -> byte_list 16 (shift_rows s).
Proof.
  intro H. explode H. split; [reflexivity|]. cbn. repeat constructor; assumption.
Qed.

Lemma shift_rows_inj (s s' : list N) :
  byte_list 16 s -> byte_list 16 s' -> shift_rows s = shift_rows s' -> s = s'.
Proof.
  intros H H'. explode H. explode H'. cbn. intro Heq. congruence.
Qed.

Lemma mix_column_byte_list (col : list N) :
  byte_list 4 col -> byte_list 4 (mix_column col).
Proof.
  intros [Hlen Hall].
  do 4 (destruct col as [|? col]; [discriminate Hlen|]).
  destruct col; [|discriminate Hlen].
  repeat match goal with
  | H : Forall _ (_ :: _) |- _ =>
      apply Forall_cons_iff in H; destruct H as [? H]
  end.
  split; [reflexivity|]. cbn [mix_column].
  repeat constructor;
    repeat first [apply lxor_byte | apply gmul_byte; reflexivity | assumption].
Qed.

Lemma mix_column_inj (col col' : list N) :
  byte_list 4 col -> byte_list 4 col' ->
  mix_column col = mix_column col' -> col = col'.
Proof.
  intros [Hlen Hall] [Hlen' Hall'] Heq.
  do 4 (destruct col as [|? col]; [discriminate Hlen|]).
  destruct col; [|discriminate Hlen].
  do 4 (destruct col' as [|? col']; [discriminate Hlen'|]).
  destruct col'; [|discriminate Hlen'].
  repeat match goal with
  | H : Forall _ (_ :: _) |- _ =>
      apply Forall_cons_iff in H; destruct H as [? H]
  end.
  apply (f_equal inv_mix_column) in Heq.
  now rewrite !inv_mix_mix in Heq.
Qed.

Lemma byte_list_app (n m : nat) (a b : list N) :
  byte_list n a -> byte_list m b -> byte_list (n + m) (a ++ b).
Proof.
  intros [Hla Ha] [Hlb Hb]. split.
  - rewrite length_app. lia.
  - apply Forall_app. now split.
Qed.

Ltac column := split; [reflexivity | repeat constructor; assumption].

Lemma mix_columns_byte_list (s : list N) :
  byte_list 16 s -> byte_list 16 (mix_columns s).
Proof.
  intro H. explode H. unfold mix_columns. cbn [firstn skipn].
  repeat apply (byte_list_app 4); apply mix_column_byte_list; column.
Qed.

Lemma mix_columns_inj (s s' : list N) :
  byte_list 16 s -> byte_list 16 s' -> mix_columns s = mix_columns s' -> s = s'.
Proof.
  intros H H'. explode H. explode H'. unfold mix_columns. cbn [firstn skipn].
  intro Heq.
  apply app_inj_length in Heq; [|reflexivity]. destruct Heq as [E1 Heq].
  apply app_inj_length in Heq; [|reflexivity]. destruct Heq as [E2 Heq].
  apply app_inj_length in Heq; [|reflexivity]. destruct Heq as [E3 E4].
  apply mix_column_inj in E1, E2, E3, E4; try column.
  congruence.
Qed.

(** *** A round, and the rounds *)

Lemma round_byte_list (w : list (list N)) (s : list N) (r : nat) :
  byte_list 16 (round_key w r) -> byte_list 16 s ->
  byte_list 16 (round w s r).
Proof.
  intros Hk [Hlen _]. unfold round.
  apply xor_list_byte_list; [|exact Hk].
  now apply mix_columns_byte_list, shift_rows_byte_list, sub_bytes_byte_list.
Qed.

Lemma round_inj (w : list (list N)) (s s' : list N) (r : nat) :
  byte_list 16 (round_key w r) -> byte_list 16 s -> byte_list 16 s' ->
  round w s r = round w s' r -> s = s'.
Proof.
  intros Hk Hs Hs' Heq. unfold round in Heq.
  pose proof (sub_bytes_byte_list 16 s (proj1 Hs)) as H1.
  pose proof (sub_bytes_byte_list 16 s' (proj1 Hs')) as H1'.
  pose proof (shift_rows_byte_list _ H1) as H2.
  pose proof (shift_rows_byte_list _ H1') as H2'.
  pose proof (mix_columns_byte_list _ H2) as H3.
  pose proof (mix_columns_byte_list _ H2') as H3'.
  apply xor_list_inj in Heq;
    [| rewrite (proj1 H3), (proj1 Hk); reflexivity
     | rewrite (proj1 H3'), (proj1 Hk); reflexivity].
  apply mix_columns_inj in Heq; [|assumption|assumption].
  apply shift_rows_inj in Heq; [|assumption|assumption].
  now apply (sub_bytes_inj 16).
Qed.

Lemma rounds_byte_list (w : list (list N)) (rs : list nat) (s : list N) :
  (forall r, In r rs -> byte_list 16 (round_key w r)) -> byte_list 16 s ->
  byte_list 16 (fold_left (round w) rs s).
Proof.
  revert s. induction rs as [|r rs IH]; intros s Hk Hs; cbn [fold_left].
  - exact Hs.
  - apply IH; [intros; apply Hk; now right|].
    apply round_byte_list; [apply Hk; now left | exact Hs].
Qed.

Lemma rounds_inj (w : list (list N)) (rs : list nat) (s s' : list N) :
  (forall r, In r rs -> byte_list 16 (round_key w r)) ->
  byte_list 16 s -> byte_list 16 s' ->
  fold_left (round w) rs s = fold_left (round w) rs s' -> s = s'.
Proof.
  revert s s'. induction rs as [|r rs IH]; intros s s' Hk Hs Hs' Heq;
    cbn [fold_left] in Heq; [exact Heq|].
  assert (Hr : byte_list 16 (round_key w r)) by (apply Hk; now left).
  apply IH in Heq.
  - now apply (round_inj w s s' r).
  - intros; apply Hk; now right.
  - now apply round_byte_list.
  - now apply round_byte_list.
Qed.

(** With sixteen-byte round keys the cipher maps blocks to blocks, and
    different blocks to different blocks. *)
Lemma cipher_byte_list (w : list (list N)) (block : list N) :
  (forall r, (r <= 14)%nat -> byte_list 16 (round_key w r)) ->
  byte_list 16 block -> byte_list 16 (cipher w block).
Proof.
  intros Hk Hb. unfold cipher.
  apply xor_list_byte_list; [|apply Hk; lia].
  apply shift_rows_byte_list, sub_bytes_byte_list.
  apply rounds_byte_list.
  - intros r Hr. apply in_seq in Hr. apply Hk. lia.
  - apply xor_list_byte_list; [exact Hb | apply Hk; lia].
Qed.

Lemma cipher_inj (w : list (list N)) (b b' : list N) :
  (forall r, (r <= 14)%nat -> byte_list 16 (round_key w r)) ->
  byte_list 16 b -> byte_list 16 b' ->
  cipher w b = cipher w b' -> b = b'.
Proof.
  intros Hk Hb Hb' Heq. unfold cipher in Heq.
  assert (Hin : forall r, In r (seq 1 13) -> byte_list 16 (round_key w r)).
  { intros r Hr. apply in_seq in Hr. apply Hk. lia. }
  assert (H0 : byte_list 16 (xor_list b (round_key w 0)))
    by (apply xor_list_byte_list; [exact Hb | apply Hk; lia]).
  assert (H0' : byte_list 16 (xor_list b' (round_key w 0)))
    by (apply xor_list_byte_list; [exact Hb' | apply Hk; lia]).
  pose proof (rounds_byte_list w _ _ Hin H0) as H1.
  pose proof (rounds_byte_list w _ _ Hin H0') as H1'.
  pose proof (sub_bytes_byte_list 16 _ (proj1 H1)) as H2.
  pose proof (sub_bytes_byte_list 16 _ (proj1 H1')) as H2'.
  pose proof (shift_rows_byte_list _ H2) as H3.
  pose proof (shift_rows_byte_list _ H2') as H3'.
  pose proof (Hk 14%nat ltac:(lia)) as Hk14.
  apply xor_list_inj in Heq;
    [| rewrite (proj1 H3), (proj1 Hk14); reflexivity
     | rewrite (proj1 H3'), (proj1 Hk14); reflexivity].
  apply shift_rows_inj in Heq; [|assumption|assumption].
  apply (sub_bytes_inj 16) in Heq; [|assumption|assumption].
  apply rounds_inj in Heq; [|assumption|assumption|assumption].
  pose proof (Hk 0%nat ltac:(lia)) as Hk0.
  apply xor_list_inj in Heq;
    [exact Heq
    | rewrite (proj1 Hb), (proj1 Hk0); reflexivity
    | rewrite (proj1 Hb'), (proj1 Hk0); reflexivity].
Qed.

(** *** The key schedule gives sixteen-byte round keys *)

Lemma Forall_parts {A : Type} (P : A -> Prop) (n : nat) (l : list A) :
  Forall P l -> Forall P (firstn n l) /\ Forall P (skipn n l).
Proof.
  intro H. rewrite <- (firstn_skipn n l) in H. now apply Forall_app in H.
Qed.

Lemma rcon_byte (i : nat) : rcon i < 256.
Proof.
  unfold rcon. generalize (i - 1)%nat. intro n.
  induction n as [|n IH]; [reflexivity|].
  cbn [Nat.iter]. now apply xtime_byte.
Qed.

Lemma rot_word_byte_list (w : list N) :
  byte_list 4 w -> byte_list 4 (rot_word w).
Proof.
  intros [Hlen Hall]. destruct w as [|a w]; [discriminate|].
  cbn [rot_word]. apply Forall_cons_iff in Hall. destruct Hall as [Ha Hw].
  split.
  - rewrite length_app. cbn in *. lia.
  - apply Forall_app. split; [exact Hw | now constructor].
Qed.

Lemma nth_word (rev_w : list (list N)) (k : nat) :
  Forall (byte_list 4) rev_w -> (k < length rev_w)%nat ->
  byte_list 4 (nth k rev_w []).
Proof.
  intros Hall Hk. rewrite Forall_forall in Hall. now apply Hall, nth_In.
Qed.

Lemma expand_shape (n i : nat) (rev_w : list (list N)) :
  Forall (byte_list 4) rev_w -> (8 <= length rev_w)%nat ->
  Forall (byte_list 4) (expand n i rev_w)
  /\ length (expand n i rev_w) = (n + length rev_w)%nat.
Proof.
  revert i rev_w. induction n as [|n IH]; intros i rev_w Hall Hlen;
    cbn [expand]; [now split|].
  pose proof (nth_word rev_w 0 Hall ltac:(lia)) as H0.
  pose proof (nth_word rev_w 7 Hall ltac:(lia)) as H7.
  match goal with
  | |- context [expand n (S i) (?word :: rev_w)] =>
      assert (Hword : byte_list 4 word)
  end.
  { apply xor_list_byte_list; [exact H7|].
    destruct (Nat.eqb (i mod 8) 0).
    - apply xor_list_byte_list.
      + apply sub_bytes_byte_list. now destruct (rot_word_byte_list _ H0).
      + split; [reflexivity|].
        constructor; [apply rcon_byte|].
        repeat (constructor; [reflexivity|]). constructor.
    - destruct (Nat.eqb (i mod 8) 4); [|exact H0].
      apply sub_bytes_byte_list. now destruct H0. }
  destruct (IH (S i) _ (Forall_cons _ Hword Hall)) as [Hres Hreslen];
    [cbn [length]; lia|].
  split; [exact Hres|]. rewrite Hreslen. cbn [length]. lia.
Qed.

Lemma words_shape (n : nat) (key : list N) :
  byte_list (4 * n) key ->
  Forall (byte_list 4) (words n key) /\ length (words n key) = n.
Proof.
  revert key. induction n as [|n IH]; intros key [Hlen Hall]; cbn [words];
    [now split|].
  destruct (Forall_parts _ 4 key Hall) as [Hf Hs].
  destruct (IH (skipn 4 key)) as [Hw Hwl].
  { split; [rewrite length_skipn; lia | exact Hs]. }
  split; [|cbn [length]; now rewrite Hwl].
  constructor; [|exact Hw].
  split; [rewrite length_firstn; lia | exact Hf].
Qed.

Lemma key_expansion_shape (key : list N) :
  byte_list 32 key ->
  Forall (byte_list 4) (key_expansion key)
  /\ length (key_expansion key) = 60%nat.
Proof.
  intro Hkey. unfold key_expansion.
  destruct (words_shape 8 key Hkey) as [Hw Hwl].
  destruct (expand_shape 52 8 (rev (words 8 key))) as [He Hel].
  { now apply Forall_rev. }
  { rewrite length_rev. lia. }
  split; [now apply Forall_rev|].
  rewrite length_rev, Hel, length_rev, Hwl. reflexivity.
Qed.

Lemma round_key_byte_list (w : list (list N)) (r : nat) :
  Forall (byte_list 4) w -> length w = 60%nat -> (r <= 14)%nat ->
  byte_list 16 (round_key w r).
Proof.
  intros Hall Hlen Hr. unfold round_key.
  destruct (Forall_parts _ (4 * r) w Hall) as [_ Hs].
  destruct (Forall_parts _ 4 _ Hs) as [Hf _].
  assert (Hl : length (firstn 4 (skipn (4 * r) w)) = 4%nat)
    by (rewrite length_firstn, length_skipn; lia).
  destruct (firstn 4 (skipn (4 * r) w)) as [|a [|b [|c [|d [|e l]]]]];
    try discriminate.
  repeat match goal with
  | H : Forall _ (_ :: _) |- _ =>
      apply Forall_cons_iff in H; destruct H as [? H]
  end.
  cbn [List.concat]. rewrite app_nil_r.
  repeat apply (byte_list_app 4); assumption.
Qed.

End AESFacts.

(** *** Blocks as numbers, and [aes256] *)

Module BlockFacts.
Import AES AESFacts.

Lemma be_N_acc (bs : list N) (acc : N) :
  fold_left (fun acc b => acc * 256 + b) bs acc
  = acc * 256 ^ N.of_nat (length bs) + be_N bs.
Proof.
  unfold be_N. revert acc. induction bs as [|b bs IH]; intro acc.
  - cbn. lia.
  - cbn [fold_left length]. rewrite IH, (IH (0 * 256 + b)).
    rewrite Nat2N.inj_succ, N.pow_succ_r'. lia.
Qed.

Lemma be_N_cons (b : N) (bs : list N) :
  be_N (b :: bs) = b * 256 ^ N.of_nat (length bs) + be_N bs.
Proof. unfold be_N at 1. cbn [fold_left]. rewrite be_N_acc. lia. Qed.

Lemma be_N_lt (n : nat) (bs : list N) :
  byte_list n bs -> be_N bs < 256 ^ N.of_nat n.
Proof.
  intros [<- Hall]. induction Hall as [|b bs Hb _ IH]; [reflexivity|].
  rewrite be_N_cons. cbn [length]. rewrite Nat2N.inj_succ, N.pow_succ_r'.
  nia.
Qed.

Lemma be_N_inj (n : nat) (a b : list N) :
  byte_list n a -> byte_list n b -> be_N a = be_N b -> a = b.
Proof.
  revert a b. induction n as [|n IH]; intros a b [Hla Ha] [Hlb Hb] Heq.
  - destruct a, b; try discriminate. reflexivity.
  - destruct a as [|x a]; [discriminate|]. destruct b as [|y b]; [discriminate|].
    apply Forall_cons_iff in Ha, Hb. destruct Ha as [Hx Ha], Hb as [Hy Hb].
    injection Hla as Hla. injection Hlb as Hlb.
    rewrite !be_N_cons, Hla, Hlb in Heq.
    pose proof (be_N_lt n a (conj Hla Ha)) as Hlta.
    pose proof (be_N_lt n b (conj Hlb Hb)) as Hltb.
    assert (x = y /\ be_N a = be_N b) as [-> Hrest].
    { apply (N.div_mod_unique (256 ^ N.of_nat n)); [assumption..|].
      rewrite !(N.mul_comm (256 ^ N.of_nat n)). exact Heq. }
    f_equal. apply IH; [now split | now split | exact Hrest].
Qed.

Lemma N_be_byte_list (k : nat) (x : N) : byte_list k (N_be k x).
Proof.
  split; [apply GCMFacts.N_be_length|].
  induction k as [|k IH]; cbn [N_be]; constructor; [|exact IH].
  apply N.mod_upper_bound. lia.
Qed.

Lemma be_N_N_be (k : nat) (x : N) : be_N (N_be k x) = x mod 256 ^ N.of_nat k.
Proof.
  induction k as [|k IH].
  - cbn. now rewrite N.mod_1_r.
  - cbn [N_be]. rewrite be_N_cons, GCMFacts.N_be_length, IH.
    rewrite Nat2N.inj_succ, N.pow_succ_r', (N.mul_comm 256).
    rewrite N.Div0.mod_mul_r. lia.
Qed.

Lemma N_be_inj (k : nat) (x y : N) :
  x < 256 ^ N.of_nat k -> y < 256 ^ N.of_nat k -> N_be k x = N_be k y -> x = y.
Proof.
  intros Hx Hy Heq. apply (f_equal be_N) in Heq.
  now rewrite !be_N_N_be, !N.mod_small in Heq.
Qed.

Lemma map_to_N_byte_list (bs : bytes) : byte_list (length bs) (map Byte.to_N bs).
Proof.
  split; [apply length_map|].
  apply Forall_map, Forall_forall. intros. apply to_N_lt.
Qed.

Lemma aes256_round_keys (key : bytes) (r : nat) :
  length key = 32%nat -> (r <= 14)%nat ->
  byte_list 16 (AES.round_key (AES.key_expansion (map Byte.to_N key)) r).
Proof.
  intros Hlen Hr.
  destruct (key_expansion_shape (map Byte.to_N key)) as [Hall Hl].
  { rewrite <- Hlen. apply map_to_N_byte_list. }
  apply round_key_byte_list; assumption.
Qed.

Lemma aes256_eq (key : bytes) (x : N) :
  aes256 key x
  = be_N (AES.cipher (AES.key_expansion (map Byte.to_N key)) (N_be 16 x)).
Proof. reflexivity. Qed.

Lemma aes256_block (key : bytes) (x : N) :
  length key = 32%nat ->
  byte_list 16 (AES.cipher (AES.key_expansion (map Byte.to_N key)) (N_be 16 x)).
Proof.
  intro Hlen. apply cipher_byte_list.
  - intros r Hr. apply aes256_round_keys; assumption.
  - apply N_be_byte_list.
Qed.

Lemma pow_256_16 : 256 ^ N.of_nat 16 = 2 ^ 128.
Proof. reflexivity. Qed.

Lemma aes256_lt (key : bytes) (x : N) :
  length key = 32%nat -> aes256 key x < 2 ^ 128.
Proof.
  intro Hlen. rewrite aes256_eq, <- pow_256_16.
  apply be_N_lt, aes256_block, Hlen.
Qed.

(** AES-256 under a key of thirty-two bytes sends different blocks to
    different blocks. *)
Lemma aes256_inj (key : bytes) (x y : N) :
  length key = 32%nat -> x < 2 ^ 128 -> y < 2 ^ 128 ->
  aes256 key x = aes256 key y -> x = y.
Proof.
  intros Hlen Hx Hy Heq. rewrite !aes256_eq in Heq.
  rewrite <- pow_256_16 in Hx, Hy.
  apply (be_N_inj 16 _ _ (aes256_block key x Hlen) (aes256_block key y Hlen))
    in Heq.
  apply cipher_inj in Heq.
  - apply (N_be_inj 16 x y Hx Hy Heq).
  - intros r Hr. apply aes256_round_keys; assumption.
  - apply N_be_byte_list.
  - apply N_be_byte_list.
Qed.

End BlockFacts.

(** ** What a change of one byte does to the tag *)

Module TamperFacts.
Import GCM AESFacts BlockFacts GCMFacts.

(** *** Lists that differ in one place *)

Lemma one_change_length {A : Type} (l l' : list A) :
  one_change l l' -> length l = length l'.
Proof. induction 1; cbn; congruence. Qed.

Lemma one_change_neq {A : Type} (l l' : list A) : one_change l l' -> l <> l'.
Proof.
  induction 1 as [a a' l Hne | a l l' _ IH]; intro Heq.
  - injection Heq as Ha. contradiction.
  - injection Heq as Hl. contradiction.
Qed.

Lemma one_change_map {A B : Type} (f : A -> B) (l l' : list A) :
  (forall a a', f a = f a' -> a = a') ->
  one_change l l' -> one_change (map f l) (map f l').
Proof.
  intros Hinj. induction 1 as [a a' l Hne | a l l' _ IH]; cbn.
  - constructor. intro H. apply Hne, Hinj, H.
  - now constructor.
Qed.

(** Cut at [k], the change is in the first part or in the second. *)
Lemma one_change_cut {A : Type} (k : nat) (l l' : list A) :
  one_change l l' ->
  (firstn k l = firstn k l' /\ one_change (skipn k l) (skipn k l'))
  \/ (one_change (firstn k l) (firstn k l') /\ skipn k l = skipn k l').
Proof.
  intro H. revert k. induction H as [a a' l Hne | a l l' H IH]; intros [|k].
  - left. split; [reflexivity | now constructor].
  - right. split; [now constructor | reflexivity].
  - left. split; [reflexivity | now constructor].
  - cbn [firstn skipn]. destruct (IH k) as [[Hf Hs] | [Hf Hs]].
    + left. split; [now rewrite Hf | exact Hs].
    + right. split; [now constructor | exact Hs].
Qed.

Lemma flip_byte_neq (b : byte) (i : nat) :
  (i < 8)%nat -> xor_byte b (byte_of_N (2 ^ N.of_nat i)) <> b.
Proof.
  intros Hi Heq.
  pose (P := fun x => forallb (fun i =>
    negb (Byte.eqb (xor_byte (byte_of_N x) (byte_of_N (2 ^ N.of_nat i)))
                   (byte_of_N x))) (seq 0 8)).
  assert (HP : P (Byte.to_N b) = true).
  { apply (forall_below P 256); [vm_compute; reflexivity | apply to_N_lt]. }
  unfold P in HP. rewrite forallb_forall in HP.
  specialize (HP i ltac:(apply in_seq; lia)).
  rewrite byte_of_to_N, Heq in HP.
  rewrite (Byte.byte_dec_lb (eq_refl b)) in HP. discriminate.
Qed.

(** Flipping a bit of a list of bytes changes one byte. *)
Lemma flip_bit_change (data : bytes) (i : nat) :
  (i < 8 * length data)%nat -> one_change data (flip_bit data i).
Proof.
  revert i. induction data as [|b data IH]; intros i Hi; cbn [flip_bit].
  - cbn in Hi. lia.
  - destruct (Nat.ltb_spec i 8).
    + constructor. intro H'. symmetry in H'. revert H'. now apply flip_byte_neq.
    + constructor. apply IH. cbn [length] in Hi. lia.
Qed.

Lemma one_change_app {A : Type} (l l' r : list A) :
  one_change l l' -> one_change (l ++ r) (l' ++ r).
Proof. induction 1; cbn; now constructor. Qed.

(** *** The product of blocks *)

Lemma R_lt : R < 2 ^ 128.
Proof. reflexivity. Qed.

Lemma half_lt (v p : N) : v < p -> v / 2 < p.
Proof. intro H. apply N.Div0.div_lt_upper_bound. lia. Qed.

Lemma gf_mul_aux_lt (k : nat) (X V Z : N) :
  V < 2 ^ 128 -> Z < 2 ^ 128 -> gf_mul_aux k X V Z < 2 ^ 128.
Proof.
  revert V Z. induction k as [|k IH]; intros V Z HV HZ; cbn [gf_mul_aux].
  - exact HZ.
  - apply IH.
    + destruct (N.odd V); [|now apply half_lt].
      apply lxor_lt_pow2; [now apply half_lt | exact R_lt].
    + destruct (N.testbit X (N.of_nat k)); [|exact HZ].
      now apply lxor_lt_pow2.
Qed.

Lemma gf_mul_lt (X Y : N) : Y < 2 ^ 128 -> gf_mul X Y < 2 ^ 128.
Proof.
  intro HY. exact (gf_mul_aux_lt 128 X Y 0 HY eq_refl).
Qed.

Lemma gf_mul_aux_linear (k : nat) (X X' V Z Z' : N) :
  gf_mul_aux k (N.lxor X X') V (N.lxor Z Z')
  = N.lxor (gf_mul_aux k X V Z) (gf_mul_aux k X' V Z').
Proof.
  revert V Z Z'. induction k as [|k IH]; intros V Z Z'; cbn [gf_mul_aux];
    [reflexivity|].
  rewrite <- IH. f_equal. rewrite N.lxor_spec.
  destruct (N.testbit X (N.of_nat k)), (N.testbit X' (N.of_nat k)); cbn [xorb].
  - rewrite (N.lxor_comm Z' V), N.lxor_assoc, <- (N.lxor_assoc V V).
    now rewrite N.lxor_nilpotent, N.lxor_0_l.
  - rewrite !N.lxor_assoc. f_equal. apply N.lxor_comm.
  - now rewrite N.lxor_assoc.
  - reflexivity.
Qed.

(** The product is additive in its first factor. *)
Lemma gf_mul_linear (X X' Y : N) :
  gf_mul (N.lxor X X') Y = N.lxor (gf_mul X Y) (gf_mul X' Y).
Proof.
  unfold gf_mul. rewrite <- gf_mul_aux_linear. now rewrite N.lxor_0_l.
Qed.

Lemma land_pow2_small (r k : N) : r < 2 ^ k -> N.land r (2 ^ k) = 0.
Proof.
  intro Hr. apply N.bits_inj. intro n.
  rewrite N.land_spec, N.pow2_bits_eqb, N.bits_0.
  destruct (N.eqb_spec k n) as [<- | Hn]; [|apply andb_false_r].
  rewrite <- (N.mod_small r (2 ^ k) Hr).
  now rewrite N.mod_pow2_bits_high.
Qed.

Lemma pow2_split (X k : N) :
  X < 2 ^ N.succ k ->
  X < 2 ^ k \/ exists r, r < 2 ^ k /\ X = N.lxor r (2 ^ k).
Proof.
  intro HX. rewrite N.pow_succ_r' in HX.
  destruct (N.lt_ge_cases X (2 ^ k)) as [Hlt | Hge]; [now left|].
  right. exists (X - 2 ^ k).
  assert (Hr : X - 2 ^ k < 2 ^ k) by lia.
  split; [exact Hr|].
  rewrite <- N.add_nocarry_lxor by now apply land_pow2_small.
  lia.
Qed.

(** An additive map that fixes the one-bit numbers fixes every number
    of that many bits. *)
Lemma additive_fixes (F : N -> N) (k : nat) :
  (forall X Y, F (N.lxor X Y) = N.lxor (F X) (F Y)) ->
  (forall j, (j < k)%nat -> F (2 ^ N.of_nat j) = 2 ^ N.of_nat j) ->
  forall X, X < 2 ^ N.of_nat k -> F X = X.
Proof.
  intros Hadd. induction k as [|k IH]; intros Hfix X HX.
  - assert (X = 0) as -> by (cbn in HX; lia).
    pose proof (Hadd 0 0) as H0. rewrite N.lxor_nilpotent in H0.
    now rewrite N.lxor_nilpotent in H0.
  - rewrite Nat2N.inj_succ in HX.
    assert (IH' : forall Y, Y < 2 ^ N.of_nat k -> F Y = Y)
      by (apply IH; intros; apply Hfix; lia).
    destruct (pow2_split X _ HX) as [Hlt | (r & Hr & ->)]; [now apply IH'|].
    rewrite Hadd, (IH' r Hr), (Hfix k); [reflexivity | lia].
Qed.

Lemma fold_left_cons {A B : Type} (f : A -> B -> A) (x : B) (xs : list B)
  (y : A) : fold_left f (x :: xs) y = fold_left f xs (f y x).
Proof. reflexivity. Qed.

Section WithSubkey.

Variables H Hinv : N.
Hypothesis H_lt : H < 2 ^ 128.
Hypothesis Hinv_inverts :
  forall j, (j < 128)%nat ->
    gf_mul (gf_mul (2 ^ N.of_nat j) H) Hinv = 2 ^ N.of_nat j.

Lemma gf_mul_cancel (X : N) : X < 2 ^ 128 -> gf_mul (gf_mul X H) Hinv = X.
Proof.
  apply (additive_fixes (fun X => gf_mul (gf_mul X H) Hinv) 128).
  - intros X' Y. now rewrite !gf_mul_linear.
  - exact Hinv_inverts.
Qed.

Lemma gf_mul_inj (X X' : N) :
  X < 2 ^ 128 -> X' < 2 ^ 128 -> gf_mul X H = gf_mul X' H -> X = X'.
Proof.
  intros HX HX' Heq.
  rewrite <- (gf_mul_cancel X HX), <- (gf_mul_cancel X' HX'). now rewrite Heq.
Qed.

Lemma step_lt (y x : N) : gf_mul (N.lxor y x) H < 2 ^ 128.
Proof. exact (gf_mul_lt _ _ H_lt). Qed.

Lemma step_inj (y y' x : N) :
  y < 2 ^ 128 -> y' < 2 ^ 128 -> x < 2 ^ 128 ->
  gf_mul (N.lxor y x) H = gf_mul (N.lxor y' x) H -> y = y'.
Proof.
  intros Hy Hy' Hx Heq.
  apply gf_mul_inj in Heq;
    [| exact (lxor_lt_pow2 _ _ _ Hy Hx) | exact (lxor_lt_pow2 _ _ _ Hy' Hx)].
  exact (lxor_cancel_r _ _ _ Heq).
Qed.

Lemma ghash_fold_lt (xs : list N) (y : N) :
  y < 2 ^ 128 ->
  fold_left (fun y x => gf_mul (N.lxor y x) H) xs y < 2 ^ 128.
Proof.
  revert y. induction xs as [|x xs IH]; intros y Hy.
  - exact Hy.
  - rewrite fold_left_cons. exact (IH _ (step_lt y x)).
Qed.

Lemma ghash_fold_inj (xs : list N) (y y' : N) :
  Forall (fun x => x < 2 ^ 128) xs -> y < 2 ^ 128 -> y' < 2 ^ 128 ->
  y <> y' ->
  fold_left (fun y x => gf_mul (N.lxor y x) H) xs y
  <> fold_left (fun y x => gf_mul (N.lxor y x) H) xs y'.
Proof.
  intro Hxs. revert y y'.
  induction Hxs as [|x xs Hx _ IH]; intros y y' Hy Hy' Hne.
  - exact Hne.
  - rewrite !fold_left_cons.
    refine (IH _ _ (step_lt y x) (step_lt y' x) _).
    intro Heq. exact (Hne (step_inj y y' x Hy Hy' Hx Heq)).
Qed.

(** A change of one block changes the hash. *)
Lemma ghash_from_one_change (xs xs' : list N) (y : N) :
  one_change xs xs' ->
  Forall (fun x => x < 2 ^ 128) xs -> Forall (fun x => x < 2 ^ 128) xs' ->
  y < 2 ^ 128 ->
  fold_left (fun y x => gf_mul (N.lxor y x) H) xs y
  <> fold_left (fun y x => gf_mul (N.lxor y x) H) xs' y.
Proof.
  intro Hch. revert y.
  induction Hch as [a a' l Hne | a l l' _ IH]; intros y Hall Hall' Hy;
    apply Forall_cons_iff in Hall, Hall'; destruct Hall as [Ha Hl],
    Hall' as [Ha' Hl']; rewrite !fold_left_cons.
  - refine (ghash_fold_inj l _ _ Hl (step_lt y a) (step_lt y a') _).
    intro Heq.
    apply gf_mul_inj in Heq;
      [| exact (lxor_lt_pow2 _ _ _ Hy Ha) | exact (lxor_lt_pow2 _ _ _ Hy Ha')].
    rewrite (N.lxor_comm y a), (N.lxor_comm y a') in Heq.
    exact (Hne (lxor_cancel_r _ _ _ Heq)).
  - exact (IH _ Hl Hl' (step_lt y a)).
Qed.

Lemma ghash_one_change (xs xs' : list N) :
  one_change xs xs' ->
  Forall (fun x => x < 2 ^ 128) xs -> Forall (fun x => x < 2 ^ 128) xs' ->
  ghash H xs <> ghash H xs'.
Proof.
  intros Hch Hall Hall'.
  exact (ghash_from_one_change xs xs' 0 Hch Hall Hall' eq_refl).
Qed.

End WithSubkey.

(** *** The blocks of a changed ciphertext *)

Lemma to_N_inj (a b : byte) : Byte.to_N a = Byte.to_N b -> a = b.
Proof.
  intro H. rewrite <- (byte_of_to_N a), <- (byte_of_to_N b). now rewrite H.
Qed.

Lemma block_of_eq (chunk : bytes) :
  block_of chunk
  = be_N (map Byte.to_N chunk) * 256 ^ N.of_nat (16 - length chunk).
Proof. reflexivity. Qed.

Lemma block_of_lt (chunk : bytes) :
  (length chunk <= 16)%nat -> block_of chunk < 2 ^ 128.
Proof.
  intro Hlen. rewrite block_of_eq, <- pow_256_16.
  replace (N.of_nat 16) with (N.of_nat (length chunk) + N.of_nat (16 - length chunk))
    by lia.
  rewrite N.pow_add_r.
  apply N.mul_lt_mono_pos_r.
  - apply N.neq_0_lt_0, N.pow_nonzero. lia.
  - apply be_N_lt, map_to_N_byte_list.
Qed.

Lemma block_of_one_change (chunk chunk' : bytes) :
  one_change chunk chunk' -> block_of chunk <> block_of chunk'.
Proof.
  intros Hch Heq. rewrite !block_of_eq in Heq.
  pose proof (one_change_length _ _ Hch) as Hlen. rewrite <- Hlen in Heq.
  apply N.mul_cancel_r in Heq; [|apply N.pow_nonzero; lia].
  apply (be_N_inj (length chunk)) in Heq.
  - apply (one_change_neq _ _ (one_change_map Byte.to_N _ _ to_N_inj Hch)), Heq.
  - apply map_to_N_byte_list.
  - rewrite Hlen. apply map_to_N_byte_list.
Qed.

Lemma blocks_cons (n : nat) (data : bytes) :
  blocks (S n) data = block_of (firstn 16 data) :: blocks n (skipn 16 data).
Proof. reflexivity. Qed.

Lemma blocks_lt (n : nat) (data : bytes) :
  Forall (fun x => x < 2 ^ 128) (blocks n data).
Proof.
  revert data. induction n as [|n IH]; intro data; [constructor|].
  rewrite blocks_cons. constructor; [|apply IH].
  apply block_of_lt. rewrite length_firstn. lia.
Qed.

(** A change of one byte of the data changes one of its blocks. *)
Lemma blocks_one_change (n : nat) (c c' : bytes) :
  one_change c c' -> (length c <= 16 * n)%nat ->
  one_change (blocks n c) (blocks n c').
Proof.
  revert c c'. induction n as [|n IH]; intros c c' Hch Hlen.
  - destruct Hch; cbn [length] in Hlen; lia.
  - rewrite !blocks_cons.
    destruct (one_change_cut 16 c c' Hch) as [[Hf Hs] | [Hf Hs]].
    + rewrite Hf. apply change_later, IH; [exact Hs|].
      rewrite length_skipn. lia.
    + rewrite Hs. apply change_here. now apply block_of_one_change.
Qed.

Lemma bitlen_lt (data : bytes) : bitlen data < 2 ^ 128.
Proof.
  unfold bitlen.
  apply N.lt_trans with (2 ^ 64); [|reflexivity].
  apply N.mod_upper_bound. discriminate.
Qed.

(** *** The tag *)

Lemma tag_eq (E : N -> N) (iv c : bytes) :
  tag E iv c
  = map byte_of_N
      (N_be 16 (N.lxor (ghash (GCM.H E) (blocks (nblocks c) c ++ [bitlen c]))
                       (E (J0 E iv)))).
Proof. reflexivity. Qed.

Lemma block_bytes_inj (a b : N) :
  a < 2 ^ 128 -> b < 2 ^ 128 ->
  map byte_of_N (N_be 16 a) = map byte_of_N (N_be 16 b) -> a = b.
Proof.
  intros Ha Hb Heq. apply (f_equal (map Byte.to_N)) in Heq.
  rewrite !Utf8Facts.map_to_N_byte_of_N in Heq
    by (apply (N_be_byte_list 16)).
  rewrite <- pow_256_16 in Ha, Hb.
  exact (N_be_inj 16 a b Ha Hb Heq).
Qed.

Lemma J0_12 (E : N -> N) (iv : bytes) :
  length iv = 12%nat -> J0 E iv = be_N (map Byte.to_N iv) * 2 ^ 32 + 1.
Proof. intro Hlen. unfold J0. now rewrite Hlen. Qed.

Lemma J0_12_lt (E : N -> N) (iv : bytes) :
  length iv = 12%nat -> J0 E iv < 2 ^ 128.
Proof.
  intro Hlen. rewrite (J0_12 E iv Hlen).
  pose proof (be_N_lt 12 (map Byte.to_N iv)) as Hlt.
  rewrite <- Hlen in Hlt at 1. specialize (Hlt (map_to_N_byte_list iv)).
  change (256 ^ N.of_nat 12) with 79228162514264337593543950336 in Hlt.
  change (2 ^ 32) with 4294967296.
  change (2 ^ 128) with 340282366920938463463374607431768211456.
  lia.
Qed.

Section WithKey.

Variable key : bytes.
Hypothesis key_length : length key = 32%nat.

Lemma subkey_lt : GCM.H (aes256 key) < 2 ^ 128.
Proof. exact (aes256_lt key 0 key_length). Qed.

Lemma ghash_lt (xs : list N) : ghash (GCM.H (aes256 key)) xs < 2 ^ 128.
Proof. exact (ghash_fold_lt _ subkey_lt xs 0 eq_refl). Qed.

Lemma masked_lt (s x : N) : s < 2 ^ 128 -> N.lxor s (aes256 key x) < 2 ^ 128.
Proof.
  intro Hs. exact (lxor_lt_pow2 _ _ 128 Hs (aes256_lt key x key_length)).
Qed.

(** With an invertible subkey, a change of one byte of the ciphertext
    changes the tag. *)
Lemma tag_ciphertext_change (iv c c' : bytes) :
  subkey_invertible key -> one_change c c' ->
  tag (aes256 key) iv c <> tag (aes256 key) iv c'.
Proof.
  intros [Hinv Hok] Hch Heq. rewrite !tag_eq in Heq.
  apply block_bytes_inj in Heq; try (apply masked_lt, ghash_lt).
  apply lxor_cancel_r in Heq. revert Heq.
  pose proof (one_change_length _ _ Hch) as Hlen.
  unfold nblocks, bitlen. rewrite <- Hlen.
  apply (ghash_one_change _ Hinv subkey_lt Hok).
  - apply one_change_app, blocks_one_change; [exact Hch|].
    apply nblocks_bound.
  - apply Forall_app. split; [apply blocks_lt|].
    constructor; [apply bitlen_lt | constructor].
  - apply Forall_app. split; [apply blocks_lt|].
    constructor; [|constructor].
    rewrite Hlen. apply bitlen_lt.
Qed.

(** Two different nonces of twelve bytes give different tags to the same
    ciphertext. *)
Lemma tag_nonce_change (iv iv' c : bytes) :
  length iv = 12%nat -> length iv' = 12%nat -> iv <> iv' ->
  tag (aes256 key) iv c <> tag (aes256 key) iv' c.
Proof.
  intros Hlen Hlen' Hne Heq.
  rewrite !tag_eq in Heq.
  apply block_bytes_inj in Heq; try (apply masked_lt, ghash_lt).
  rewrite N.lxor_comm, (N.lxor_comm (ghash _ _)) in Heq.
  apply lxor_cancel_r in Heq.
  apply (aes256_inj key _ _ key_length (J0_12_lt _ iv Hlen)
           (J0_12_lt _ iv' Hlen')) in Heq.
  rewrite (J0_12 _ iv Hlen), (J0_12 _ iv' Hlen') in Heq.
  assert (Hbe : be_N (map Byte.to_N iv) = be_N (map Byte.to_N iv')) by lia.
  apply (be_N_inj 12) in Hbe.
  - apply Hne. rewrite <- (map_byte_of_to_N iv), <- (map_byte_of_to_N iv').
    now rewrite Hbe.
  - rewrite <- Hlen. apply map_to_N_byte_list.
  - rewrite <- Hlen'. apply map_to_N_byte_list.
Qed.

End WithKey.

End TamperFacts.

(** ** Claim on tampering *)

Module TamperClaims.
Import Base64 TransportFacts GCMFacts EncryptionFacts TamperFacts.

Lemma bytes_eqb_neq (a b : bytes) : a <> b -> bytes_eqb a b = false.
Proof.
  intro H. destruct (bytes_eqb a b) eqn:E; [|reflexivity].
  apply bytes_eqb_eq in E. contradiction.
Qed.

(** [decrypt] on fields that decode to a nonce of twelve bytes and a tag
    of sixteen which is not the tag of the ciphertext. *)
Lemma decrypt_wrong_tag (environ : option str) (key : bytes)
  (c_b64 i_b64 t_b64 : str) (c n t : bytes) :
  _load_key environ = Ok key ->
  b64decode c_b64 = Ok c -> b64decode i_b64 = Ok n -> b64decode t_b64 = Ok t ->
  length n = 12%nat -> length t = 16%nat ->
  GCM.tag (aes256 key) n c <> t ->
  decrypt environ c_b64 i_b64 t_b64 = Raise InvalidTag
  /\ decrypt_endpoint environ
       {| ciphertext := c_b64; iv := i_b64; tag := t_b64 |}
     = HTTPException 422.
Proof.
  intros Hkey Hc Hi Ht Hn Hlen Htag.
  assert (Hdec : decrypt environ c_b64 i_b64 t_b64 = Raise InvalidTag).
  { rewrite (decrypt_decoded _ _ _ _ _ _ _ _ Hkey Hc Hi Ht).
    rewrite aesgcm_decrypt_split by (try exact Hlen; lia).
    unfold GCM.open. rewrite (bytes_eqb_neq _ _ Htag). reflexivity. }
  split; [exact Hdec|].
  unfold decrypt_endpoint. cbn [ciphertext iv tag]. now rewrite Hdec.
Qed.

(** C2, as amended (tamper detection).  Take the envelope that [encrypt]
    returns under a valid key and the bytes its three fields decode to.
    Texts that decode to the same bytes decrypt to the plaintext.  A
    ciphertext field that decodes to the ciphertext with one bit flipped
    makes [decrypt] fail with [InvalidTag], answered 422, when the hash
    subkey of the key is invertible; so do, for every key, a nonce field
    and a tag field that decode to the nonce and to the tag with one bit
    flipped. *)
Theorem C2_tamper_detection (environ : option str) (key : bytes)
  (plaintext : str) (data : bytes) (rnd : random) :
  _load_key environ = Ok key ->
  Utf8.encode plaintext = Ok data ->
  exists env c n t,
    fst (encrypt environ plaintext rnd) = Ok env
    /\ b64decode (ciphertext env) = Ok c
    /\ b64decode (iv env) = Ok n
    /\ b64decode (tag env) = Ok t
    /\ (forall c_b64 i_b64 t_b64,
          b64decode c_b64 = Ok c -> b64decode i_b64 = Ok n ->
          b64decode t_b64 = Ok t ->
          decrypt environ c_b64 i_b64 t_b64 = Ok plaintext)
    /\ (subkey_invertible key ->
        forall i c_b64,
          (i < 8 * length c)%nat -> b64decode c_b64 = Ok (flip_bit c i) ->
          decrypt environ c_b64 (iv env) (tag env) = Raise InvalidTag
          /\ decrypt_endpoint environ
               {| ciphertext := c_b64; iv := iv env; tag := tag env |}
             = HTTPException 422)
    /\ (forall i i_b64,
          (i < 8 * length n)%nat -> b64decode i_b64 = Ok (flip_bit n i) ->
          decrypt environ (ciphertext env) i_b64 (tag env) = Raise InvalidTag
          /\ decrypt_endpoint environ
               {| ciphertext := ciphertext env; iv := i_b64; tag := tag env |}
             = HTTPException 422)
    /\ (forall i t_b64,
          (i < 8 * length t)%nat -> b64decode t_b64 = Ok (flip_bit t i) ->
          decrypt environ (ciphertext env) (iv env) t_b64 = Raise InvalidTag
          /\ decrypt_endpoint environ
               {| ciphertext := ciphertext env; iv := iv env; tag := t_b64 |}
             = HTTPException 422).
Proof.
  intros Hkey Hdata.
  pose proof (load_key_length _ _ Hkey) as Hklen.
  rewrite (encrypt_ok _ _ _ _ rnd Hkey Hdata). cbn [fst].
  set (n := map rnd (seq 0 12)).
  set (c := GCM.crypt (aes256 key) n data).
  set (t := GCM.tag (aes256 key) n c).
  assert (Hn : length n = 12%nat)
    by (unfold n; now rewrite length_map, length_seq).
  assert (Ht : length t = 16%nat) by apply tag_length.
  exists {| ciphertext := b64text c; iv := b64text n; tag := b64text t |},
    c, n, t.
  cbn [ciphertext iv tag].
  split; [reflexivity|].
  split; [apply b64decode_b64encode|].
  split; [apply b64decode_b64encode|].
  split; [apply b64decode_b64encode|].
  split; [|split; [|split]].
  - intros c_b64 i_b64 t_b64 Hc Hi Htd.
    rewrite (decrypt_decoded _ _ _ _ _ _ _ _ Hkey Hc Hi Htd).
    rewrite aesgcm_decrypt_split by (try exact Ht; lia).
    unfold t, c. rewrite open_seal. cbn [bind].
    now apply Utf8Facts.decode_encode.
  - intros Hinv i c_b64 Hi Hc.
    apply (decrypt_wrong_tag environ key c_b64 _ _ (flip_bit c i) n t Hkey Hc
             (b64decode_b64encode n) (b64decode_b64encode t) Hn Ht).
    intro Heq.
    apply (tag_ciphertext_change key Hklen n c (flip_bit c i) Hinv
             (flip_bit_change c i Hi)).
    symmetry. exact Heq.
  - intros i i_b64 Hi Hid.
    pose proof (flip_bit_change n i Hi) as Hch.
    apply (decrypt_wrong_tag environ key _ i_b64 _ c (flip_bit n i) t Hkey
             (b64decode_b64encode c) Hid (b64decode_b64encode t)).
    + rewrite <- (one_change_length _ _ Hch). exact Hn.
    + exact Ht.
    + intro Heq.
      apply (tag_nonce_change key Hklen n (flip_bit n i) c Hn).
      * rewrite <- (one_change_length _ _ Hch). exact Hn.
      * exact (one_change_neq _ _ Hch).
      * symmetry. exact Heq.
  - intros i t_b64 Hi Htd.
    pose proof (flip_bit_change t i Hi) as Hch.
    apply (decrypt_wrong_tag environ key _ _ t_b64 c n (flip_bit t i) Hkey
             (b64decode_b64encode c) (b64decode_b64encode n) Htd Hn).
    + rewrite <- (one_change_length _ _ Hch). exact Ht.
    + exact (one_change_neq _ _ Hch).
Qed.

(** The hash subkey of the sample key is invertible. *)
Lemma sample_subkey_invertible : subkey_invertible Sample.key.
Proof.
  exists Sample.subkey_inverse. intros j Hj.
  assert (Hall : forallb (fun j =>
            GCM.gf_mul (GCM.gf_mul (2 ^ N.of_nat j)
                          (GCM.H (aes256 Sample.key))) Sample.subkey_inverse
            =? 2 ^ N.of_nat j) (seq 0 128) = true)
    by (vm_compute; reflexivity).
  rewrite forallb_forall in Hall.
  apply N.eqb_eq. apply (Hall j). apply in_seq. lia.
Qed.

Lemma C2_tamper_detection_witness :
  subkey_invertible Sample.key
  /\ exists env c n t,
    fst (encrypt Sample.environ (lit "hi") Sample.counting) = Ok env
    /\ b64decode (ciphertext env) = Ok c
    /\ b64decode (iv env) = Ok n
    /\ b64decode (tag env) = Ok t
    /\ (forall c_b64 i_b64 t_b64,
          b64decode c_b64 = Ok c -> b64decode i_b64 = Ok n ->
          b64decode t_b64 = Ok t ->
          decrypt Sample.environ c_b64 i_b64 t_b64 = Ok (lit "hi"))
    /\ (subkey_invertible Sample.key ->
        forall i c_b64,
          (i < 8 * length c)%nat -> b64decode c_b64 = Ok (flip_bit c i) ->
          decrypt Sample.environ c_b64 (iv env) (tag env) = Raise InvalidTag
          /\ decrypt_endpoint Sample.environ
               {| ciphertext := c_b64; iv := iv env; tag := tag env |}
             = HTTPException 422)
    /\ (forall i i_b64,
          (i < 8 * length n)%nat -> b64decode i_b64 = Ok (flip_bit n i) ->
          decrypt Sample.environ (ciphertext env) i_b64 (tag env)
          = Raise InvalidTag
          /\ decrypt_endpoint Sample.environ
               {| ciphertext := ciphertext env; iv := i_b64; tag := tag env |}
             = HTTPException 422)
    /\ (forall i t_b64,
          (i < 8 * length t)%nat -> b64decode t_b64 = Ok (flip_bit t i) ->
          decrypt Sample.environ (ciphertext env) (iv env) t_b64
          = Raise InvalidTag
          /\ decrypt_endpoint Sample.environ
               {| ciphertext := ciphertext env; iv := iv env; tag := t_b64 |}
             = HTTPException 422).
Proof.
  split; [exact sample_subkey_invertible|].
  apply (C2_tamper_detection Sample.environ Sample.key (lit "hi")
           (map byte_of_N [104; 105]) Sample.counting).
  - vm_compute. reflexivity.
  - vm_compute. reflexivity.
Defined.

(** The envelope of "hi": with the second bit of the last character of
    the tag text flipped (Q becomes S) the tag decodes to the same
    bytes and [decrypt] returns the text; with the low bit of the last
    pad character flipped the tag text no longer decodes and [decrypt]
    fails with [binascii.Error], not with [InvalidTag]. *)
Lemma C2_counterexample :
  fst (encrypt Sample.environ (lit "hi") Sample.counting)
  = Ok Sample.envelope_hi
  /\ flip_text_bit (tag Sample.envelope_hi) 21 1
     = lit "5VyUdW6uAOeNWe5clzaOUS=="
  /\ decrypt Sample.environ (ciphertext Sample.envelope_hi)
       (iv Sample.envelope_hi) (flip_text_bit (tag Sample.envelope_hi) 21 1)
     = Ok (lit "hi")
  /\ flip_text_bit (tag Sample.envelope_hi) 23 0
     = lit "5VyUdW6uAOeNWe5clzaOUQ=<"
  /\ decrypt Sample.environ (ciphertext Sample.envelope_hi)
       (iv Sample.envelope_hi) (flip_text_bit (tag Sample.envelope_hi) 23 0)
     = Raise BinasciiError.
Proof. repeat split; vm_compute; reflexivity. Qed.

End TamperClaims.

Module NonceClaims.
Import Base64 TransportFacts GCMFacts EncryptionFacts TamperFacts.

(** C8, as amended (nonce freshness).  The nonce of an invocation is
    the next twelve bytes of the random source, whatever the text and
    the key are; the invocation after it draws the twelve bytes that
    follow; when the two draws differ, so do the two nonce fields, and,
    for the same key and text, so do the two tags if the two ciphertexts
    are the same. *)
Theorem C8_nonce_is_the_random_draw
  (environ environ' : option str) (key key' : bytes)
  (plaintext plaintext' : str) (data data' : bytes) (rnd : random) :
  _load_key environ = Ok key -> Utf8.encode plaintext = Ok data ->
  _load_key environ' = Ok key' -> Utf8.encode plaintext' = Ok data' ->
  exists env env' rnd',
    encrypt environ plaintext rnd = (Ok env, rnd')
    /\ fst (encrypt environ' plaintext' rnd') = Ok env'
    /\ b64decode (iv env) = Ok (map rnd (seq 0 12))
    /\ b64decode (iv env') = Ok (map rnd (seq 12 12))
    /\ (map rnd (seq 0 12) <> map rnd (seq 12 12) -> iv env <> iv env')
    /\ (map rnd (seq 0 12) <> map rnd (seq 12 12) ->
        key' = key -> data' = data ->
        ciphertext env = ciphertext env' -> tag env <> tag env').
Proof.
  intros Hkey Hdata Hkey' Hdata'.
  rewrite (encrypt_ok _ _ _ _ rnd Hkey Hdata).
  do 3 eexists. split; [reflexivity|].
  rewrite (encrypt_ok _ _ _ _ _ Hkey' Hdata'). cbn [fst iv].
  split; [reflexivity|].
  split; [apply b64decode_b64encode|].
  split; [apply (b64decode_b64encode (map rnd (seq 12 12)))|].
  split.
  - intros Hneq Heq. apply Hneq. cbn [iv] in Heq.
    now apply b64text_inj in Heq.
  - intros Hneq -> -> Hc Ht. cbn [ciphertext tag] in Hc, Ht.
    apply b64text_inj in Hc. apply b64text_inj in Ht.
    rewrite <- Hc in Ht. revert Ht.
    apply (tag_nonce_change key (load_key_length _ _ Hkey)).
    + now rewrite length_map, length_seq.
    + now rewrite length_map, length_seq.
    + exact Hneq.
Qed.

Lemma C8_nonce_is_the_random_draw_witness :
  exists env env' rnd',
    encrypt Sample.environ (lit "a") Sample.counting = (Ok env, rnd')
    /\ fst (encrypt Sample.environ (lit "a") rnd') = Ok env'
    /\ b64decode (iv env) = Ok (map Sample.counting (seq 0 12))
    /\ b64decode (iv env') = Ok (map Sample.counting (seq 12 12))
    /\ (map Sample.counting (seq 0 12) <> map Sample.counting (seq 12 12)
        -> iv env <> iv env')
    /\ (map Sample.counting (seq 0 12) <> map Sample.counting (seq 12 12) ->
        Sample.key = Sample.key ->
        map byte_of_N [97] = map byte_of_N [97] ->
        ciphertext env = ciphertext env' -> tag env <> tag env').
Proof.
  apply (C8_nonce_is_the_random_draw Sample.environ Sample.environ
           Sample.key Sample.key (lit "a") (lit "a")
           (map byte_of_N [97]) (map byte_of_N [97]));
    vm_compute; reflexivity.
Defined.

(** Two successive invocations with the same key and the same text
    "a", the source giving first the nonce that ends in 03 and then the
    one that ends in 0f: the nonces differ and the ciphertexts are the
    same. *)
Lemma C8_counterexample :
  let rnd := Sample.tape (Sample.nonce_3 ++ Sample.nonce_f) in
  let first := encrypt Sample.environ (lit "a") rnd in
  let second := encrypt Sample.environ (lit "a") (snd first) in
  fst first = Ok {| ciphertext := lit "yg==";
                    iv := lit "AAAAAAAAAAAAAAAD";
                    tag := lit "Zd3qaWYyMwMViHOU3lI3fA==" |}
  /\ fst second = Ok {| ciphertext := lit "yg==";
                        iv := lit "AAAAAAAAAAAAAAAP";
                        tag := lit "R+FUk0YQXPtHrrimNa7J1A==" |}.
Proof. split; vm_compute; reflexivity. Qed.

End NonceClaims.

(** ** UTF-8 in the other direction *)

Module Utf8Inverse.
Import Utf8 Utf8Facts.

Lemma emit_ok {A : Type} (a : A) (m : result (list A)) (l : list A) :
  emit a m = Ok l -> exists l', m = Ok l' /\ l = a :: l'.
Proof.
  unfold emit. destruct m as [l'|e]; cbn [bind]; [|discriminate].
  intros [= <-]. now exists l'.
Qed.

Lemma is_cont_range (b : N) : is_cont b = true -> 0x80 <= b < 0xC0.
Proof.
  unfold is_cont. intro H. apply andb_prop in H. destruct H as [H1 H2].
  apply N.leb_le in H1. apply N.ltb_lt in H2. lia.
Qed.

Lemma encode_char_1 (b0 : N) : b0 < 0x80 -> encode_char b0 = Some [b0].
Proof. intro H. unfold encode_char. apply N.ltb_lt in H. now rewrite H. Qed.

Lemma encode_char_2 (b0 b1 : N) :
  0xC0 <= b0 < 0xE0 -> 0x80 <= b1 < 0xC0 ->
  let c := (b0 - 0xC0) * 64 + (b1 - 0x80) in
  0x80 <= c -> encode_char c = Some [b0; b1].
Proof.
  intros H0 H1 c Hc. unfold encode_char.
  destruct (N.ltb_spec c 0x80); [lia|].
  destruct (N.ltb_spec c 0x800); [|subst c; lia].
  subst c. do 2 f_equal; [divlia|]. f_equal. divlia.
Qed.

Lemma encode_char_3 (b0 b1 b2 : N) :
  0xE0 <= b0 < 0xF0 -> 0x80 <= b1 < 0xC0 -> 0x80 <= b2 < 0xC0 ->
  let c := (b0 - 0xE0) * 4096 + (b1 - 0x80) * 64 + (b2 - 0x80) in
  0x800 <= c -> is_surrogate c = false ->
  encode_char c = Some [b0; b1; b2].
Proof.
  intros H0 H1 H2 c Hc Hs. unfold encode_char. rewrite Hs.
  destruct (N.ltb_spec c 0x80); [lia|].
  destruct (N.ltb_spec c 0x800); [lia|].
  destruct (N.ltb_spec c 0x10000); [|subst c; lia].
  subst c. do 2 f_equal; [divlia|]. f_equal; [divlia|]. f_equal. divlia.
Qed.

Lemma encode_char_4 (b0 b1 b2 b3 : N) :
  0xF0 <= b0 < 0xF8 -> 0x80 <= b1 < 0xC0 -> 0x80 <= b2 < 0xC0 ->
  0x80 <= b3 < 0xC0 ->
  let c := (b0 - 0xF0) * 262144 + (b1 - 0x80) * 4096 + (b2 - 0x80) * 64
           + (b3 - 0x80) in
  0x10000 <= c < 0x110000 ->
  encode_char c = Some [b0; b1; b2; b3].
Proof.
  intros H0 H1 H2 H3 c Hc. unfold encode_char.
  destruct (N.ltb_spec c 0x80); [lia|].
  destruct (N.ltb_spec c 0x800); [lia|].
  destruct (N.ltb_spec c 0x10000); [lia|].
  destruct (N.ltb_spec c 0x110000); [|lia].
  subst c. do 2 f_equal; [divlia|]. f_equal; [divlia|]. f_equal; [divlia|].
  f_equal. divlia.
Qed.

Lemma encode_char_scalar (c : N) (l : list N) :
  encode_char c = Some l -> scalar c.
Proof.
  unfold encode_char, scalar.
  destruct (N.ltb_spec c 0x80).
  { intros _. split; [lia|]. unfold is_surrogate.
    destruct (N.leb_spec 0xD800 c); [lia | reflexivity]. }
  destruct (N.ltb_spec c 0x800).
  { intros _. split; [lia|]. unfold is_surrogate.
    destruct (N.leb_spec 0xD800 c); [lia | reflexivity]. }
  destruct (N.ltb_spec c 0x10000).
  { destruct (is_surrogate c); [discriminate|]. intros _. split; [lia|].
    reflexivity. }
  destruct (N.ltb_spec c 0x110000); [|discriminate].
  intros _. split; [lia|]. unfold is_surrogate.
  destruct (N.leb_spec c 0xDFFF); [lia|]. now rewrite andb_false_r.
Qed.

(** One more character in front of a text that encodes. *)
Lemma encode_cons (c : N) (l : list N) (s : str) (bs : list N) :
  encode_char c = Some l -> encode s = Ok (map byte_of_N bs) ->
  encode (c :: s) = Ok (map byte_of_N (l ++ bs)).
Proof.
  intros Hc Hs. cbn [encode]. rewrite Hc, Hs. cbn [bind].
  now rewrite map_app.
Qed.

(** What decodes is the encoding of what it decodes to, and is made of
    scalar values. *)
Lemma encode_decode_N (n : nat) (bs : list N) (s : str) :
  (length bs <= n)%nat -> Forall (fun b => b < 256) bs ->
  decode_N bs = Ok s ->
  encode s = Ok (map byte_of_N bs) /\ Forall scalar s.
Proof.
  revert bs s. induction n as [|n IH]; intros bs s Hlen Hbytes.
  { destruct bs; [|cbn in Hlen; lia]. intros [= <-]. now split. }
  destruct bs as [|b0 r0]; [intros [= <-]; now split|].
  cbn [decode_N].
  assert (Hstep : forall c l r s',
            b0 :: r0 = l ++ r -> encode_char c = Some l ->
            (length r <= n)%nat -> decode_N r = Ok s' ->
            encode (c :: s') = Ok (map byte_of_N (b0 :: r0))
            /\ Forall scalar (c :: s')).
  { intros c l r s' Hsplit Hc Hr Hdec.
    assert (Hrb : Forall (fun b => b < 256) r).
    { rewrite Hsplit in Hbytes. now apply Forall_app in Hbytes. }
    destruct (IH r s' Hr Hrb Hdec) as [He Hsc].
    split.
    - rewrite Hsplit. now apply encode_cons.
    - constructor; [now apply (encode_char_scalar c l)|exact Hsc]. }
  cbn [length] in Hlen.
  destruct (N.ltb_spec b0 0x80) as [H0|H0].
  { intro H. apply emit_ok in H. destruct H as (s' & Hdec & ->).
    apply (Hstep b0 [b0] r0 s'); auto using encode_char_1. lia. }
  destruct (N.ltb_spec b0 0xC0) as [H1|H1]; [discriminate|].
  destruct r0 as [|b1 r1]; [discriminate|].
  destruct (is_cont b1) eqn:C1; cbn [negb]; [|discriminate].
  apply is_cont_range in C1. cbn [length] in Hlen.
  destruct (N.ltb_spec b0 0xE0) as [H2|H2].
  { destruct (N.leb_spec 0x80 ((b0 - 0xC0) * 64 + (b1 - 0x80))) as [Hc|Hc];
      [|discriminate].
    intro H. apply emit_ok in H. destruct H as (s' & Hdec & ->).
    apply (Hstep _ [b0; b1] r1 s'); auto; [|lia].
    apply encode_char_2; auto. }
  destruct r1 as [|b2 r2]; [discriminate|].
  destruct (is_cont b2) eqn:C2; cbn [negb]; [|discriminate].
  apply is_cont_range in C2. cbn [length] in Hlen.
  destruct (N.ltb_spec b0 0xF0) as [H3|H3].
  { destruct (N.leb_spec 0x800
                ((b0 - 0xE0) * 4096 + (b1 - 0x80) * 64 + (b2 - 0x80)))
      as [Hc|Hc]; cbn [andb]; [|discriminate].
    destruct (is_surrogate _) eqn:Hs; cbn [negb]; [discriminate|].
    intro H. apply emit_ok in H. destruct H as (s' & Hdec & ->).
    apply (Hstep _ [b0; b1; b2] r2 s'); auto; [|lia].
    apply encode_char_3; auto. }
  destruct r2 as [|b3 r3]; [discriminate|].
  destruct (is_cont b3) eqn:C3; cbn [negb]; [|discriminate].
  apply is_cont_range in C3. cbn [length] in Hlen.
  destruct (N.ltb_spec b0 0xF8) as [H4|H4]; [|discriminate].
  match goal with |- context [0x10000 <=? ?c] =>
    destruct (N.leb_spec 0x10000 c) as [Hc|Hc]; cbn [andb]; [|discriminate];
    destruct (N.ltb_spec c 0x110000) as [Hd|Hd]; [|discriminate] end.
  intro H. apply emit_ok in H. destruct H as (s' & Hdec & ->).
  apply (Hstep _ [b0; b1; b2; b3] r3 s'); auto; [|lia].
  apply encode_char_4; auto.
Qed.

Lemma encode_decode (data : bytes) (s : str) :
  decode data = Ok s -> encode s = Ok data /\ Forall scalar s.
Proof.
  unfold decode. intro H.
  destruct (encode_decode_N (length (map Byte.to_N data)) _ s (le_n _)) as [He Hs].
  - apply Forall_forall. intros b Hin. apply in_map_iff in Hin.
    destruct Hin as (x & <- & _). apply to_N_lt.
  - exact H.
  - now rewrite map_byte_of_to_N in He.
Qed.

Lemma decode_N_raises (n : nat) (bs : list N) (e : exn) :
  (length bs <= n)%nat -> decode_N bs = Raise e -> e = UnicodeDecodeError.
Proof.
  revert bs. induction n as [|n IH]; intros bs Hlen.
  { destruct bs; [discriminate | cbn in Hlen; lia]. }
  assert (Hemit : forall c r, (length r <= n)%nat ->
            emit c (decode_N r) = Raise e -> e = UnicodeDecodeError).
  { intros c r Hr. unfold emit.
    destruct (decode_N r) eqn:E; cbn [bind]; [discriminate|].
    intros [= <-]. now apply (IH r). }
  destruct bs as [|b0 r0]; [discriminate|].
  cbn [decode_N]. cbn [length] in Hlen.
  destruct (b0 <? 0x80); [apply Hemit; lia|].
  destruct (b0 <? 0xC0); [now intros [= <-]|].
  destruct r0 as [|b1 r1]; [now intros [= <-]|]. cbn [length] in Hlen.
  destruct (negb (is_cont b1)); [now intros [= <-]|].
  destruct (b0 <? 0xE0).
  { destruct (0x80 <=? _); [apply Hemit; lia | now intros [= <-]]. }
  destruct r1 as [|b2 r2]; [now intros [= <-]|]. cbn [length] in Hlen.
  destruct (negb (is_cont b2)); [now intros [= <-]|].
  destruct (b0 <? 0xF0).
  { destruct (_ && _); [apply Hemit; lia | now intros [= <-]]. }
  destruct r2 as [|b3 r3]; [now intros [= <-]|]. cbn [length] in Hlen.
  destruct (negb (is_cont b3)); [now intros [= <-]|].
  destruct (b0 <? 0xF8); [|now intros [= <-]].
  destruct (_ && _); [apply Hemit; lia | now intros [= <-]].
Qed.

Lemma decode_raises (data : bytes) (e : exn) :
  decode data = Raise e -> e = UnicodeDecodeError.
Proof. apply (decode_N_raises (length (map Byte.to_N data))). lia. Qed.

(** [encode] fails on the texts that hold a code point that is not a
    scalar value, and on no others. *)
Lemma encode_raises (s : str) (e : exn) :
  encode s = Raise e -> e = UnicodeEncodeError /\ ~ Forall scalar s.
Proof.
  induction s as [|c s IH]; cbn [encode]; [discriminate|].
  destruct (encode_char c) as [l|] eqn:Ec.
  - destruct (encode s) as [tl|e'] eqn:Es; cbn [bind]; [discriminate|].
    intros [= <-]. destruct (IH eq_refl) as [-> Hn].
    split; [reflexivity|]. intro Hall. apply Hn. now inversion Hall.
  - intros [= <-]. split; [reflexivity|]. intro Hall.
    inversion Hall as [|? ? Hc _]; subst.
    destruct (encode_total [c] (Forall_cons c Hc (Forall_nil _))) as [d Hd].
    cbn [encode] in Hd. now rewrite Ec in Hd.
Qed.

End Utf8Inverse.

(** ** The two endpoints of [routers/encrypt.py] *)

Module EndpointFacts.
Import Base64 TransportFacts GCMFacts EncryptionFacts Utf8Facts Utf8Inverse.

(** A text that is not made of scalar values does not encode. *)
Lemma encode_fails (s : str) :
  ~ Forall Utf8.scalar s -> Utf8.encode s = Raise UnicodeEncodeError.
Proof.
  intro Hn. destruct (Utf8.encode s) as [d|e] eqn:E.
  - elim Hn. apply decode_encode in E. now apply encode_decode in E.
  - now destruct (encode_raises _ _ E) as [-> _].
Qed.

(** What [encrypt] does under a key that loads when the text does not
    encode: the nonce has been drawn. *)
Lemma encrypt_unencodable (environ : option str) (key : bytes)
  (plaintext : str) (rnd : random) :
  _load_key environ = Ok key -> ~ Forall Utf8.scalar plaintext ->
  encrypt environ plaintext rnd
  = (Raise UnicodeEncodeError, fun i => rnd (12 + i)%nat).
Proof.
  intros Hkey Hn. unfold encrypt. rewrite Hkey. cbn [bind].
  rewrite (new_ok key (load_key_length _ _ Hkey)).
  unfold token_bytes. now rewrite (encode_fails _ Hn).
Qed.

(** [decrypt] of the envelope that [encrypt] made. *)
Lemma decrypt_encrypted (environ : option str) (key : bytes)
  (plaintext : str) (data nonce : bytes) :
  _load_key environ = Ok key -> Utf8.encode plaintext = Ok data ->
  length nonce = 12%nat ->
  let c := GCM.crypt (aes256 key) nonce data in
  decrypt environ (b64text c) (b64text nonce)
    (b64text (GCM.tag (aes256 key) nonce c)) = Ok plaintext.
Proof.
  intros Hkey Hdata Hn c.
  rewrite (decrypt_decoded environ key _ _ _ _ _ _ Hkey
             (b64decode_b64encode _) (b64decode_b64encode _)
             (b64decode_b64encode _)).
  rewrite aesgcm_decrypt_split; [|lia|apply tag_length].
  unfold c. rewrite open_seal. cbn [bind]. now apply decode_encode.
Qed.

(** What a successful [AESGCM.decrypt] says of its input. *)
Lemma aesgcm_decrypt_ok (key nonce data p : bytes) :
  AESGCM.decrypt key nonce data = Ok p ->
  AESGCM.encrypt key nonce p = Ok data /\ (16 <= length data)%nat.
Proof.
  unfold AESGCM.decrypt, AESGCM.encrypt.
  destruct (AESGCM.check_nonce nonce) as [[]|e]; cbn [bind]; [|discriminate].
  destruct (Nat.ltb_spec (length data) 16) as [Hs|Hl]; [discriminate|].
  set (n := (length data - 16)%nat). unfold GCM.open.
  destruct (bytes_eqb _ _) eqn:Ht; [|discriminate].
  apply bytes_eqb_eq in Ht. intros [= <-]. split; [|exact Hl].
  unfold GCM.seal. rewrite crypt_involutive, Ht. f_equal.
  apply firstn_skipn.
Qed.

Lemma load_key_raises (environ : option str) (e : exn) :
  _load_key environ = Raise e -> e <> InvalidTag.
Proof.
  unfold _load_key. destruct environ as [[|c s]|]; try (intros [= <-]; discriminate).
  destruct (Hex.fromhex (c :: s)) as [kb|e'] eqn:E; cbn [bind].
  - destruct (negb _); [|discriminate]. intros [= <-]. discriminate.
  - intros [= <-]. rewrite (KeyClaims.fromhex_raises _ _ E). discriminate.
Qed.

Lemma b64decode_not_tag (s : str) (e : exn) :
  b64decode s = Raise e -> e <> InvalidTag.
Proof.
  intro H. destruct (EnvelopeClaims.b64decode_raises _ _ H) as [-> | ->];
    discriminate.
Qed.

(** [decrypt] raises [InvalidTag] for no other reason than a failed
    check of the tag. *)
Lemma decrypt_invalid_tag (environ : option str) (c_b64 i_b64 t_b64 : str) :
  decrypt environ c_b64 i_b64 t_b64 = Raise InvalidTag
  <-> exists key c n t,
        _load_key environ = Ok key
        /\ b64decode c_b64 = Ok c /\ b64decode i_b64 = Ok n
        /\ b64decode t_b64 = Ok t
        /\ (8 <= length n <= 128)%nat
        /\ ((length c + length t < 16)%nat
            \/ let m := (length c + length t - 16)%nat in
               GCM.tag (aes256 key) n (firstn m (c ++ t))
               <> skipn m (c ++ t)).
Proof.
  split.
  - unfold decrypt.
    destruct (_load_key environ) as [key|e] eqn:Hkey; cbn [bind].
    2:{ intros [= ->]. now elim (load_key_raises _ _ Hkey). }
    rewrite (new_ok key (load_key_length _ _ Hkey)). cbn [bind].
    destruct (b64decode c_b64) as [c|e] eqn:Hc; cbn [bind].
    2:{ intros [= ->]. now elim (b64decode_not_tag _ _ Hc). }
    destruct (b64decode i_b64) as [n|e] eqn:Hi; cbn [bind].
    2:{ intros [= ->]. now elim (b64decode_not_tag _ _ Hi). }
    destruct (b64decode t_b64) as [t|e] eqn:Ht; cbn [bind].
    2:{ intros [= ->]. now elim (b64decode_not_tag _ _ Ht). }
    intro H. exists key, c, n, t. repeat (split; [reflexivity|]).
    revert H. unfold AESGCM.decrypt, AESGCM.check_nonce.
    destruct (Nat.ltb_spec (length n) 8); cbn [orb bind]; [discriminate|].
    destruct (Nat.ltb_spec 128 (length n)); cbn [bind]; [discriminate|].
    split; [lia|]. revert H1. rewrite length_app.
    destruct (Nat.ltb_spec (length c + length t) 16); [now left|].
    unfold GCM.open. destruct (bytes_eqb _ _) eqn:Htag; cbn [bind].
    + intro Hd. destruct (Utf8.decode _) eqn:Hu; [discriminate|].
      apply decode_raises in Hu. congruence.
    + intros _. right. intro Heq. cbn zeta in Heq.
      rewrite Heq, bytes_eqb_refl in Htag. discriminate.
  - intros (key & c & n & t & Hkey & Hc & Hi & Ht & Hn & Hbad).
    rewrite (decrypt_decoded _ _ _ _ _ _ _ _ Hkey Hc Hi Ht).
    unfold AESGCM.decrypt. rewrite check_nonce_ok by exact Hn. cbn [bind].
    rewrite length_app.
    destruct (Nat.ltb_spec (length c + length t) 16); [reflexivity|].
    destruct Hbad as [Hshort | Hdiff]; [lia|].
    unfold GCM.open. rewrite (TamperClaims.bytes_eqb_neq _ _ Hdiff).
    reflexivity.
Qed.

(** The length of a base64 text. *)
Lemma b64encode_length (data : bytes) :
  length (b64encode data) = (4 * ((length data + 2) / 3))%nat.
Proof.
  induction data as [|a|a b|a b c rest IH] using list_ind3;
    try reflexivity.
  cbn [b64encode length]. rewrite IH.
  replace (S (S (S (length rest))) + 2)%nat
    with (1 * 3 + (length rest + 2))%nat by lia.
  rewrite Nat.div_add_l by lia. lia.
Qed.

Lemma b64text_alphabet (data : bytes) :
  Forall (fun c => a2b c <> None \/ c = PAD) (b64text data).
Proof.
  assert (Hb : forall v, v < 64 -> a2b (Byte.to_N (b2a v)) <> None).
  { intros v Hv. destruct (Base64Facts.a2b_b2a v Hv) as [-> _]. discriminate. }
  induction data as [|a|a b|a b c rest IH] using list_ind3;
    [constructor | | |];
    pose proof (to_N_lt a); try pose proof (to_N_lt b);
    try pose proof (to_N_lt c); cbn [b64encode map];
    repeat first
      [ exact IH
      | apply Forall_nil
      | apply Forall_cons; [first [left; apply Hb; divlia | now right]|] ].
Qed.

End EndpointFacts.

Module EncryptionProperties.
Import Base64 TransportFacts GCMFacts EncryptionFacts Utf8Facts Utf8Inverse.
Import EndpointFacts.

(** X1 (round trip through the endpoints).  Under a valid key, what
    [encrypt_endpoint] replies to a text that is not empty is an
    envelope to which [decrypt_endpoint] replies that text; twelve
    random bytes have been drawn. *)
Theorem endpoint_round_trip (environ : option str) (key : bytes)
  (plaintext : str) (rnd : random) :
  _load_key environ = Ok key ->
  plaintext <> [] -> Forall Utf8.scalar plaintext ->
  exists env,
    encrypt_endpoint environ plaintext rnd
    = (Reply env, fun i => rnd (12 + i)%nat)
    /\ decrypt_endpoint environ env = Reply plaintext.
Proof.
  intros Hkey Hne Hs.
  destruct (encode_total plaintext Hs) as [data Hdata].
  unfold encrypt_endpoint. destruct plaintext as [|c s]; [now elim Hne|].
  rewrite (encrypt_ok _ _ _ _ rnd Hkey Hdata).
  eexists. split; [reflexivity|].
  unfold decrypt_endpoint. cbn [ciphertext iv tag].
  rewrite (decrypt_encrypted environ key (c :: s) data _ Hkey Hdata);
    [reflexivity|].
  now rewrite length_map, length_seq.
Qed.

Lemma endpoint_round_trip_witness :
  exists env,
    encrypt_endpoint Sample.environ (lit "hi") Sample.counting
    = (Reply env, fun i => Sample.counting (12 + i)%nat)
    /\ decrypt_endpoint Sample.environ env = Reply (lit "hi").
Proof.
  apply (endpoint_round_trip Sample.environ Sample.key).
  - vm_compute. reflexivity.
  - discriminate.
  - repeat constructor.
Defined.

(** X2 (what [encrypt_endpoint] answers).  Under a valid key the
    endpoint answers 400 to the empty text, before any random byte is
    drawn; it replies with an envelope to every other text of scalar
    values; and a text that holds a code point that is none, such as a
    lone surrogate, makes [UnicodeEncodeError] escape after the nonce
    has been drawn. *)
Theorem encrypt_endpoint_outcomes (environ : option str) (key : bytes)
  (plaintext : str) (rnd : random) :
  _load_key environ = Ok key ->
  (plaintext = [] ->
     encrypt_endpoint environ plaintext rnd = (HTTPException 400, rnd))
  /\ (plaintext <> [] -> Forall Utf8.scalar plaintext ->
      exists env,
        encrypt_endpoint environ plaintext rnd
        = (Reply env, fun i => rnd (12 + i)%nat))
  /\ (~ Forall Utf8.scalar plaintext ->
      encrypt_endpoint environ plaintext rnd
      = (Unhandled UnicodeEncodeError, fun i => rnd (12 + i)%nat)).
Proof.
  intro Hkey. split; [now intros ->|]. split.
  - intros Hne Hs. destruct (encode_total plaintext Hs) as [data Hdata].
    unfold encrypt_endpoint. destruct plaintext as [|c s]; [now elim Hne|].
    rewrite (encrypt_ok _ _ _ _ rnd Hkey Hdata). now eexists.
  - intro Hn. unfold encrypt_endpoint.
    destruct plaintext as [|c s]; [elim Hn; constructor|].
    now rewrite (encrypt_unencodable _ _ _ rnd Hkey Hn).
Qed.

Lemma encrypt_endpoint_outcomes_witness :
  encrypt_endpoint Sample.environ [104; 0xD800] Sample.counting
  = (Unhandled UnicodeEncodeError, fun i => Sample.counting (12 + i)%nat).
Proof.
  apply (encrypt_endpoint_outcomes Sample.environ Sample.key [104; 0xD800]
           Sample.counting).
  - vm_compute. reflexivity.
  - intro H. inversion H as [|? ? _ H']. inversion H' as [|? ? [_ Hs] _].
    discriminate Hs.
Defined.

(** X3 (what decrypts is what encryption makes).  When [decrypt]
    returns a text under a valid key, the three fields decode, the text
    is made of scalar values, and sealing its UTF-8 bytes under the
    decoded nonce gives the decoded ciphertext followed by the decoded
    tag: with a nonce of twelve bytes, [encrypt] drawing that nonce
    returns fields that decode to the same bytes. *)
Theorem decrypt_accepts_only_sealed (environ : option str) (key : bytes)
  (c_b64 i_b64 t_b64 : str) (plaintext : str) :
  _load_key environ = Ok key ->
  decrypt environ c_b64 i_b64 t_b64 = Ok plaintext ->
  exists c n t data,
    b64decode c_b64 = Ok c /\ b64decode i_b64 = Ok n
    /\ b64decode t_b64 = Ok t
    /\ Forall Utf8.scalar plaintext
    /\ Utf8.encode plaintext = Ok data
    /\ AESGCM.encrypt key n data = Ok (c ++ t)
    /\ (forall rnd, map rnd (seq 0 12) = n ->
        exists env c' t',
          fst (encrypt environ plaintext rnd) = Ok env
          /\ b64decode (ciphertext env) = Ok c'
          /\ b64decode (iv env) = Ok n
          /\ b64decode (tag env) = Ok t'
          /\ c' ++ t' = c ++ t).
Proof.
  intros Hkey. unfold decrypt. rewrite Hkey. cbn [bind].
  rewrite (new_ok key (load_key_length _ _ Hkey)). cbn [bind].
  destruct (b64decode c_b64) as [c|] eqn:Hc; cbn [bind]; [|discriminate].
  destruct (b64decode i_b64) as [n|] eqn:Hi; cbn [bind]; [|discriminate].
  destruct (b64decode t_b64) as [t|] eqn:Ht; cbn [bind]; [|discriminate].
  destruct (AESGCM.decrypt key n (c ++ t)) as [data|] eqn:Hopen;
    cbn [bind]; [|discriminate].
  intro Hdec. apply encode_decode in Hdec. destruct Hdec as [Henc Hs].
  destruct (aesgcm_decrypt_ok _ _ _ _ Hopen) as [Hseal _].
  exists c, n, t, data. repeat (split; [assumption || reflexivity|]).
  intros rnd Hn. rewrite (encrypt_ok _ _ _ _ rnd Hkey Henc). cbn [fst].
  rewrite Hn. do 3 eexists. split; [reflexivity|]. cbn [ciphertext iv tag].
  rewrite !b64decode_b64encode. repeat (split; [reflexivity|]).
  revert Hseal. unfold AESGCM.encrypt.
  destruct (AESGCM.check_nonce n); cbn [bind]; [|discriminate].
  intros [= <-]. reflexivity.
Qed.

Lemma decrypt_accepts_only_sealed_witness :
  exists c n t data,
    b64decode (ciphertext Sample.envelope_hi) = Ok c
    /\ b64decode (iv Sample.envelope_hi) = Ok n
    /\ b64decode (tag Sample.envelope_hi) = Ok t
    /\ Forall Utf8.scalar (lit "hi")
    /\ Utf8.encode (lit "hi") = Ok data
    /\ AESGCM.encrypt Sample.key n data = Ok (c ++ t)
    /\ (forall rnd, map rnd (seq 0 12) = n ->
        exists env c' t',
          fst (encrypt Sample.environ (lit "hi") rnd) = Ok env
          /\ b64decode (ciphertext env) = Ok c'
          /\ b64decode (iv env) = Ok n
          /\ b64decode (tag env) = Ok t'
          /\ c' ++ t' = c ++ t).
Proof.
  apply (decrypt_accepts_only_sealed Sample.environ Sample.key).
  - vm_compute. reflexivity.
  - vm_compute. reflexivity.
Defined.

(** X4 (the meaning of 422).  [decrypt_endpoint] answers 422 exactly
    when the key loads, the three fields decode, the nonce has from 8
    to 128 bytes, and the tag check fails: the decoded ciphertext and
    tag are fewer than sixteen bytes together, or the last sixteen of
    them are not the tag of those before.  No fault of the key, of the
    encoding of a field or of the length of the nonce is answered 422. *)
Theorem decrypt_endpoint_422 (environ : option str) (req : envelope) :
  decrypt_endpoint environ req = HTTPException 422
  <-> exists key c n t,
        _load_key environ = Ok key
        /\ b64decode (ciphertext req) = Ok c /\ b64decode (iv req) = Ok n
        /\ b64decode (tag req) = Ok t
        /\ (8 <= length n <= 128)%nat
        /\ ((length c + length t < 16)%nat
            \/ let m := (length c + length t - 16)%nat in
               GCM.tag (aes256 key) n (firstn m (c ++ t))
               <> skipn m (c ++ t)).
Proof.
  rewrite <- decrypt_invalid_tag. unfold decrypt_endpoint.
  destruct (decrypt environ (ciphertext req) (iv req) (tag req)) as [p|e].
  - split; discriminate.
  - destruct e; split; intro H; try discriminate H; reflexivity.
Qed.

(** X6 (the size of the fields).  The nonce field of an envelope has
    sixteen characters and the tag field twenty-four, and the
    ciphertext field has four characters for every three bytes, or
    part of three, of the UTF-8 text; all are characters of the base64
    alphabet or the pad sign. *)
Theorem envelope_text_lengths (environ : option str) (key : bytes)
  (plaintext : str) (data : bytes) (rnd : random) :
  _load_key environ = Ok key ->
  Utf8.encode plaintext = Ok data ->
  exists env,
    fst (encrypt environ plaintext rnd) = Ok env
    /\ length (ciphertext env) = (4 * ((length data + 2) / 3))%nat
    /\ length (iv env) = 16%nat
    /\ length (tag env) = 24%nat
    /\ Forall (fun c => a2b c <> None \/ c = PAD)
         (ciphertext env ++ iv env ++ tag env).
Proof.
  intros Hkey Hdata. rewrite (encrypt_ok _ _ _ _ rnd Hkey Hdata).
  eexists. split; [reflexivity|]. cbn [ciphertext iv tag].
  rewrite !length_map, !b64encode_length.
  rewrite crypt_length, tag_length, length_map, length_seq.
  repeat split.
  repeat (apply Forall_app; split); apply b64text_alphabet.
Qed.

Lemma envelope_text_lengths_witness :
  exists env,
    fst (encrypt Sample.environ [104; 233; 8364] Sample.counting) = Ok env
    /\ length (ciphertext env) = 8%nat
    /\ length (iv env) = 16%nat
    /\ length (tag env) = 24%nat
    /\ Forall (fun c => a2b c <> None \/ c = PAD)
         (ciphertext env ++ iv env ++ tag env).
Proof.
  apply (envelope_text_lengths Sample.environ Sample.key [104; 233; 8364]
           (map byte_of_N [104; 195; 169; 226; 130; 172])).
  - vm_compute. reflexivity.
  - vm_compute. reflexivity.
Defined.

End EncryptionProperties.

(** ** The key stream, and the text of the key *)

Module StreamFacts.
Import GCM GCMFacts.

Lemma xor_byte_cancel (a b k : byte) :
  xor_byte (xor_byte a k) (xor_byte b k) = xor_byte a b.
Proof.
  unfold xor_byte.
  pose proof (to_N_lt a). pose proof (to_N_lt b). pose proof (to_N_lt k).
  rewrite !to_N_byte_of_N_small by now apply AESFacts.lxor_byte.
  f_equal.
  rewrite (N.lxor_comm (Byte.to_N b)), N.lxor_assoc.
  rewrite <- (N.lxor_assoc (Byte.to_N k)), N.lxor_nilpotent, N.lxor_0_l.
  reflexivity.
Qed.

Lemma xor_bytes_cancel (a b k : bytes) :
  (length a <= length k)%nat -> (length b <= length k)%nat ->
  xor_bytes (xor_bytes a k) (xor_bytes b k) = xor_bytes a b.
Proof.
  revert b k. induction a as [|x a IH]; intros [|y b] [|z k] Ha Hb;
    try reflexivity; cbn [length] in *; try lia.
  rewrite !xor_bytes_cons, xor_byte_cancel, IH by lia. reflexivity.
Qed.

Lemma xor_bytes_nil_r (a : bytes) : xor_bytes a [] = [].
Proof. now destruct a. Qed.

(** The bytes of a key stream past the end of the data play no part. *)
Lemma xor_bytes_app_r (a k k' : bytes) :
  (length a <= length k)%nat -> xor_bytes a (k ++ k') = xor_bytes a k.
Proof.
  revert k. induction a as [|x a IH]; intros [|z k] Ha;
    try reflexivity; cbn [length] in *; try lia.
  cbn [app]. rewrite !xor_bytes_cons, IH by lia. reflexivity.
Qed.

Lemma xor_bytes_split (a k k' : bytes) :
  xor_bytes a (k ++ k')
  = xor_bytes (firstn (length k) a) k ++ xor_bytes (skipn (length k) a) k'.
Proof.
  revert a. induction k as [|z k IH]; intros [|x a]; try reflexivity.
  cbn [app length firstn skipn]. rewrite !xor_bytes_cons, IH. reflexivity.
Qed.

Section WithCipher.
Variable E : N -> N.

Lemma keystream_length (n : nat) (cb : N) :
length (keystream E n cb) = (16 * n)%nat.
Proof.
revert cb. induction n as [|n IH]; intro cb; [reflexivity|].
cbn [keystream]. rewrite length_app, stream_length, IH. lia.
Qed.

(** Counter mode xors the data with the key stream. *)
Lemma gctr_keystream (n : nat) (cb : N) (data : bytes) :
gctr E n cb data = xor_bytes data (keystream E n cb).
Proof.
revert cb data. induction n as [|n IH]; intros cb data.
- cbn [gctr keystream]. now rewrite xor_bytes_nil_r.
- cbn [gctr keystream]. rewrite xor_bytes_split, stream_length, IH.
  reflexivity.
Qed.

(** A longer key stream from the same counter starts with the shorter
    one. *)
Lemma keystream_prefix (n m : nat) (cb : N) :
(n <= m)%nat -> exists more, keystream E m cb = keystream E n cb ++ more.
Proof.
revert m cb. induction n as [|n IH]; intros m cb Hle.
- now exists (keystream E m cb).
- destruct m as [|m]; [lia|]. destruct (IH m (inc32 cb)) as [more Hmore]; [lia|].
  exists more. cbn [keystream]. now rewrite Hmore, app_assoc.
Qed.

Lemma crypt_keystream (iv data : bytes) (n : nat) :
(nblocks data <= n)%nat ->
crypt E iv data = xor_bytes data (keystream E n (inc32 (J0 E iv))).
Proof.
intro Hle. unfold crypt. rewrite gctr_keystream.
destruct (keystream_prefix (nblocks data) n (inc32 (J0 E iv)) Hle)
  as [more ->].
rewrite xor_bytes_app_r; [reflexivity|].
rewrite keystream_length. apply nblocks_bound.
Qed.

(** Two messages under one nonce: the key stream cancels. *)
Lemma crypt_same_nonce (iv data data' : bytes) :
xor_bytes (crypt E iv data) (crypt E iv data') = xor_bytes data data'.
Proof.
set (n := Nat.max (nblocks data) (nblocks data')).
rewrite (crypt_keystream iv data n), (crypt_keystream iv data' n)
  by (unfold n; lia).
apply xor_bytes_cancel; rewrite keystream_length.
- pose proof (nblocks_bound data). unfold n. lia.
- pose proof (nblocks_bound data'). unfold n. lia.
Qed.

End WithCipher.
End StreamFacts.

Module KeyTextFacts.

Lemma upper_cons (U : unicode) (c : N) (s : str) :
  Py.upper U (c :: s) = Py.upper_char U c ++ Py.upper U s.
Proof. reflexivity. Qed.

(** For the key, upper case changes no character that matters. *)
Lemma upper_char_of_key (c : N) :
  exists c', Py.upper_char ascii_only c = [c']
             /\ Hex.is_space c' = Hex.is_space c
             /\ Hex.digit_value c' = Hex.digit_value c.
Proof.
  unfold Py.upper_char.
  destruct (N.ltb_spec c 128) as [Hc|Hc]; [|now exists c].
  eexists. split; [reflexivity|].
  pose (P := fun c =>
    let c' := if (97 <=? c) && (c <=? 122) then c - 32 else c in
    Bool.eqb (Hex.is_space c') (Hex.is_space c)
    && match Hex.digit_value c', Hex.digit_value c with
       | Some v', Some v => v' =? v
       | None, None => true
       | _, _ => false
       end).
  assert (HP : P c = true)
    by (apply (forall_below P 128); [vm_compute; reflexivity | exact Hc]).
  unfold P in HP. cbn zeta in HP.
  set (c' := if (97 <=? c) && (c <=? 122) then c - 32 else c) in *.
  apply andb_prop in HP. destruct HP as [Hs Hd].
  apply Bool.eqb_prop in Hs. split; [exact Hs|].
  destruct (Hex.digit_value c') as [v'|];
    destruct (Hex.digit_value c) as [v|]; try discriminate; [|reflexivity].
  apply N.eqb_eq in Hd. now subst.
Qed.

Lemma fromhex_upper (s : str) :
  Hex.fromhex (Py.upper ascii_only s) = Hex.fromhex s.
Proof.
  assert (H : Hex.fromhex (Py.upper ascii_only s) = Hex.fromhex s
              /\ (forall a, Hex.fromhex (Py.upper ascii_only (a :: s))
                            = Hex.fromhex (a :: s))); [|now apply H].
  induction s as [|b s [IH1 IH2]].
  - split; [reflexivity|]. intro a.
    destruct (upper_char_of_key a) as (a' & Ha & Hs & Hd).
    rewrite upper_cons, Ha. cbn [app Py.upper flat_map Hex.fromhex].
    now rewrite Hs, Hd.
  - split; [apply IH2|]. intro a.
    destruct (upper_char_of_key a) as (a' & Ha & Hs & Hd).
    destruct (upper_char_of_key b) as (b' & Hb & _ & Hdb).
    rewrite upper_cons, Ha. cbn [app]. cbn [Hex.fromhex]. rewrite Hs, Hd.
    destruct (Hex.is_space a); [apply IH2|].
    destruct (Hex.digit_value a); [|now destruct (Py.upper ascii_only (b :: s))].
    rewrite upper_cons, Hb. cbn [app]. rewrite Hdb.
    destruct (Hex.digit_value b); [|reflexivity].
    now rewrite IH1.
Qed.

Lemma upper_nil (s : str) : Py.upper ascii_only s = [] -> s = [].
Proof.
  destruct s as [|c s]; [reflexivity|].
  destruct (upper_char_of_key c) as (c' & Hc & _).
  rewrite upper_cons, Hc. discriminate.
Qed.

Lemma load_key_upper (s : str) :
  _load_key (Some (Py.upper ascii_only s)) = _load_key (Some s).
Proof.
  destruct s as [|c s]; [reflexivity|].
  unfold _load_key. rewrite <- (fromhex_upper (c :: s)).
  destruct (Py.upper ascii_only (c :: s)) eqn:E; [|reflexivity].
  apply upper_nil in E. discriminate.
Qed.

Lemma digit_not_space (c v : N) :
  Hex.digit_value c = Some v -> Hex.is_space c = false.
Proof.
  unfold Hex.digit_value, Hex.is_space.
  destruct (N.eqb_spec c 32); destruct (N.leb_spec 9 c);
    destruct (N.leb_spec c 13); destruct (N.leb_spec 48 c);
    destruct (N.leb_spec c 57); destruct (N.leb_spec 97 c);
    destruct (N.leb_spec c 102); destruct (N.leb_spec 65 c);
    destruct (N.leb_spec c 70); cbn [andb orb];
    try discriminate; try reflexivity; lia.
Qed.

(** The text of a key that decodes: two digits to the byte, and white
    space. *)
Lemma fromhex_digits (s : str) (kb : bytes) :
  Hex.fromhex s = Ok kb ->
  length (key_digits s) = (2 * length kb)%nat
  /\ Forall (fun c => Hex.digit_value c <> None) (key_digits s).
Proof.
  assert (H : (forall kb, Hex.fromhex s = Ok kb ->
                 length (key_digits s) = (2 * length kb)%nat
                 /\ Forall (fun c => Hex.digit_value c <> None) (key_digits s))
              /\ (forall a kb, Hex.fromhex (a :: s) = Ok kb ->
                    length (key_digits (a :: s)) = (2 * length kb)%nat
                    /\ Forall (fun c => Hex.digit_value c <> None)
                         (key_digits (a :: s)))); [|now apply H].
  clear kb. induction s as [|b s [IH1 IH2]].
  - split; [intros kb [= <-]; now split|]. intros a kb. cbn [Hex.fromhex].
    unfold key_digits. cbn [filter].
    destruct (Hex.is_space a); [intros [= <-]; now split|].
    destruct (Hex.digit_value a); discriminate.
  - split; [apply IH2|]. intros a kb. cbn [Hex.fromhex].
    unfold key_digits. cbn [filter].
    destruct (Hex.is_space a) eqn:Sa; cbn [negb].
    { intro H. apply (IH2 b kb H). }
    destruct (Hex.digit_value a) as [top|] eqn:Da; [|discriminate].
    destruct (Hex.digit_value b) as [bot|] eqn:Db; [|discriminate].
    rewrite (digit_not_space _ _ Db). cbn [negb].
    intro H. apply Utf8Inverse.emit_ok in H. destruct H as (kb' & Hkb & ->).
    destruct (IH1 kb' Hkb) as [Hlen Hall]. unfold key_digits in Hlen, Hall.
    cbn [length]. split; [lia|].
    constructor; [congruence|]. constructor; [congruence|]. exact Hall.
Qed.

End KeyTextFacts.

(** ** The lines of a range response *)

Module LineFacts.

Lemma not_break_not_cr (c : N) : Py.is_linebreak c = false -> (c =? 13) = false.
Proof.
  intro H. destruct (N.eqb_spec c 13) as [->|]; [|reflexivity].
  discriminate H.
Qed.

(** Reading a text without line break up to its end. *)
Lemma splitlines_last (cur rest : str) :
  one_line rest ->
  Py.splitlines_from cur rest
  = match rev cur ++ rest with [] => [] | line => [line] end.
Proof.
  intro Hrest. revert cur. induction Hrest as [|c rest Hc _ IH]; intro cur.
  - cbn [Py.splitlines_from]. rewrite app_nil_r.
    destruct cur as [|x cur]; [reflexivity|].
    destruct (rev (x :: cur)) eqn:E; [|reflexivity].
    apply (f_equal (@length N)) in E. rewrite length_rev in E. discriminate.
  - cbn [Py.splitlines_from]. rewrite (not_break_not_cr c Hc), Hc, IH.
    cbn [rev]. now rewrite <- app_assoc.
Qed.

(** Reading a line and the break after it. *)
Lemma splitlines_line (eol cur line rest : str) :
  eol = [13; 10] \/ eol = [10] -> one_line line ->
  Py.splitlines_from cur (line ++ eol ++ rest)
  = (rev cur ++ line) :: Py.splitlines_from [] rest.
Proof.
  intros Heol Hline. revert cur.
  induction Hline as [|c line Hc _ IH]; intro cur.
  - rewrite app_nil_r. destruct Heol as [-> | ->]; reflexivity.
  - cbn [app Py.splitlines_from]. rewrite (not_break_not_cr c Hc), Hc, IH.
    cbn [rev]. now rewrite <- app_assoc.
Qed.

Lemma splitlines_body (eol : str) (lines : list str) (rest : str) :
  eol = [13; 10] \/ eol = [10] -> Forall one_line lines -> one_line rest ->
  Py.splitlines (body_of eol lines rest)
  = lines ++ match rest with [] => [] | _ => [rest] end.
Proof.
  intros Heol Hlines Hrest. unfold Py.splitlines, body_of.
  induction Hlines as [|line lines Hline _ IH].
  - cbn [flat_map app]. rewrite splitlines_last by exact Hrest.
    cbn [rev app]. now destruct rest.
  - cbn [flat_map]. rewrite <- !app_assoc.
    rewrite (splitlines_line eol [] line _ Heol Hline), IH. reflexivity.
Qed.

End LineFacts.

Module ServiceProperties.
Import Base64 TransportFacts GCMFacts EncryptionFacts Utf8Facts.
Import StreamFacts KeyTextFacts LineFacts.

(** X5 (a nonce used twice).  When the random source gives the same
    twelve bytes to two encryptions under one key, the two envelopes
    have the same nonce, and the two ciphertexts xored are the two
    UTF-8 texts xored: the key stream cancels, whatever the key is. *)
Theorem nonce_reuse_cancels_the_key_stream (environ : option str)
  (key : bytes) (plaintext plaintext' : str) (data data' : bytes)
  (rnd rnd' : random) :
  _load_key environ = Ok key ->
  Utf8.encode plaintext = Ok data -> Utf8.encode plaintext' = Ok data' ->
  map rnd (seq 0 12) = map rnd' (seq 0 12) ->
  exists env env' c c',
    fst (encrypt environ plaintext rnd) = Ok env
    /\ fst (encrypt environ plaintext' rnd') = Ok env'
    /\ iv env = iv env'
    /\ b64decode (ciphertext env) = Ok c
    /\ b64decode (ciphertext env') = Ok c'
    /\ xor_bytes c c' = xor_bytes data data'.
Proof.
  intros Hkey Hdata Hdata' Hsame.
  rewrite (encrypt_ok _ _ _ _ rnd Hkey Hdata).
  rewrite (encrypt_ok _ _ _ _ rnd' Hkey Hdata'). cbn [fst].
  do 4 eexists. split; [reflexivity|]. split; [reflexivity|].
  cbn [ciphertext iv]. split; [now rewrite Hsame|].
  split; [apply b64decode_b64encode|].
  split; [apply b64decode_b64encode|].
  rewrite Hsame. apply crypt_same_nonce.
Qed.

Lemma nonce_reuse_cancels_the_key_stream_witness :
  exists env env' c c',
    fst (encrypt Sample.environ (lit "hi") Sample.counting) = Ok env
    /\ fst (encrypt Sample.environ (lit "yo") Sample.counting) = Ok env'
    /\ iv env = iv env'
    /\ b64decode (ciphertext env) = Ok c
    /\ b64decode (ciphertext env') = Ok c'
    /\ xor_bytes c c'
       = xor_bytes (map byte_of_N [104; 105]) (map byte_of_N [121; 111]).
Proof.
  apply (nonce_reuse_cancels_the_key_stream Sample.environ Sample.key
           (lit "hi") (lit "yo")).
  - vm_compute. reflexivity.
  - vm_compute. reflexivity.
  - vm_compute. reflexivity.
  - reflexivity.
Defined.

(** X7 (the text of the key).  Two key texts that differ in the case of
    their letters only load alike, to the same key or to the same
    failure.  A text that loads has exactly sixty-four characters that
    are not white space, all of them hex digits. *)
Theorem key_text_format (key_hex key_hex' : str) :
  Py.upper ascii_only key_hex = Py.upper ascii_only key_hex' ->
  _load_key (Some key_hex) = _load_key (Some key_hex')
  /\ (forall key, _load_key (Some key_hex) = Ok key ->
        length (key_digits key_hex) = 64%nat
        /\ Forall (fun c => Hex.digit_value c <> None) (key_digits key_hex)).
Proof.
  intro Hcase. split.
  - rewrite <- (load_key_upper key_hex), <- (load_key_upper key_hex').
    now rewrite Hcase.
  - intros key Hkey. pose proof (load_key_length _ _ Hkey) as Hlen.
    revert Hkey. unfold _load_key. destruct key_hex as [|c s]; [discriminate|].
    destruct (Hex.fromhex (c :: s)) as [kb|] eqn:Hhex; cbn [bind];
      [|discriminate].
    destruct (negb _); [discriminate|]. intros [= ->].
    destruct (fromhex_digits _ _ Hhex) as [Hn Hall]. split; [lia | exact Hall].
Qed.

Lemma key_text_format_witness :
  _load_key (Some (lit "ab" ++ repeat 48 62))
  = _load_key (Some (lit "Ab" ++ repeat 48 62))
  /\ (forall key, _load_key (Some (lit "ab" ++ repeat 48 62)) = Ok key ->
        length (key_digits (lit "ab" ++ repeat 48 62)) = 64%nat
        /\ Forall (fun c => Hex.digit_value c <> None)
             (key_digits (lit "ab" ++ repeat 48 62))).
Proof.
  apply (key_text_format (lit "ab" ++ repeat 48 62) (lit "Ab" ++ repeat 48 62)).
  vm_compute. reflexivity.
Defined.

(** X8 (a password that has no UTF-8 form).  For a password that holds
    a code point that is no scalar value, such as a lone surrogate, the
    check fails with [UnicodeEncodeError] before any request is made,
    whatever the remote service would answer, and the endpoint answers
    503. *)
Theorem unencodable_password (U : unicode) (sha1 : bytes -> N)
  (password : str) :
  ~ Forall Utf8.scalar password ->
  Breach.outbound_request U sha1 password = Raise UnicodeEncodeError
  /\ (forall net,
        Breach.check_password_breach U sha1 net password
        = Raise UnicodeEncodeError
        /\ Breach.breach_check U sha1 net password = HTTPException 503).
Proof.
  intro Hn. pose proof (EndpointFacts.encode_fails _ Hn) as He.
  assert (Hd : Breach.digest U sha1 password = Raise UnicodeEncodeError)
    by (unfold Breach.digest; now rewrite He).
  split.
  - unfold Breach.outbound_request. now rewrite Hd.
  - intro net.
    assert (Hc : Breach.check_password_breach U sha1 net password
                 = Raise UnicodeEncodeError)
      by (unfold Breach.check_password_breach; now rewrite Hd).
    split; [exact Hc|]. unfold Breach.breach_check. now rewrite Hc.
Qed.

Lemma unencodable_password_witness :
  Breach.outbound_request ascii_only SHA1.sha1 [112; 0xDC00]
  = Raise UnicodeEncodeError
  /\ (forall net,
        Breach.check_password_breach ascii_only SHA1.sha1 net [112; 0xDC00]
        = Raise UnicodeEncodeError
        /\ Breach.breach_check ascii_only SHA1.sha1 net [112; 0xDC00]
           = HTTPException 503).
Proof.
  apply (unencodable_password ascii_only SHA1.sha1 [112; 0xDC00]).
  intro H. inversion H as [|? ? _ H']. inversion H' as [|? ? [_ Hs] _].
  discriminate Hs.
Defined.

(** X9 (line endings).  With a 2xx answer whose body is made of lines
    that each end with a carriage return and a line feed, or each with
    a line feed alone, and of a last line that may have no end, the
    check is the scan of those lines: the kind of line ending plays no
    part in the result. *)
Theorem line_endings_alike (U : unicode) (sha1 : bytes -> N)
  (net : request -> outcome) (password sha1_hash : str) (status_code : N)
  (eol : str) (lines : list str) (rest : str) :
  Breach.digest U sha1 password = Ok sha1_hash ->
  eol = [13; 10] \/ eol = [10] ->
  Forall one_line lines -> one_line rest ->
  net (range_request (Breach.prefix_of sha1_hash))
  = Response status_code (body_of eol lines rest) ->
  is_success status_code ->
  Breach.check_password_breach U sha1 net password
  = Breach.search U (Breach.suffix_of sha1_hash)
      (lines ++ match rest with [] => [] | _ => [rest] end).
Proof.
  intros Hd Heol Hlines Hrest Hnet Hs.
  rewrite (BreachFacts.check_scans U sha1 net _ _ _ _ Hd Hnet Hs).
  now rewrite splitlines_body.
Qed.

Lemma line_endings_alike_witness :
  Breach.check_password_breach ascii_only SHA1.sha1
    (Sample.always
       (Response 200
          (body_of [13; 10]
             [lit "0018A45C4D1DEF81644B54AB7F969B88D65:1";
              lit "1e4c9b93f3f0682250b6cf8331b7ee68fd8:42"] [])))
    (lit "password")
  = Breach.search ascii_only (lit "1E4C9B93F3F0682250B6CF8331B7EE68FD8")
      ([lit "0018A45C4D1DEF81644B54AB7F969B88D65:1";
        lit "1e4c9b93f3f0682250b6cf8331b7ee68fd8:42"] ++ [])
  /\ Breach.check_password_breach ascii_only SHA1.sha1
       (Sample.always
          (Response 200
             (body_of [13; 10]
                [lit "0018A45C4D1DEF81644B54AB7F969B88D65:1";
                 lit "1e4c9b93f3f0682250b6cf8331b7ee68fd8:42"] [])))
       (lit "password")
     = Ok (true, 42%Z).
Proof.
  split; [|vm_compute; reflexivity].
  apply (line_endings_alike ascii_only SHA1.sha1 _ (lit "password")
           (lit "5BAA61E4C9B93F3F0682250B6CF8331B7EE68FD8") 200 [13; 10]
           [lit "0018A45C4D1DEF81644B54AB7F969B88D65:1";
            lit "1e4c9b93f3f0682250b6cf8331b7ee68fd8:42"] []).
  - vm_compute. reflexivity.
  - now left.
  - repeat constructor.
  - constructor.
  - reflexivity.
  - split; [discriminate | reflexivity].
Defined.

End ServiceProperties.

(** ** The audit report *)

Module AuditFacts.
Import Audit.

Section WithParser.
Variable fromisoformat : str -> option Datetime.datetime.

(** The loop over the entries, solved: every credential of the request
    is stale when the first entry is old, and none is otherwise. *)
Lemma loop_solved (now : Datetime.datetime) (req_entries es : list AuditEntry)
(state : list str * N) :
fold_left (visit fromisoformat now req_entries) es state
= if first_is_old fromisoformat now req_entries
  then (fst state ++ map title (filter is_credential es),
        snd state + N.of_nat (length (filter is_credential es)))
  else state.
Proof.
revert state. induction es as [|e es IH]; intros [stale_entries risk_factors].
- cbn [fold_left filter map length fst snd]. rewrite app_nil_r, N.add_0_r.
  now destruct (first_is_old _ _ _).
- cbn [fold_left filter]. rewrite IH. unfold visit, first_is_old.
  destruct (days_old fromisoformat now req_entries) as [d|]; [|reflexivity].
  destruct (90 <? d)%Z; cbn [andb]; [|reflexivity].
  unfold is_credential.
  destruct (str_eqb (type e) (lit "credential")); [|reflexivity].
  cbn [map length fst snd]. rewrite <- app_assoc. cbn [app].
  f_equal. lia.
Qed.

Lemma loop_from_start (now : Datetime.datetime) (es : list AuditEntry) :
fold_left (visit fromisoformat now es) es ([], 0)
= if first_is_old fromisoformat now es
  then (map title (filter is_credential es),
        N.of_nat (length (filter is_credential es)))
  else ([], 0).
Proof. rewrite loop_solved. reflexivity. Qed.

End WithParser.

Lemma same_titles_and_types (es es' : list AuditEntry) :
  Forall2 (fun e e' => title e = title e' /\ type e = type e') es es' ->
  map title (filter is_credential es) = map title (filter is_credential es')
  /\ length (filter is_credential es) = length (filter is_credential es')
  /\ existsb is_note es = existsb is_note es'
  /\ length es = length es'.
Proof.
  induction 1 as [|e e' es es' [Ht Hy] _ (IH1 & IH2 & IH3 & IH4)].
  - repeat split.
  - cbn [filter existsb length].
    assert (Hc : is_credential e = is_credential e')
      by (unfold is_credential; now rewrite Hy).
    assert (Hn : is_note e = is_note e') by (unfold is_note; now rewrite Hy).
    rewrite Hc, Hn, IH3, IH4.
    destruct (is_credential e'); cbn [map length];
      rewrite ?Ht, ?IH1, ?IH2; repeat split.
Qed.

(** The day count of a [timedelta] is the quotient of its microseconds
    by those of a day. *)
Lemma timedelta_new_days (d s us : Z) (t : Datetime.timedelta) :
  Datetime.timedelta_new d s us = Some t ->
  Datetime.days t = (((d * 86400 + s) * 1000000 + us) / one_day)%Z.
Proof.
  unfold Datetime.timedelta_new, one_day.
  destruct (_ <? _)%Z; [discriminate|]. intros [= <-]. cbn [Datetime.days].
  Z.to_euclidean_division_equations. lia.
Qed.

Lemma timedelta_new_in_range (d s us : Z) :
  (- 4000000 <= d <= 4000000)%Z -> (- 86400 < s < 86400)%Z ->
  (- 1000000 < us < 1000000)%Z ->
  exists t, Datetime.timedelta_new d s us = Some t.
Proof.
  intros Hd Hs Hus. unfold Datetime.timedelta_new.
  match goal with |- context [(999999999 <? ?x)%Z] =>
    destruct (Z.ltb_spec 999999999 x) as [H|H] end.
  - exfalso. revert H. Z.to_euclidean_division_equations. lia.
  - eexists. reflexivity.
Qed.

Lemma days_before_month_range (y m : N) :
  1 <= m <= 12 -> (0 <= Datetime._days_before_month y m <= 335)%Z.
Proof.
  intros [H1 H2]. unfold Datetime._days_before_month.
  assert (Hm : In m (map N.of_nat (seq 1 12))).
  { apply in_map_iff. exists (N.to_nat m). split; [lia|].
    apply in_seq. lia. }
  cbn in Hm.
  destruct (Datetime._is_leap y);
    repeat (destruct Hm as [<- | Hm]; [vm_compute; split; discriminate|]);
    contradiction.
Qed.

Lemma days_in_month_le (y m : N) : (Datetime._days_in_month y m <= 31)%Z.
Proof.
  unfold Datetime._days_in_month.
  destruct ((m =? 2) && Datetime._is_leap y); [lia|].
  assert (H : Forall (fun x => (x <= 31)%Z) Datetime._DAYS_IN_MONTH)
    by (repeat constructor; lia).
  destruct (Nat.lt_ge_cases (N.to_nat m) (length Datetime._DAYS_IN_MONTH)) as [Hlt|Hge].
  - rewrite Forall_forall in H. apply H. now apply nth_In.
  - rewrite nth_overflow by exact Hge. lia.
Qed.

Lemma toordinal_range (d : Datetime.datetime) :
  Datetime.valid d -> (1 <= Datetime.toordinal d <= 3700000)%Z.
Proof.
  intros (Hy & Hm & Hd & _).
  unfold Datetime.toordinal, Datetime._ymd2ord, Datetime._days_before_year.
  pose proof (days_before_month_range (Datetime.year d) _ Hm).
  pose proof (days_in_month_le (Datetime.year d) (Datetime.month d)).
  Z.to_euclidean_division_equations. lia.
Qed.

(** The difference of two values without time zone. *)
Lemma sub_naive (a b : Datetime.datetime) :
  Datetime.valid a -> Datetime.valid b ->
  Datetime.tzinfo a = None -> Datetime.tzinfo b = None ->
  exists t, Datetime.sub a b = Some t
            /\ Datetime.days t = ((elapsed a - elapsed b) / one_day)%Z.
Proof.
  intros Ha Hb Hta Htb.
  pose proof (toordinal_range a Ha). pose proof (toordinal_range b Hb).
  destruct Ha as (_ & _ & _ & Hh & Hmi & Hs & Hus).
  destruct Hb as (_ & _ & _ & Hh' & Hmi' & Hs' & Hus').
  unfold Datetime.sub. rewrite Hta, Htb.
  match goal with |- context [Datetime.timedelta_new ?d ?s ?u] =>
    destruct (timedelta_new_in_range d s u) as [t Ht]; [lia | lia | lia |];
    rewrite Ht; exists t; split; [reflexivity|];
    rewrite (timedelta_new_days _ _ _ _ Ht) end.
  f_equal. unfold elapsed. lia.
Qed.

Lemma valid_replace_tzinfo (d : Datetime.datetime) (tz : option Datetime.timedelta) :
  Datetime.valid d -> Datetime.valid (Datetime.replace_tzinfo d tz).
Proof. intro H. exact H. Qed.

Lemma sample_now_valid : Datetime.valid AuditSample.now.
Proof. repeat split; vm_compute; congruence. Qed.

(** Two texts that start with different characters differ. *)
Ltac head_clash H :=
  apply (f_equal (hd 0)) in H; vm_compute in H; discriminate H.

Lemma not_in_general (t : str) :
  hd 0 t = 0x1F504 \/ hd 0 t = 0x1F4DD \/ hd 0 t = 0x1F4CB ->
  ~ In t general_texts.
Proof.
  intros Hhd Hin. cbv [general_texts In] in Hin.
  destruct Hin as [H | [H | [H | []]]]; rewrite <- H in Hhd;
    vm_compute in Hhd; destruct Hhd as [Hhd | [Hhd | Hhd]]; discriminate Hhd.
Qed.

End AuditFacts.

Module AuditProperties.
Import Audit AuditFacts.

(** The specific recommendations of a report, and what they start with. *)
Lemma recommendations_solved (fromisoformat : str -> option Datetime.datetime)
  (now : Datetime.datetime) (req : AuditRequest) :
  let stale := filter is_credential (entries req) in
  Report.recommendations (generate_audit fromisoformat now req)
  = (if first_is_old fromisoformat now (entries req)
        && negb (Nat.eqb (length stale) 0)
     then [stale_text ++ join (lit ", ") (map title (firstn 3 stale))]
     else [])
    ++ (match entries req with
        | [] => [empty_vault_text]
        | _ => if existsb is_note (entries req) then [] else [add_notes_text]
        end)
    ++ general_texts.
Proof.
  intro stale. unfold generate_audit. rewrite loop_from_start. fold stale.
  assert (Hsize :
    (if Nat.eqb (length (entries req)) 0 then [empty_vault_text] else [])
    ++ (if Nat.ltb 0 (length (entries req))
           && negb (existsb (fun e => str_eqb (type e) (lit "note"))
                      (entries req))
        then [add_notes_text] else []) ++ general_texts
    = match entries req with
      | [] => [empty_vault_text]
      | _ => if existsb is_note (entries req) then [] else [add_notes_text]
      end ++ general_texts).
  { destruct (entries req) as [|e es]; [reflexivity|].
    cbn [length Nat.eqb Nat.ltb Nat.leb andb app].
    change (fun e0 : AuditEntry => str_eqb (type e0) (lit "note")) with is_note.
    now destruct (existsb is_note (e :: es)). }
  destruct (first_is_old fromisoformat now (entries req));
    cbn [andb Report.recommendations]; [|exact Hsize].
  rewrite Hsize. rewrite firstn_map.
  destruct stale; reflexivity.
Qed.

(** X10 (risk score).  The number of risk factors is the number of
    entries of type "credential" when the first entry of the request is
    more than ninety days old, and zero otherwise; the score is LOW for
    none, MEDIUM for one or two and HIGH from three on. *)
Theorem audit_risk_score (fromisoformat : str -> option Datetime.datetime)
  (now : Datetime.datetime) (req : AuditRequest) :
  let stale :=
    if first_is_old fromisoformat now (entries req)
    then length (filter is_credential (entries req)) else 0%nat in
  Report.risk_score (generate_audit fromisoformat now req)
  = if Nat.eqb stale 0 then lit "LOW"
    else if Nat.leb stale 2 then lit "MEDIUM" else lit "HIGH".
Proof.
  intro stale. unfold generate_audit. rewrite loop_from_start. subst stale.
  destruct (first_is_old fromisoformat now (entries req));
    cbn [Report.risk_score]; [|reflexivity].
  set (n := length (filter is_credential (entries req))).
  destruct (N.eqb_spec (N.of_nat n) 0); destruct (Nat.eqb_spec n 0);
    try lia; [reflexivity|].
  destruct (N.leb_spec (N.of_nat n) 2); destruct (Nat.leb_spec n 2);
    try lia; reflexivity.
Qed.

(** X11 (only the first date is read).  Two requests of the same user
    with the same first entry, whose other entries have the same titles
    and types one by one, get the same report: the dates of the entries
    after the first play no part, and neither do the identifiers. *)
Theorem audit_reads_the_first_date_only
  (fromisoformat : str -> option Datetime.datetime)
  (now : Datetime.datetime) (user : str) (e0 : AuditEntry)
  (es es' : list AuditEntry) :
  Forall2 (fun e e' => title e = title e' /\ type e = type e') es es' ->
  generate_audit fromisoformat now {| user_id := user; entries := e0 :: es |}
  = generate_audit fromisoformat now {| user_id := user; entries := e0 :: es' |}.
Proof.
  intro Hsame.
  assert (Hall : Forall2 (fun e e' => title e = title e' /\ type e = type e')
                   (e0 :: es) (e0 :: es')) by (constructor; [split|]; auto).
  destruct (same_titles_and_types _ _ Hall) as (Ht & Hl & Hn & Hlen).
  unfold generate_audit. cbn [entries user_id].
  rewrite !loop_from_start.
  change (first_is_old fromisoformat now (e0 :: es'))
    with (first_is_old fromisoformat now (e0 :: es)).
  rewrite Ht, Hl, Hlen.
  change (fun e : AuditEntry => str_eqb (type e) (lit "note")) with is_note.
  rewrite Hn. reflexivity.
Qed.

Lemma audit_reads_the_first_date_only_witness :
  generate_audit AuditSample.parse_date AuditSample.now
    {| user_id := lit "u"; entries := AuditSample.vault |}
  = generate_audit AuditSample.parse_date AuditSample.now
      {| user_id := lit "u"; entries := AuditSample.vault_redated |}
  /\ Report.risk_score
       (generate_audit AuditSample.parse_date AuditSample.now
          {| user_id := lit "u"; entries := AuditSample.vault |})
     = lit "HIGH".
Proof.
  split; [|reflexivity].
  apply (audit_reads_the_first_date_only AuditSample.parse_date AuditSample.now
           (lit "u") (AuditSample.entry "mail" "credential" "2024-01-01")).
  repeat constructor.
Defined.

(** X12 (ninety days).  When the date of the first entry is read, the
    age in days is the whole number of days between it and the time of
    the request, the time zone of the date being dropped: the entries
    count as old from ninety-one full days on, and a date in the future
    never does. *)
Theorem audit_ninety_days (fromisoformat : str -> option Datetime.datetime)
  (now updated : Datetime.datetime) (first : AuditEntry)
  (rest : list AuditEntry) :
  Datetime.valid now -> Datetime.tzinfo now = None ->
  Datetime.valid updated ->
  fromisoformat (replace_char 90 (lit "+00:00") (last_updated first))
  = Some updated ->
  days_old fromisoformat now (first :: rest)
  = Some ((elapsed now - elapsed updated) / one_day)%Z
  /\ (first_is_old fromisoformat now (first :: rest) = true
      <-> (91 * one_day <= elapsed now - elapsed updated)%Z).
Proof.
  intros Hnow Htz Hupd Hparse.
  destruct (sub_naive now (Datetime.replace_tzinfo updated None) Hnow
              (valid_replace_tzinfo updated None Hupd) Htz eq_refl)
    as (t & Hsub & Hdays).
  assert (Hold : days_old fromisoformat now (first :: rest)
                 = Some ((elapsed now - elapsed updated) / one_day)%Z).
  { unfold days_old. rewrite Hparse, Hsub, Hdays. reflexivity. }
  split; [exact Hold|].
  unfold first_is_old. rewrite Hold. rewrite Z.ltb_lt.
  unfold one_day. split; intro H.
  - revert H. Z.to_euclidean_division_equations. lia.
  - Z.to_euclidean_division_equations. lia.
Qed.

(** X13 (a date that cannot be read).  When the date of the first entry
    cannot be read, the failure is passed over in silence for every
    entry: the score is LOW and no credential is named, whatever the
    entries and their dates are. *)
Theorem audit_unreadable_date (fromisoformat : str -> option Datetime.datetime)
  (now : Datetime.datetime) (user : str) (first : AuditEntry)
  (rest : list AuditEntry) :
  fromisoformat (replace_char 90 (lit "+00:00") (last_updated first)) = None ->
  let report :=
    generate_audit fromisoformat now
      {| user_id := user; entries := first :: rest |} in
  Report.risk_score report = lit "LOW"
  /\ Report.recommendations report
     = (if existsb is_note (first :: rest) then [] else [add_notes_text])
       ++ general_texts.
Proof.
  intros Hparse report.
  assert (Hyoung : first_is_old fromisoformat now (first :: rest) = false).
  { unfold first_is_old, days_old. now rewrite Hparse. }
  split.
  - unfold report, generate_audit. cbn [entries].
    rewrite loop_from_start, Hyoung.
    reflexivity.
  - unfold report. rewrite recommendations_solved. cbn [entries].
    rewrite Hyoung. reflexivity.
Qed.

Lemma audit_ninety_days_witness :
  days_old AuditSample.parse_date AuditSample.now AuditSample.vault
  = Some 152%Z
  /\ first_is_old AuditSample.parse_date AuditSample.now AuditSample.vault
     = true.
Proof.
  destruct (audit_ninety_days AuditSample.parse_date AuditSample.now
              {| Datetime.year := 2024; Datetime.month := 1;
                 Datetime.day := 1; Datetime.hour := 0;
                 Datetime.minute := 0; Datetime.second := 0;
                 Datetime.microsecond := 0; Datetime.tzinfo := None |}
              (AuditSample.entry "mail" "credential" "2024-01-01")
              (tl AuditSample.vault))
    as [Hdays Hold].
  - exact sample_now_valid.
  - reflexivity.
  - repeat split; vm_compute; congruence.
  - vm_compute. reflexivity.
  - split; [exact Hdays|]. apply Hold. vm_compute. discriminate.
Defined.

Lemma audit_unreadable_date_witness :
  let report :=
    generate_audit AuditSample.parse_date AuditSample.now
      {| user_id := lit "u";
         entries := [AuditSample.entry "mail" "credential" "never";
                     AuditSample.entry "bank" "credential" "2020-01-01"] |} in
  Report.risk_score report = lit "LOW"
  /\ Report.recommendations report = add_notes_text :: general_texts.
Proof.
  apply (audit_unreadable_date AuditSample.parse_date AuditSample.now (lit "u")
           (AuditSample.entry "mail" "credential" "never")
           [AuditSample.entry "bank" "credential" "2020-01-01"]).
  vm_compute. reflexivity.
Defined.

(** X14 (the stale credentials).  When the first entry is more than
    ninety days old and the request has entries of type "credential",
    the first recommendation names the titles of the first three of
    them, in the order of the request, after a fixed text; otherwise no
    recommendation starts with that text. *)
Theorem audit_stale_recommendation
  (fromisoformat : str -> option Datetime.datetime)
  (now : Datetime.datetime) (req : AuditRequest) :
  let stale := filter is_credential (entries req) in
  let recommendations :=
    Report.recommendations (generate_audit fromisoformat now req) in
  (first_is_old fromisoformat now (entries req) = true /\ stale <> [] ->
   hd_error recommendations
   = Some (stale_text ++ join (lit ", ") (map title (firstn 3 stale))))
  /\ (first_is_old fromisoformat now (entries req) = false \/ stale = [] ->
      forall titles, ~ In (stale_text ++ titles) recommendations).
Proof.
  intros stale recommendations. subst recommendations.
  rewrite recommendations_solved. fold stale. split.
  - intros [-> Hne]. destruct stale; [now elim Hne|]. reflexivity.
  - intros Hnone titles Hin.
    assert (Hoff : first_is_old fromisoformat now (entries req)
                   && negb (Nat.eqb (length stale) 0) = false).
    { destruct Hnone as [-> | ->]; [reflexivity|]. apply andb_false_r. }
    rewrite Hoff in Hin. cbn [app] in Hin.
    apply in_app_or in Hin. destruct Hin as [Hin | Hin].
    + destruct (entries req).
      * destruct Hin as [H | []]. head_clash H.
      * destruct (existsb is_note _); [destruct Hin|].
        destruct Hin as [H | []]. head_clash H.
    + revert Hin. apply not_in_general. left. reflexivity.
Qed.

(** X15 (the recommendations).  A report ends with the three general
    recommendations, after at most two of its own.  The text about an
    empty vault is given exactly when the request has no entry, and the
    one about secure notes exactly when it has entries of which none is
    of type "note".  For a request without entries the report counts
    zero entries, scores LOW and recommends nothing else. *)
Theorem audit_recommendations (fromisoformat : str -> option Datetime.datetime)
  (now : Datetime.datetime) (req : AuditRequest) :
  let report := generate_audit fromisoformat now req in
  let recommendations := Report.recommendations report in
  (exists specific,
     recommendations = specific ++ general_texts
     /\ (length specific <= 2)%nat)
  /\ (In empty_vault_text recommendations <-> entries req = [])
  /\ (In add_notes_text recommendations
      <-> entries req <> [] /\ existsb is_note (entries req) = false)
  /\ (entries req = [] ->
      recommendations = empty_vault_text :: general_texts
      /\ Report.risk_score report = lit "LOW"
      /\ Report.total_entries report = 0%nat).
Proof.
  intros report recommendations.
  assert (Hrisk : entries req = [] -> Report.risk_score report = lit "LOW").
  { intro Hnil. unfold report, generate_audit.
    rewrite loop_from_start, Hnil. now destruct (first_is_old _ _ _). }
  assert (Htotal : Report.total_entries report = length (entries req)).
  { unfold report, generate_audit. now destruct (fold_left _ _ _). }
  subst recommendations report. rewrite recommendations_solved.
  set (stale := filter is_credential (entries req)) in *.
  assert (Hstale : entries req = [] -> stale = [])
    by (unfold stale; now intros ->).
  destruct (entries req) as [|e es] eqn:Hentries.
  - rewrite (Hstale eq_refl), andb_false_r. cbn [app].
    split; [exists [empty_vault_text]; split; [reflexivity | cbn; lia]|].
    split; [split; [reflexivity | intros _; now left]|].
    split.
    + split; [|now intros [Hne _]].
      intros [H | Hin]; [head_clash H|].
      exfalso. revert Hin. apply not_in_general. right. right. reflexivity.
    + intros _. split; [reflexivity|]. split; [now apply Hrisk|].
      now rewrite Htotal.
  - set (b := first_is_old fromisoformat now (e :: es)
              && negb (Nat.eqb (length stale) 0)).
    set (s := stale_text ++ join (lit ", ") (map title (firstn 3 stale))).
    assert (Hs : hd 0 s = 0x1F504) by reflexivity.
    clearbody s.
    split.
    { exists ((if b then [s] else [])
              ++ (if existsb is_note (e :: es) then [] else [add_notes_text])).
      split; [now rewrite app_assoc|].
      destruct b; destruct (existsb is_note (e :: es)); cbn; lia. }
    split.
    { split; [|discriminate]. intro Hin. exfalso.
      apply in_app_or in Hin. destruct Hin as [Hin | Hin].
      - destruct b; [|destruct Hin]. destruct Hin as [H | []].
        rewrite H in Hs. vm_compute in Hs. discriminate Hs.
      - apply in_app_or in Hin. destruct Hin as [Hin | Hin].
        + destruct (existsb is_note (e :: es)); [destruct Hin|].
          destruct Hin as [H | []]. head_clash H.
        + revert Hin. apply not_in_general. right. left. reflexivity. }
    split; [|discriminate].
    split.
    + intro Hin. split; [discriminate|].
      destruct (existsb is_note (e :: es)); [|reflexivity]. exfalso.
      apply in_app_or in Hin. destruct Hin as [Hin | Hin].
      * destruct b; [|destruct Hin]. destruct Hin as [H | []].
        rewrite H in Hs. vm_compute in Hs. discriminate Hs.
      * cbn [app] in Hin. revert Hin. apply not_in_general.
        right. right. reflexivity.
    + intros [_ ->]. apply in_or_app. right. now left.
Qed.

End AuditProperties.
